(** * Nano-Align: affine-gap signal alignment, gap filling, signal model

  A shallow embedding of [src/nanopore.py] (Python 2.7) and the
  properties of its three algorithmic functions:

  - [glob_affine_gap]   (nanopore.py, lines 125-189)
  - [fill_gaps]         (nanopore.py, lines 81-101)
  - [theoretical_signal] (nanopore.py, lines 54-68)

  and of the functions around them:

  - [fit_to_model], [alignment]     (nanopore.py, lines 104-122)
  - [find_peaks]                    (nanopore.py, lines 37-51)
  - [get_acids_positions]           (nanopore.py, lines 71-78)
  - [get_consensus], [get_averages] (nanopore.py, lines 293-316)
  - [aa_to_weights], [_kmer_features], [_peptide_to_features]
                                    (train-svm.py, lines 19-44)

  Numbers.  The program computes with IEEE doubles (numpy float64).  The
  embedding idealises them as exact rationals [Q]; the only non-finite
  value the program creates on its own, [float("-inf")], is kept as a
  separate constructor.  Rounding, overflow and NaN are not modelled.
  Python [int]s are [Z]; Python 2 integer division is floor division.

  Failure.  Python exceptions are values of [result]; a [while] loop is
  run with a step budget and reports [Diverged] when it is exhausted. *)

From Stdlib Require Import List ZArith QArith Qabs Lia Lqa Bool Arith.
From Stdlib Require Import Ascii.
Import ListNotations.

Set Implicit Arguments.
Open Scope Z_scope.

(* ================================================================== *)
(** * Python run-time values used by the program *)
(* ================================================================== *)

Module Py.

Inductive exn : Type :=
| IndexError
| ValueError
| TypeError
| ZeroDivisionError.

Inductive result (A : Type) : Type :=
| Ok (a : A)
| Raise (e : exn)
| Diverged.

Arguments Ok {A} a.
Arguments Raise {A} e.
Arguments Diverged {A}.

Definition bind {A B : Type} (r : result A) (k : A -> result B) : result B :=
  match r with
  | Ok a => k a
  | Raise e => Raise e
  | Diverged => Diverged
  end.

(** [for x in xs: s = body(x, s)] *)
Fixpoint for_each {X S : Type} (xs : list X) (body : X -> S -> result S)
         (s : S) : result S :=
  match xs with
  | [] => Ok s
  | x :: xs' => bind (body x s) (for_each xs' body)
  end.

(** [xrange(a, b)] *)
Definition xrange (a b : Z) : list Z :=
  map (fun k => a + Z.of_nat k) (seq 0 (Z.to_nat (b - a))).

(** Index normalisation of a sequence of length [n]: a negative index
    counts from the end, anything outside [-n, n) is an [IndexError]. *)
Definition norm_index (n : nat) (k : Z) : result nat :=
  if (0 <=? k) && (k <? Z.of_nat n) then Ok (Z.to_nat k)
  else if (- Z.of_nat n <=? k) && (k <? 0) then Ok (Z.to_nat (k + Z.of_nat n))
  else Raise IndexError.

(** [l[k]] *)
Definition getitem {A : Type} (l : list A) (k : Z) : result A :=
  bind (norm_index (length l) k)
       (fun i => match nth_error l i with
                 | Some a => Ok a
                 | None => Raise IndexError
                 end).

Fixpoint replace_nth {A : Type} (l : list A) (i : nat) (v : A) : list A :=
  match l, i with
  | [], _ => []
  | _ :: t, O => v :: t
  | h :: t, S i' => h :: replace_nth t i' v
  end.

(** [l[k] = v] *)
Definition setitem {A : Type} (l : list A) (k : Z) (v : A) : result (list A) :=
  bind (norm_index (length l) k) (fun i => Ok (replace_nth l i v)).

(** Slice bound normalisation: [l[a:b]] clamps, never raises. *)
Definition norm_bound (n : nat) (k : Z) : nat :=
  let k' := if k <? 0 then k + Z.of_nat n else k in
  Z.to_nat (Z.min (Z.max k' 0) (Z.of_nat n)).

(** [l[a:b]] *)
Definition slice {A : Type} (l : list A) (a b : Z) : list A :=
  let lo := norm_bound (length l) a in
  let hi := norm_bound (length l) b in
  firstn (hi - lo) (skipn lo l).

(** Python 2 [a / b] on two [int]s. *)
Definition floordiv (a b : Z) : result Z :=
  if b =? 0 then Raise ZeroDivisionError else Ok (a / b).

(** [max(l, key=key)]: the first element whose key is not exceeded;
    [gt x y] is the test [x > y] on keys. *)
Fixpoint max_from {A K : Type} (gt : K -> K -> bool) (key : A -> K)
         (best : A) (l : list A) : A :=
  match l with
  | [] => best
  | x :: l' => max_from gt key (if gt (key x) (key best) then x else best) l'
  end.

Definition max_by {A K : Type} (gt : K -> K -> bool) (key : A -> K)
           (l : list A) : result A :=
  match l with
  | [] => Raise ValueError
  | x :: l' => Ok (max_from gt key x l')
  end.

(** [l.index(v)]: position of the first element equal to [v]. *)
Fixpoint index_from {A : Type} (eqb : A -> A -> bool) (l : list A) (v : A)
         (pos : nat) : result nat :=
  match l with
  | [] => Raise ValueError
  | x :: l' => if eqb x v then Ok pos else index_from eqb l' v (S pos)
  end.

Definition index {A : Type} (eqb : A -> A -> bool) (l : list A) (v : A)
  : result nat :=
  index_from eqb l v 0.

End Py.

Import Py.

Declare Scope py_scope.
Notation "x <- e ;; k" := (bind e (fun x => k))
(at level 61, e at next level, right associativity) : py_scope.
Notation "' p <- e ;; k" := (bind e (fun p => k))
(at level 61, p pattern, e at next level, right associativity) : py_scope.
Open Scope py_scope.

(* ================================================================== *)
(** * numpy float64 values and arrays *)
(* ================================================================== *)

(** A float64 as the program uses it: [-inf] or a finite number. *)
Inductive float64 : Type :=
| NegInf
| Fin (q : Q).

Module F64.

(** [x + d] for a finite [d]. *)
Definition add (x : float64) (d : Q) : float64 :=
  match x with
  | NegInf => NegInf
  | Fin q => Fin (q + d)%Q
  end.

(** [x > y] *)
Definition gtb (x y : float64) : bool :=
  match x, y with
  | NegInf, _ => false
  | Fin _, NegInf => true
  | Fin a, Fin b => negb (Qle_bool a b)
  end.

(** [x == y] *)
Definition eqb (x y : float64) : bool :=
  match x, y with
  | NegInf, NegInf => true
  | Fin a, Fin b => Qeq_bool a b
  | _, _ => false
  end.

(** Numerical equality and order, as propositions. *)
Definition eq (x y : float64) : Prop :=
  match x, y with
  | NegInf, NegInf => True
  | Fin a, Fin b => (a == b)%Q
  | _, _ => False
  end.

Definition le (x y : float64) : Prop :=
  match x, y with
  | NegInf, _ => True
  | Fin _, NegInf => False
  | Fin a, Fin b => (a <= b)%Q
  end.

Definition finite (x : float64) : Prop :=
  match x with NegInf => False | Fin _ => True end.

End F64.

(** A two-dimensional numpy array of fixed shape. *)
Record ndarray (A : Type) : Type := mk_ndarray {
nrows : nat;
ncols : nat;
data : nat -> nat -> A
}.

Module Np.

(** [np.ones((n, m)) * v] and [np.zeros((n, m))] *)
Definition full {A : Type} (n m : nat) (v : A) : ndarray A :=
  mk_ndarray n m (fun _ _ => v).

(** [a[i][j]] *)
Definition get {A : Type} (a : ndarray A) (i j : Z) : result A :=
  r <- norm_index (nrows a) i ;;
  c <- norm_index (ncols a) j ;;
  Ok (data a r c).

Definition update {A : Type} (a : ndarray A) (r c : nat) (v : A) : ndarray A :=
  mk_ndarray (nrows a) (ncols a)
    (fun r' c' => if (r' =? r)%nat && (c' =? c)%nat then v else data a r' c').

(** [a[i][j] = v] *)
Definition set {A : Type} (a : ndarray A) (i j : Z) (v : A)
  : result (ndarray A) :=
  r <- norm_index (nrows a) i ;;
  c <- norm_index (ncols a) j ;;
  Ok (update a r c v).

End Np.

(* ================================================================== *)
(** * [glob_affine_gap] (nanopore.py, lines 125-189) *)
(* ================================================================== *)

(** Identity of the three score arrays; [all_mat = [s_m, s_x, s_y]] and
    the traceback dispatches on [id(cur_mat)]. *)
Inductive mat_id : Type := S_M | S_X | S_Y.

Definition all_mat : list mat_id := [S_M; S_X; S_Y].

(** The six arrays allocated by one call. *)
Record matrices : Type := mk_matrices {
  s_m : ndarray float64;
  s_x : ndarray float64;
  s_y : ndarray float64;
  b_m : ndarray nat;
  b_x : ndarray nat;
  b_y : ndarray nat
}.

Definition score_mat (st : matrices) (c : mat_id) : ndarray float64 :=
  match c with S_M => s_m st | S_X => s_x st | S_Y => s_y st end.

Definition back_mat (st : matrices) (c : mat_id) : ndarray nat :=
  match c with S_M => b_m st | S_X => b_x st | S_Y => b_y st end.

(** [max(lst)] and [lst.index(v)] on lists of float64. *)
Definition fmax (l : list float64) : result float64 :=
  max_by F64.gtb (fun x => x) l.

Definition findex (l : list float64) (v : float64) : result nat :=
  index F64.eqb l v.

Section GlobAffineGap.

Variable A : Type.
Variables seq1 seq2 : list A.
Variables gap_open gap_ext : Q.
Variable match_fun : A -> A -> Q.

Let len1 : Z := Z.of_nat (length seq1).
Let len2 : Z := Z.of_nat (length seq2).

(** Lines 129-135: allocation and [s_m[0][0] = 0]. *)
Definition alloc_matrices : result matrices :=
  let n := Z.to_nat (len1 + 1) in
  let m := Z.to_nat (len2 + 1) in
  let sm := Np.full n m NegInf in
  let sx := Np.full n m NegInf in
  let sy := Np.full n m NegInf in
  let bm := Np.full n m 0%nat in
  let bx := Np.full n m 0%nat in
  let by_ := Np.full n m 0%nat in
  sm <- Np.set sm 0 0 (Fin 0) ;;
  Ok (mk_matrices sm sx sy bm bx by_).

(** Lines 138-139: body of the first seeding loop. *)
Definition seed_x (i : Z) (st : matrices) : result matrices :=
  sx <- Np.set (s_x st) i 0 (Fin (gap_open + inject_Z (i - 1) * gap_ext)) ;;
  bx <- Np.set (b_x st) i 0 1%nat ;;
  Ok (mk_matrices (s_m st) sx (s_y st) (b_m st) bx (b_y st)).

(** Lines 141-142: body of the second seeding loop. *)
Definition seed_y (i : Z) (st : matrices) : result matrices :=
  sy <- Np.set (s_y st) 0 i (Fin (gap_open + inject_Z (i - 1) * gap_ext)) ;;
  by_ <- Np.set (b_y st) 0 i 2%nat ;;
  Ok (mk_matrices (s_m st) (s_x st) sy (b_m st) (b_x st) by_).

(** Lines 129-142: the matrices after initialisation. *)
Definition init_matrices : result matrices :=
  st <- alloc_matrices ;;
  st <- for_each (xrange 0 (len1 + 1)) seed_x st ;;
  for_each (xrange 0 (len2 + 1)) seed_y st.

(** Lines 146-164: body of the inner loop. *)
Definition fill_cell (i j : Z) (st : matrices) : result matrices :=
  a <- getitem seq1 (i - 1) ;;
  b <- getitem seq2 (j - 1) ;;
  let delta := match_fun a b in
  m_d <- Np.get (s_m st) (i - 1) (j - 1) ;;
  x_d <- Np.get (s_x st) (i - 1) (j - 1) ;;
  y_d <- Np.get (s_y st) (i - 1) (j - 1) ;;
  let lst_m := [F64.add m_d delta; F64.add x_d delta; F64.add y_d delta] in
  m_u <- Np.get (s_m st) (i - 1) j ;;
  x_u <- Np.get (s_x st) (i - 1) j ;;
  y_u <- Np.get (s_y st) (i - 1) j ;;
  let lst_x := [F64.add m_u gap_open; F64.add x_u gap_ext;
                F64.add y_u gap_open] in
  m_l <- Np.get (s_m st) i (j - 1) ;;
  x_l <- Np.get (s_x st) i (j - 1) ;;
  y_l <- Np.get (s_y st) i (j - 1) ;;
  let lst_y := [F64.add m_l gap_open; F64.add x_l gap_open;
                F64.add y_l gap_ext] in
  v_m <- fmax lst_m ;;
  sm <- Np.set (s_m st) i j v_m ;;
  v_x <- fmax lst_x ;;
  sx <- Np.set (s_x st) i j v_x ;;
  v_y <- fmax lst_y ;;
  sy <- Np.set (s_y st) i j v_y ;;
  c_m <- Np.get sm i j ;;
  k_m <- findex lst_m c_m ;;
  bm <- Np.set (b_m st) i j k_m ;;
  c_x <- Np.get sx i j ;;
  k_x <- findex lst_x c_x ;;
  bx <- Np.set (b_x st) i j k_x ;;
  c_y <- Np.get sy i j ;;
  k_y <- findex lst_y c_y ;;
  by_ <- Np.set (b_y st) i j k_y ;;
  Ok (mk_matrices sm sx sy bm bx by_).

(** Lines 144-164: the two nested loops. *)
Definition fill_row (i : Z) (st : matrices) : result matrices :=
  for_each (xrange 1 (len2 + 1)) (fill_cell i) st.

Definition fill_matrices (st : matrices) : result matrices :=
  for_each (xrange 1 (len1 + 1)) fill_row st.

(** State of the traceback loop. *)
Record trace : Type := mk_trace {
  cur_mat : mat_id;
  pos_i : Z;
  pos_j : Z;
  res1 : list (option A);
  res2 : list (option A)
}.

(** Lines 173-188: one iteration of the [while] body.  A gap marker
    ([None]) is the [None] of [option]. *)
Definition trace_step (st : matrices) (t : trace) : result trace :=
  let i := pos_i t in
  let j := pos_j t in
  match cur_mat t with
  | S_M =>
      a <- getitem seq1 (i - 1) ;;
      b <- getitem seq2 (j - 1) ;;
      k <- Np.get (b_m st) i j ;;
      c <- getitem all_mat (Z.of_nat k) ;;
      Ok (mk_trace c (i - 1) (j - 1)
            (res1 t ++ [Some a]) (res2 t ++ [Some b]))
  | S_X =>
      a <- getitem seq1 (i - 1) ;;
      k <- Np.get (b_x st) i j ;;
      c <- getitem all_mat (Z.of_nat k) ;;
      Ok (mk_trace c (i - 1) j (res1 t ++ [Some a]) (res2 t ++ [None]))
  | S_Y =>
      b <- getitem seq2 (j - 1) ;;
      k <- Np.get (b_y st) i j ;;
      c <- getitem all_mat (Z.of_nat k) ;;
      Ok (mk_trace c i (j - 1) (res1 t ++ [None]) (res2 t ++ [Some b]))
  end.

(** Line 172: [while i > 0 or j > 0], with a step budget. *)
Fixpoint trace_loop (budget : nat) (st : matrices) (t : trace)
  : result trace :=
  if (0 <? pos_i t) || (0 <? pos_j t) then
    match budget with
    | O => Diverged
    | S budget' => t' <- trace_step st t ;; trace_loop budget' st t'
    end
  else Ok t.

(** Lines 167-189: choice of the final state, traceback, reversal. *)
Definition backtrack (st : matrices)
  : result (float64 * list (option A) * list (option A)) :=
  k_m <- Np.get (s_m st) len1 len2 ;;
  k_x <- Np.get (s_x st) len1 len2 ;;
  k_y <- Np.get (s_y st) len1 len2 ;;
  let key := fun c => match c with S_M => k_m | S_X => k_x | S_Y => k_y end in
  c <- max_by F64.gtb key all_mat ;;
  score <- Np.get (score_mat st c) len1 len2 ;;
  t <- trace_loop (length seq1 + length seq2) st
         (mk_trace c len1 len2 [] []) ;;
  Ok (score, rev (res1 t), rev (res2 t)).

Definition glob_affine_gap
  : result (float64 * list (option A) * list (option A)) :=
  st <- init_matrices ;;
  st <- fill_matrices st ;;
  backtrack st.

End GlobAffineGap.

(* ================================================================== *)
(** * [fill_gaps] (nanopore.py, lines 81-101) *)
(* ================================================================== *)

(** Lines 93-94: body of the interpolation loop.  [j], [open_gap] and [i]
    are Python 2 [int]s, so [rate] is a floor division. *)
Definition interpolate (open_gap i : Z) (v_left v_right : Q) (j : Z)
           (res : list Q) : result (list Q) :=
  rate <- floordiv (j - open_gap) (i - open_gap) ;;
  setitem res j (v_left + (v_right - v_left) * inject_Z rate)%Q.

(** Lines 86-100: body of the scanning loop; the state is [(res, open_gap)]. *)
Definition fill_step (alignment : list (option Q)) (i : Z)
           (s : list Q * option Z) : result (list Q * option Z) :=
  let '(res, open_gap) := s in
  match open_gap with
  | Some og =>
      a_i <- getitem alignment i ;;
      match a_i with
      | Some v_right =>
          a_og <- getitem alignment og ;;
          let v_left := match a_og with Some v => v | None => v_right end in
          res' <- for_each (xrange og (i + 1)) (interpolate og i v_left v_right)
                    res ;;
          Ok (res', None)
      | None => Ok (res, Some og)
      end
  | None =>
      a_i <- getitem alignment i ;;
      match a_i with
      | Some v => res' <- setitem res i v ;; Ok (res', None)
      | None => Ok (res, Some (i - 1))
      end
  end.

Definition fill_gaps (alignment : list (option Q)) : result (list Q) :=
  let res := repeat 0%Q (length alignment) in
  a_0 <- getitem alignment 0 ;;
  let open_gap := match a_0 with Some _ => None | None => Some 0 end in
  s <- for_each (xrange 0 (Z.of_nat (length alignment)))
         (fill_step alignment) (res, open_gap) ;;
  Ok (fst s).

(* ================================================================== *)
(** * [theoretical_signal] (nanopore.py, lines 54-68) *)
(* ================================================================== *)

Definition VOLUMES : list (ascii * Q) :=
  [("I", 0.1688); ("F", 0.2034); ("V", 0.1417); ("L", 0.1679);
   ("W", 0.2376); ("M", 0.1708); ("A", 0.0915); ("G", 0.0664);
   ("C", 0.1056); ("Y", 0.2036); ("P", 0.1293); ("T", 0.1221);
   ("S", 0.0991); ("H", 0.1673); ("E", 0.1551); ("N", 0.1359);
   ("Q", 0.1611); ("D", 0.1245); ("K", 0.1713); ("R", 0.2021)]%char%Q.

(** [d.get(k)] *)
Fixpoint dict_get (d : list (ascii * Q)) (k : ascii) : option Q :=
  match d with
  | [] => None
  | (k', v) :: d' => if Ascii.eqb k' k then Some v else dict_get d' k
  end.

(** [volumes ** 2]: an entry [None] (residue missing from the table) makes
    numpy raise [TypeError]. *)
Fixpoint squares (volumes : list (option Q)) : result (list Q) :=
  match volumes with
  | [] => Ok []
  | None :: _ => Raise TypeError
  | Some v :: rest => sq <- squares rest ;; Ok ((v * v)%Q :: sq)
  end.

(** [np.mean] of a list of numbers; the program only takes the mean of a
    non-empty window when [window_size >= 1]. *)
Definition mean (l : list Q) : Q :=
  (fold_left Qplus l 0 / inject_Z (Z.of_nat (length l)))%Q.

(** The value [math.sqrt(q)], kept symbolic. *)
Inductive root : Type := Sqrt (q : Q).

(** Lines 63-67: body of the loop. *)
Definition window_value (peptide : list ascii) (window_size : Z) (i : Z)
           (signal : list root) : result (list root) :=
  let start := Z.max i 0 in
  let end_ := Z.min (i + window_size) (Z.of_nat (length peptide)) in
  let volumes := map (dict_get VOLUMES) (slice peptide start end_) in
  sq <- squares volumes ;;
  let value := Sqrt (mean sq) in
  Ok (signal ++ [value]).

Definition theoretical_signal (peptide : list ascii) (window_size : Z)
  : result (list root) :=
  for_each (xrange (- window_size + 1) (Z.of_nat (length peptide) - 1))
           (window_value peptide window_size) [].

(* ================================================================== *)
(** * Reference definitions used to state and prove the properties *)
(* ================================================================== *)

(** ** The recurrences of the three-state dynamic programme

    [table i j] is what the six arrays hold at [(i, j)] once the loops of
    [glob_affine_gap] are over; it is connected to the loops by
    [fill_matrices_table] below. *)

Record cell : Type := mk_cell {
  c_m : float64;
  c_x : float64;
  c_y : float64;
  p_m : nat;
  p_x : nat;
  p_y : nat
}.

(** The six array entries of a state at one position. *)
Definition cell_at (st : matrices) (r c : nat) : cell :=
  mk_cell (data (s_m st) r c) (data (s_x st) r c) (data (s_y st) r c)
          (data (b_m st) r c) (data (b_x st) r c) (data (b_y st) r c).

Definition cell_score (c : mat_id) (x : cell) : float64 :=
  match c with S_M => c_m x | S_X => c_x x | S_Y => c_y x end.

Definition cell_back (c : mat_id) (x : cell) : nat :=
  match c with S_M => p_m x | S_X => p_x x | S_Y => p_y x end.

(** [max([a, b, c])] and [[a, b, c].index(v)]. *)
Definition max3 (a b c : float64) : float64 :=
  max_from F64.gtb (fun x => x) a [b; c].

Definition pos3 (a b c v : float64) : nat :=
  if F64.eqb a v then 0%nat else if F64.eqb b v then 1%nat else 2%nat.

Definition arg3 (a b c : float64) : nat := pos3 a b c (max3 a b c).

Section Recurrences.

Variable A : Type.
Variables seq1 seq2 : list A.
Variables gap_open gap_ext : Q.
Variable match_fun : A -> A -> Q.

(** [match_fun(seq1[i - 1], seq2[j - 1])] for [1 <= i <= len1],
    [1 <= j <= len2]. *)
Definition delta (i j : nat) : Q :=
  match nth_error seq1 (i - 1), nth_error seq2 (j - 1) with
  | Some a, Some b => match_fun a b
  | _, _ => 0%Q
  end.

(** [gap_open + (k - 1) * gap_ext] *)
Definition seed (k : nat) : float64 :=
  Fin (gap_open + inject_Z (Z.of_nat k - 1) * gap_ext).

(** Entries before the seeding loops. *)
Definition blank (i j : nat) : cell :=
  mk_cell (if (i =? 0)%nat && (j =? 0)%nat then Fin 0 else NegInf)
          NegInf NegInf 0%nat 0%nat 0%nat.

(** Entries while the seeding loops run: [kx] rows of column 0 of X and
    [ky] columns of row 0 of Y are seeded. *)
Definition seeded (kx ky i j : nat) : cell :=
  mk_cell (if (i =? 0)%nat && (j =? 0)%nat then Fin 0 else NegInf)
          (if (j =? 0)%nat && (i <? kx)%nat then seed i else NegInf)
          (if (i =? 0)%nat && (j <? ky)%nat then seed j else NegInf)
          0%nat
          (if (j =? 0)%nat && (i <? kx)%nat then 1%nat else 0%nat)
          (if (i =? 0)%nat && (j <? ky)%nat then 2%nat else 0%nat).

(** Entries of row 0 and column 0 after the seeding loops. *)
Definition border (i j : nat) : cell :=
  mk_cell (if (i =? 0)%nat && (j =? 0)%nat then Fin 0 else NegInf)
          (if (j =? 0)%nat then seed i else NegInf)
          (if (i =? 0)%nat then seed j else NegInf)
          0%nat
          (if (j =? 0)%nat then 1%nat else 0%nat)
          (if (i =? 0)%nat then 2%nat else 0%nat).

(** Entries of an inner position from its three neighbours. *)
Definition inner (d : Q) (diag up left : cell) : cell :=
  let m1 := F64.add (c_m diag) d in
  let m2 := F64.add (c_x diag) d in
  let m3 := F64.add (c_y diag) d in
  let x1 := F64.add (c_m up) gap_open in
  let x2 := F64.add (c_x up) gap_ext in
  let x3 := F64.add (c_y up) gap_open in
  let y1 := F64.add (c_m left) gap_open in
  let y2 := F64.add (c_x left) gap_open in
  let y3 := F64.add (c_y left) gap_ext in
  mk_cell (max3 m1 m2 m3) (max3 x1 x2 x3) (max3 y1 y2 y3)
          (arg3 m1 m2 m3) (arg3 x1 x2 x3) (arg3 y1 y2 y3).

Fixpoint table (i : nat) : nat -> cell :=
  match i with
  | O => fun j => border 0 j
  | S i' =>
      fix row (j : nat) : cell :=
        match j with
        | O => border (S i') 0
        | S j' => inner (delta (S i') (S j'))
                        (table i' j') (table i' (S j')) (row j')
        end
  end.

(** Entries while the nested loops run: rows below [i] and the first
    [j - 1] inner positions of row [i] are filled. *)
Definition partial (i j r c : nat) : cell :=
  if (r =? 0)%nat || (c =? 0)%nat then border r c
  else if (r <? i)%nat || ((r =? i)%nat && (c <? j)%nat) then table r c
  else blank r c.

(** The state the traceback starts in: [max(s_m, s_x, s_y, key=...)]. *)
Definition best_state (x : cell) : mat_id :=
  max_from F64.gtb (fun c => cell_score c x) S_M [S_X; S_Y].

(** The state a backpointer leads to: [all_mat[int(b[i][j])]]. *)
Definition next_state (c : mat_id) (x : cell) : mat_id :=
  nth (cell_back c x) all_mat S_M.

(** The positions the traceback visits from state [c] at [(i, j)], in the
    order it visits them. *)
Fixpoint path (budget : nat) (c : mat_id) (i j : nat)
  : list (mat_id * nat * nat) :=
  match budget with
  | O => []
  | S budget' =>
      if (i =? 0)%nat && (j =? 0)%nat then []
      else
        let c' := next_state c (table i j) in
        (c, i, j) ::
        match c with
        | S_M => path budget' c' (i - 1) (j - 1)
        | S_X => path budget' c' (i - 1) j
        | S_Y => path budget' c' i (j - 1)
        end
  end.

(** What a visited position appends to [res1] and to [res2]. *)
Definition emit1 (v : mat_id * nat * nat) : option A :=
  let '(c, i, _) := v in
  match c with S_Y => None | _ => nth_error seq1 (i - 1) end.

Definition emit2 (v : mat_id * nat * nat) : option A :=
  let '(c, _, j) := v in
  match c with S_X => None | _ => nth_error seq2 (j - 1) end.

(** The score array [c] holds a finite value at [(i, j)]. *)
Definition live (c : mat_id) (i j : nat) : Prop :=
  F64.finite (cell_score c (table i j)).

End Recurrences.

(** All six arrays have shape [(n1 + 1, n2 + 1)]. *)
Definition shaped (n1 n2 : nat) (st : matrices) : Prop :=
  (forall c, nrows (score_mat st c) = S n1 /\ ncols (score_mat st c) = S n2) /\
  (forall c, nrows (back_mat st c) = S n1 /\ ncols (back_mat st c) = S n2).

(** The arrays of [st] hold the entries [f] at every position. *)
Definition holds (n1 n2 : nat) (st : matrices) (f : nat -> nat -> cell)
  : Prop :=
  shaped n1 n2 st /\
  forall r c, (r <= n1)%nat -> (c <= n2)%nat -> cell_at st r c = f r c.

(** [c * k] *)
Definition times (c : Q) (k : nat) : Q := (c * inject_Z (Z.of_nat k))%Q.

(** ** Global alignments and their affine-gap score *)

Section Alignments.

Variable A : Type.
Variables gap_open gap_ext : Q.
Variable match_fun : A -> A -> Q.

(** Deleting the gap markers of one output row. *)
Fixpoint strip (row : list (option A)) : list A :=
  match row with
  | [] => []
  | Some a :: row' => a :: strip row'
  | None :: row' => strip row'
  end.

(** No index holds a gap marker in both rows. *)
Fixpoint no_double_gap (row1 row2 : list (option A)) : Prop :=
  match row1, row2 with
  | [], [] => True
  | x :: row1', y :: row2' =>
      (x <> None \/ y <> None) /\ no_double_gap row1' row2'
  | _, _ => False
  end.

(** A global alignment of [seq1] with [seq2]: two rows of equal length
    that spell the two sequences, no column being a double gap. *)
Definition global_alignment (seq1 seq2 : list A)
           (row1 row2 : list (option A)) : Prop :=
  length row1 = length row2 /\
  no_double_gap row1 row2 /\
  strip row1 = seq1 /\
  strip row2 = seq2.

(** Sum of [match_fun] over the columns that pair two values. *)
Fixpoint pair_score (row1 row2 : list (option A)) : Q :=
  match row1, row2 with
  | Some a :: row1', Some b :: row2' =>
      (match_fun a b + pair_score row1' row2')%Q
  | _ :: row1', _ :: row2' => pair_score row1' row2'
  | _, _ => 0%Q
  end.

(** Lengths of the maximal gap runs of a row; [run] is the length of the
    run being read. *)
Fixpoint gap_runs_from (run : nat) (row : list (option A)) : list nat :=
  match row with
  | [] => match run with O => [] | S _ => [run] end
  | None :: row' => gap_runs_from (S run) row'
  | Some _ :: row' =>
      match run with
      | O => gap_runs_from 0 row'
      | S _ => run :: gap_runs_from 0 row'
      end
  end.

Definition gap_runs (row : list (option A)) : list nat :=
  gap_runs_from 0 row.

(** [gap_open + (L - 1) * gap_ext] for a run of length [L]. *)
Definition run_penalty (L : nat) : Q :=
  (gap_open + inject_Z (Z.of_nat L - 1) * gap_ext)%Q.

Definition gap_score (row : list (option A)) : Q :=
  fold_right (fun L acc => (run_penalty L + acc)%Q) 0%Q (gap_runs row).

Definition alignment_score (row1 row2 : list (option A)) : Q :=
  (pair_score row1 row2 + (gap_score row1 + gap_score row2))%Q.

(** The same score read column by column.  A gap marker costs [gap_ext]
    when the marker before it in the same row is a gap too, [gap_open]
    otherwise; [prev] tells whether the marker before the row is a gap. *)
Definition is_gap (x : option A) : bool :=
  match x with None => true | Some _ => false end.

Definition gap_cost (prev : bool) : Q :=
  if prev then gap_ext else gap_open.

Fixpoint scan_gaps (prev : bool) (row : list (option A)) : Q :=
  match row with
  | [] => 0%Q
  | None :: row' => (gap_cost prev + scan_gaps true row')%Q
  | Some _ :: row' => scan_gaps false row'
  end.

Definition last_gap (prev : bool) (row : list (option A)) : bool :=
  fold_left (fun _ x => is_gap x) row prev.

(** The same again for a row given last column first, as the traceback
    builds it. *)
Definition head_gap (row : list (option A)) : bool :=
  match row with None :: _ => true | _ => false end.

Fixpoint rev_gaps (row : list (option A)) : Q :=
  match row with
  | [] => 0%Q
  | None :: row' => (gap_cost (head_gap row') + rev_gaps row')%Q
  | Some _ :: row' => rev_gaps row'
  end.

Definition rev_score (row1 row2 : list (option A)) : Q :=
  (pair_score row1 row2 + (rev_gaps row1 + rev_gaps row2))%Q.

(** The state of the column two rows start with. *)
Definition head_state (row1 row2 : list (option A)) : mat_id :=
  if head_gap row2 then S_X else if head_gap row1 then S_Y else S_M.

(** What the recurrences add to the entry of state [c'] to get a
    candidate for state [c]; [d] is the match score of the position. *)
Definition step_cost (c c' : mat_id) (d : Q) : Q :=
  match c, c' with
  | S_M, _ => d
  | S_X, S_X => gap_ext
  | S_X, _ => gap_open
  | S_Y, S_Y => gap_ext
  | S_Y, _ => gap_open
  end.

End Alignments.

(* ================================================================== *)
(** * [fit_to_model] and [alignment] (nanopore.py, lines 104-122) *)
(* ================================================================== *)

(** The [match] lambda of lines 105 and 120. *)
Definition match_ (p1 p2 : Q) : Q := (100 * (0.1 - Qabs (p1 - p2)))%Q.

(** Lines 114-115: body of the projection loop. *)
Definition trim_step (aln_model : list (option Q)) (filled_event : list Q)
           (i : Z) (trimmed_event : list Q) : result (list Q) :=
  m <- getitem aln_model i ;;
  match m with
  | Some _ => v <- getitem filled_event i ;; Ok (trimmed_event ++ [v])
  | None => Ok trimmed_event
  end.

Definition fit_to_model (model_trace event_trace : list Q)
  : result (list Q) :=
  r <- glob_affine_gap model_trace event_trace (-2) (-1) match_ ;;
  let '(score, aln_model, aln_event) := r in
  filled_event <- fill_gaps aln_event ;;
  for_each (xrange 0 (Z.of_nat (length filled_event)))
           (trim_step aln_model filled_event) [].

Definition alignment (signal_1 signal_2 : list Q)
  : result (float64 * list Q * list Q) :=
  r <- glob_affine_gap signal_1 signal_2 (-4) (-3) match_ ;;
  let '(score, aln_1, aln_2) := r in
  filled_1 <- fill_gaps aln_1 ;;
  filled_2 <- fill_gaps aln_2 ;;
  Ok (score, filled_1, filled_2).

(* ================================================================== *)
(** * [find_peaks] (nanopore.py, lines 37-51) *)
(* ================================================================== *)

(** [x < y] on floats. *)
Definition Qltb (x y : Q) : bool := negb (Qle_bool y x).

(** [np.zeros(n)]: a negative length is a [ValueError]. *)
Definition np_zeros (n : Z) : result (list Q) :=
  if n <? 0 then Raise ValueError else Ok (repeat 0%Q (Z.to_nat n)).

Definition WINDOW : Z := 6.

(** Line 41: body of the first loop; [signal] holds floats. *)
Definition deriv_step (signal : list Q) (i : Z) (deriv : list Q)
  : result (list Q) :=
  a <- getitem signal (i + 2) ;;
  b <- getitem signal i ;;
  setitem deriv i ((a - b) / 2)%Q.

(** Lines 45-49: body of the second loop; [WINDOW / 2] is a Python 2
    integer division. *)
Definition peak_step (deriv : list Q) (pos : Z) (peaks : list Z)
  : result (list Z) :=
  let left_ := slice deriv (pos - WINDOW / 2) pos in
  let right_ := slice deriv pos (pos + WINDOW / 2) in
  if forallb (fun x => Qltb 0 x) left_ && forallb (fun y => Qltb y 0) right_
  then Ok (peaks ++ [pos])
  else Ok peaks.

Definition find_peaks (signal : list Q) : result (list Z) :=
  deriv <- np_zeros (Z.of_nat (length signal) - 2) ;;
  deriv <- for_each (xrange 0 (Z.of_nat (length deriv)))
             (deriv_step signal) deriv ;;
  for_each (xrange (WINDOW / 2) (Z.of_nat (length deriv) - WINDOW / 2))
           (peak_step deriv) [].

(* ================================================================== *)
(** * [get_acids_positions] (nanopore.py, lines 71-78) *)
(* ================================================================== *)

(** [a / b] on floats. *)
Definition float_div (a b : Q) : result Q :=
  if Qeq_bool b 0 then Raise ZeroDivisionError else Ok (a / b)%Q.

Definition get_acids_positions (peptide : list ascii) (window_size : Z)
           (plot_len : Q) : result (list Q) :=
  let num_peaks := Z.of_nat (length peptide) + window_size - 1 in
  peak_shift <- float_div plot_len (inject_Z (num_peaks - 1)) ;;
  let initial_shift := (inject_Z (window_size - 1) * peak_shift / 2)%Q in
  for_each (xrange 0 (Z.of_nat (length peptide)))
           (fun aa positions =>
              Ok (positions ++ [(initial_shift + inject_Z aa * peak_shift)%Q]))
           [].

(* ================================================================== *)
(** * [get_consensus] and [get_averages] (nanopore.py, lines 293-316) *)
(* ================================================================== *)

(** The named tuple of line 15. *)
Module Event.

Record Struct : Type := mk_Struct {
  open_current : Q;
  dwell : Q;
  pa_blockade : Q;
  trace : list Q
}.

End Event.

(** [a += b] on one-dimensional arrays: [b] must have the length of [a],
    or length 1 and is then added to every entry. *)
Fixpoint add_arrays (a b : list Q) : list Q :=
  match a, b with
  | x :: a', y :: b' => (x + y)%Q :: add_arrays a' b'
  | _, _ => []
  end.

Definition iadd (a b : list Q) : result (list Q) :=
  if (length b =? length a)%nat then Ok (add_arrays a b)
  else match b with
       | [y] => Ok (map (fun x => (x + y)%Q) a)
       | _ => Raise ValueError
       end.

(** Lines 296-298: body of the loop. *)
Definition consensus_step (event : Event.Struct) (consensus : option (list Q))
  : result (option (list Q)) :=
  let c := match consensus with
           | None => repeat 0%Q (length (Event.trace event))
           | Some c => c
           end in
  c' <- iadd c (Event.trace event) ;;
  Ok (Some c').

(** [None / len(events)] is a [TypeError]. *)
Definition get_consensus (events : list Event.Struct) : result (list Q) :=
  consensus <- for_each events consensus_step None ;;
  match consensus with
  | None => Raise TypeError
  | Some c =>
      Ok (map (fun x => (x / inject_Z (Z.of_nat (length events)))%Q) c)
  end.

(** Lines 310-314: body of the loop. *)
Definition average_step (events : list Event.Struct) (bin_size flank : Z)
           (reverse : bool) (event_bin : Z) (averages : list (list Q))
  : result (list (list Q)) :=
  avg_signal <- get_consensus
                  (slice events (event_bin * bin_size)
                         ((event_bin + 1) * bin_size)) ;;
  let avg_signal := if reverse then rev avg_signal else avg_signal in
  Ok (averages ++ [slice avg_signal flank (- flank)]).

Definition get_averages (events : list Event.Struct) (bin_size flank : Z)
           (reverse : bool) : result (list (list Q)) :=
  bins <- floordiv (Z.of_nat (length events)) bin_size ;;
  for_each (xrange 0 bins) (average_step events bin_size flank reverse) [].

(* ================================================================== *)
(** * [aa_to_weights], [_kmer_features], [_peptide_to_features]
      (train-svm.py, lines 19-44) *)
(* ================================================================== *)

(** [string.maketrans(from, to)] as the map that [str.translate] applies
    to each character: a later pair overrides an earlier one, a character
    that is not in [from] is kept. *)
Definition maketrans (from to : list ascii) : ascii -> ascii :=
  fold_left (fun table p c => if Ascii.eqb c (fst p) then snd p else table c)
            (combine from to) (fun c => c).

Definition AA_SIZE_TRANS : ascii -> ascii :=
  maketrans
    ["G"; "A"; "S"; "C"; "U"; "T"; "D"; "P"; "N"; "V"; "B"; "E"; "Q"; "Z";
     "H"; "L"; "I"; "M"; "K"; "X"; "R"; "F"; "Y"; "W"; "-"]%char
    ["M"; "M"; "M"; "M"; "M"; "S"; "S"; "S"; "S"; "S"; "S"; "I"; "I"; "I";
     "I"; "I"; "I"; "I"; "I"; "I"; "L"; "L"; "L"; "L"; "-"]%char.

Definition aa_to_weights (kmer : list ascii) : list ascii :=
  map AA_SIZE_TRANS kmer.

(** [s.count(c)] for a one-character [c]. *)
Definition count (s : list ascii) (c : ascii) : nat :=
  length (filter (Ascii.eqb c) s).

Definition _kmer_features (kmer : list ascii) : list nat :=
  let miniscule := count kmer "M"%char in
  let small := count kmer "S"%char in
  let intermediate := count kmer "I"%char in
  let large := count kmer "L"%char in
  [large; intermediate; small; miniscule].

(** ["-" * k]: empty for a negative [k]. *)
Definition dashes (k : Z) : list ascii := repeat "-"%char (Z.to_nat k).

Definition _peptide_to_features (peptide : list ascii) (window : Z)
  : result (list (list nat)) :=
  let num_peaks := Z.of_nat (length peptide) + window - 1 in
  let flanked_peptide :=
    dashes (window - 1) ++ peptide ++ dashes (window - 1) in
  for_each (xrange 0 num_peaks)
           (fun i features =>
              let kmer := slice flanked_peptide i (i + window) in
              let feature := _kmer_features kmer in
              Ok (features ++ [feature]))
           [].

(* ================================================================== *)
(** * Reference definitions for [fill_gaps] *)
(* ================================================================== *)

(** Position [k] of a gapped row holds the value [v]; holds a gap. *)
Definition real_at (row : list (option Q)) (k : nat) (v : Q) : Prop :=
  nth_error row k = Some (Some v).

Definition gap_at (row : list (option Q)) (k : nat) : Prop :=
  nth_error row k = Some None.

Definition gaps_between (row : list (option Q)) (a e : nat) : Prop :=
  forall k, (a < k < e)%nat -> gap_at row k.

(** What the scanning loop of [fill_gaps] has established before it
    reads position [i]. *)
Definition fill_inv (row : list (option Q)) (i : nat)
           (s : list Q * option Z) : Prop :=
  let res := fst s in
  length res = length row /\
  (forall k, (i <= k)%nat -> nth k res 0%Q = 0%Q) /\
  (forall k v, (k < i)%nat -> real_at row k v -> (nth k res 0 == v)%Q) /\
  (forall a e l r k,
      (a < k < e)%nat -> (e < i)%nat ->
      real_at row a l -> real_at row e r -> gaps_between row a e ->
      (nth k res 0 == l)%Q) /\
  (forall e r k,
      (k < e)%nat -> (e < i)%nat -> real_at row e r ->
      (forall k', (k' < e)%nat -> gap_at row k') ->
      (nth k res 0 == r)%Q) /\
  match snd s with
  | None => exists v, real_at row (i - 1) v
  | Some z =>
      exists o,
        z = Z.of_nat o /\
        ((o < i)%nat \/ (i = 0%nat /\ o = 0%nat /\ gap_at row 0)) /\
        gaps_between row o i /\
        (forall k, (o < k)%nat -> nth k res 0%Q = 0%Q) /\
        ((exists v, real_at row o v) \/
         (o = 0%nat /\ gap_at row 0 /\ forall k, nth k res 0%Q = 0%Q))
  end.

(** The entries of [filled] at the positions where [aln] holds a value:
    what the loop of lines 113-115 collects. *)
Fixpoint project (aln : list (option Q)) (filled : list Q) : list Q :=
  match aln, filled with
  | Some _ :: aln', v :: filled' => v :: project aln' filled'
  | None :: aln', _ :: filled' => project aln' filled'
  | _, _ => []
  end.

(** [signal] rises over the three central differences that end before
    index [p] and falls over the three that start at [p]: the condition
    of line 48, written on the samples ([deriv[k] > 0] says
    [signal[k + 2] > signal[k]]). *)
Definition peak_at (signal : list Q) (p : nat) : Prop :=
  let s := fun k => nth k signal 0%Q in
  (3 <= p)%nat /\ (p + 6 <= length signal)%nat /\
  (s (p - 3)%nat < s (p - 1)%nat)%Q /\
  (s (p - 2)%nat < s p)%Q /\
  (s (p - 1)%nat < s (p + 1)%nat)%Q /\
  (s (p + 2)%nat < s p)%Q /\
  (s (p + 3)%nat < s (p + 1)%nat)%Q /\
  (s (p + 4)%nat < s (p + 2)%nat)%Q.


(* ================================================================== *)
(** * Reference definitions for [get_consensus] *)
(* ================================================================== *)

(** Sample [k] of the traces added up in the order of the loop. *)
Definition column_sum (events : list Event.Struct) (k : nat) : Q :=
  fold_left (fun acc event => (acc + nth k (Event.trace event) 0)%Q)
            events 0%Q.

(* ================================================================== *)
(** * Properties *)
(* ================================================================== *)

(** ** Python primitives *)

Lemma norm_index_nat (n k : nat) :
  (k < n)%nat -> norm_index n (Z.of_nat k) = Ok k.
Proof.
  intros H. unfold norm_index.
  replace (0 <=? Z.of_nat k) with true by (symmetry; apply Z.leb_le; lia).
  replace (Z.of_nat k <? Z.of_nat n) with true
    by (symmetry; apply Z.ltb_lt; lia).
  simpl. now rewrite Nat2Z.id.
Qed.

Lemma getitem_nat (A : Type) (l : list A) (k : nat) (a : A) :
  nth_error l k = Some a -> getitem l (Z.of_nat k) = Ok a.
Proof.
  intros H. unfold getitem.
  rewrite norm_index_nat by (apply nth_error_Some; congruence).
  simpl. now rewrite H.
Qed.

Lemma setitem_nat (A : Type) (l : list A) (k : nat) (v : A) :
  (k < length l)%nat -> setitem l (Z.of_nat k) v = Ok (replace_nth l k v).
Proof.
  intros H. unfold setitem. now rewrite norm_index_nat.
Qed.

Lemma replace_nth_length (A : Type) (l : list A) (i : nat) (v : A) :
  length (replace_nth l i v) = length l.
Proof.
  revert i. induction l as [|h t IH]; intros [|i]; simpl; auto.
Qed.

Lemma xrange_length (a b : Z) : length (xrange a b) = Z.to_nat (b - a).
Proof. unfold xrange. now rewrite length_map, length_seq. Qed.

Lemma xrange_nth (a b : Z) (k : nat) :
  (k < Z.to_nat (b - a))%nat ->
  nth_error (xrange a b) k = Some (a + Z.of_nat k).
Proof.
  intros H. unfold xrange.
  rewrite nth_error_map, nth_error_seq.
  destruct (Nat.ltb_spec k (Z.to_nat (b - a))); [reflexivity | lia].
Qed.

(** Loop invariants: [I k s] holds of the state before iteration [k]. *)
Lemma for_each_invariant (X S : Type) (I : nat -> S -> Prop)
      (body : X -> S -> result S) (xs : list X) (s : S) :
  I 0%nat s ->
  (forall k x s0, nth_error xs k = Some x -> I k s0 ->
                  exists s1, body x s0 = Ok s1 /\ I (Datatypes.S k) s1) ->
  exists s', for_each xs body s = Ok s' /\ I (length xs) s'.
Proof.
  revert I s. induction xs as [|x xs IH]; intros I s H0 Hstep; simpl.
  - now exists s.
  - destruct (Hstep 0%nat x s eq_refl H0) as (s1 & E1 & I1).
    rewrite E1. simpl.
    apply (IH (fun k => I (Datatypes.S k))); [exact I1 |].
    intros k y s0 Hy Hk. apply (Hstep (Datatypes.S k)); assumption.
Qed.

Lemma for_each_xrange (S : Type) (I : nat -> S -> Prop)
      (body : Z -> S -> result S) (a : Z) (n : nat) (s : S) :
  I 0%nat s ->
  (forall k s0, (k < n)%nat -> I k s0 ->
                exists s1, body (a + Z.of_nat k) s0 = Ok s1
                           /\ I (Datatypes.S k) s1) ->
  exists s', for_each (xrange a (a + Z.of_nat n)) body s = Ok s' /\ I n s'.
Proof.
  intros H0 Hstep.
  assert (L : length (xrange a (a + Z.of_nat n)) = n)
    by (rewrite xrange_length; lia).
  destruct (@for_each_invariant Z S I body (xrange a (a + Z.of_nat n)) s H0)
    as (s' & E & Hs').
  - intros k x s0 Hx Hk.
    assert (k < n)%nat by (rewrite <- L; apply nth_error_Some; congruence).
    rewrite xrange_nth in Hx by lia. injection Hx as <-. auto.
  - exists s'. now rewrite L in Hs'.
Qed.

(* ------------------------------------------------------------------ *)
(** ** [fill_gaps] *)
(* ------------------------------------------------------------------ *)

(** Inside a run the floor division yields 0, at its closing index 1. *)
Lemma interpolate_inside (og i j : Z) (l r : Q) (res : list Q) :
  og <= j < i ->
  interpolate og i l r j res = setitem res j (l + (r - l) * 0)%Q.
Proof.
  intros H. unfold interpolate, floordiv.
  destruct (Z.eqb_spec (i - og) 0); [lia |].
  rewrite Z.div_small by lia. reflexivity.
Qed.

Lemma interpolate_closing (og i : Z) (l r : Q) (res : list Q) :
  og < i ->
  interpolate og i l r i res = setitem res i (l + (r - l) * 1)%Q.
Proof.
  intros H. unfold interpolate, floordiv.
  destruct (Z.eqb_spec (i - og) 0); [lia |].
  rewrite Z.div_same by lia. reflexivity.
Qed.

(** C2.  On the spec's own example [[2.0, gap, gap, 8.0]] the code returns
    [[2.0, 2.0, 2.0, 8.0]], not the linear ramp [[2.0, 4.0, 6.0, 8.0]]:
    the ratio [(j - open_gap) / (i - open_gap)] is a Python 2 integer
    division, 0 at every position before the closing one. *)
Theorem fill_gaps_ramp_is_flat :
  fill_gaps [Some 2%Q; None; None; Some 8%Q] = Ok [2%Q; 2%Q; 2%Q; 8%Q] /\
  fill_gaps [Some 2%Q; None; None; Some 8%Q] <> Ok [2%Q; 4%Q; 6%Q; 8%Q] /\
  (forall l r res, interpolate 0 3 l r 1 res
                   = setitem res 1 (l + (r - l) * 0)%Q).
Proof.
  split; [reflexivity | split].
  - discriminate.
  - intros. apply interpolate_inside. lia.
Qed.

Lemma getitem_all_gaps (n k : nat) :
  (k < n)%nat -> getitem (repeat (@None Q) n) (Z.of_nat k) = Ok None.
Proof.
  intros H. apply getitem_nat.
  rewrite nth_error_repeat; auto.
Qed.

Lemma all_gaps_repeat (alignment : list (option Q)) :
  Forall (fun x => x = None) alignment ->
  alignment = repeat None (length alignment).
Proof.
  induction 1 as [|x l Hx Hl IH]; simpl; [reflexivity |].
  now rewrite Hx, <- IH.
Qed.

(** C4, as the code behaves.  On a non-empty sequence made of gap markers
    only, [fill_gaps] raises nothing and returns as many zeros. *)
Theorem fill_gaps_all_gaps (alignment : list (option Q)) :
  alignment <> [] ->
  Forall (fun x => x = None) alignment ->
  fill_gaps alignment = Ok (repeat 0%Q (length alignment)).
Proof.
  intros Hne Hall.
  pose proof (all_gaps_repeat Hall) as E.
  remember (length alignment) as n eqn:Hn.
  assert (Hpos : (0 < n)%nat).
  { subst n. destruct alignment; [congruence | simpl; lia]. }
  unfold fill_gaps. rewrite <- Hn, E.
  pose proof (@getitem_all_gaps n 0%nat Hpos) as G0. simpl in G0.
  rewrite G0. simpl.
  destruct (@for_each_xrange (list Q * option Z)
              (fun _ s => s = (repeat 0%Q n, Some 0))
              (fill_step (repeat None n)) 0 n (repeat 0%Q n, Some 0) eq_refl)
    as (s' & Es & Hs').
  - intros k s0 Hk ->. simpl.
    rewrite getitem_all_gaps by lia. simpl. eauto.
  - simpl in Es. rewrite Es. simpl. now rewrite Hs'.
Qed.

Lemma fill_gaps_all_gaps_witness :
  fill_gaps [None; None; None] = Ok [0%Q; 0%Q; 0%Q].
Proof.
  apply (@fill_gaps_all_gaps [None; None; None]).
  - discriminate.
  - repeat constructor.
Defined.

(** C4, as stated, fails: no exception on a gap-only input. *)
Lemma fill_gaps_all_gaps_no_error :
  fill_gaps [None; None] = Ok [0%Q; 0%Q] /\
  (forall e, fill_gaps [None; None] <> Raise e).
Proof. split; [reflexivity | discriminate]. Qed.

(* ------------------------------------------------------------------ *)
(** ** [theoretical_signal] *)
(* ------------------------------------------------------------------ *)

Lemma squares_known (residues : list ascii) :
  Forall (fun c => dict_get VOLUMES c <> None) residues ->
  exists sq, squares (map (dict_get VOLUMES) residues) = Ok sq.
Proof.
  induction 1 as [|c l Hc Hl (sq & IH)]; cbn [map squares].
  - now exists [].
  - destruct (dict_get VOLUMES c) as [v|]; [| congruence].
    rewrite IH. cbn [bind]. eauto.
Qed.

Lemma slice_incl (A : Type) (l : list A) (a b : Z) (x : A) :
  In x (slice l a b) -> In x l.
Proof.
  unfold slice. intros H.
  set (lo := norm_bound (length l) a) in *.
  set (hi := norm_bound (length l) b) in *.
  rewrite <- (firstn_skipn lo l). apply in_or_app. right.
  rewrite <- (firstn_skipn (hi - lo) (skipn lo l)). apply in_or_app. now left.
Qed.

(** X11.  The loop runs [len(peptide) + window_size - 2] times and
    appends one value each time: for a peptide over the table and a
    positive window that is the length of the signal. *)
Lemma theoretical_signal_length (peptide : list ascii) (window_size : Z) :
  (1 <= length peptide)%nat ->
  0 < window_size ->
  Forall (fun c => dict_get VOLUMES c <> None) peptide ->
  exists signal,
    theoretical_signal peptide window_size = Ok signal /\
    Z.of_nat (length signal) = Z.of_nat (length peptide) + window_size - 2.
Proof.
  intros Hlen Hw Hvol. unfold theoretical_signal.
  set (n := Z.to_nat (Z.of_nat (length peptide) + window_size - 2)).
  replace (Z.of_nat (length peptide) - 1)
    with ((- window_size + 1) + Z.of_nat n) by lia.
  destruct (@for_each_xrange (list root) (fun k s => length s = k)
              (window_value peptide window_size) (- window_size + 1) n []
              eq_refl) as (signal & E & L).
  - intros k s0 Hk Hs. unfold window_value.
    destruct (@squares_known
                (slice peptide (Z.max (- window_size + 1 + Z.of_nat k) 0)
                   (Z.min (- window_size + 1 + Z.of_nat k + window_size)
                      (Z.of_nat (length peptide))))) as (sq & Esq).
    + rewrite Forall_forall in *. intros c Hc.
      apply Hvol. eapply slice_incl; eauto.
    + rewrite Esq. simpl. eexists; split; [reflexivity |].
      rewrite length_app. simpl. lia.
  - exists signal. split; [exact E | lia].
Qed.

(** C3.  For the spec's example, peptide ["AG"] and window 2, the code
    returns two values (the windows ["A"] and ["AG"]), not three: the loop
    stops at [len(peptide) - 2], one position short of the
    [len(peptide) + window_size - 1] that [get_acids_positions] expects. *)
Theorem theoretical_signal_AG :
  theoretical_signal ["A"%char; "G"%char] 2
  = Ok [Sqrt (mean [(0.0915 * 0.0915)%Q]);
        Sqrt (mean [(0.0915 * 0.0915)%Q; (0.0664 * 0.0664)%Q])] /\
  (forall signal,
      theoretical_signal ["A"%char; "G"%char] 2 = Ok signal ->
      length signal = 2%nat /\ length signal <> 3%nat).
Proof.
  split; [reflexivity |].
  intros signal H. vm_compute in H. injection H as <-. simpl. lia.
Qed.

(* ------------------------------------------------------------------ *)
(** ** numpy arrays *)
(* ------------------------------------------------------------------ *)

Lemma Np_get_nat (A : Type) (a : ndarray A) (r c : nat) :
  (r < nrows a)%nat -> (c < ncols a)%nat ->
  Np.get a (Z.of_nat r) (Z.of_nat c) = Ok (data a r c).
Proof.
  intros Hr Hc. unfold Np.get. now rewrite !norm_index_nat.
Qed.

Lemma Np_set_nat (A : Type) (a : ndarray A) (r c : nat) (v : A) :
  (r < nrows a)%nat -> (c < ncols a)%nat ->
  Np.set a (Z.of_nat r) (Z.of_nat c) v = Ok (Np.update a r c v).
Proof.
  intros Hr Hc. unfold Np.set. now rewrite !norm_index_nat.
Qed.

Lemma cell_eta (x : cell) :
  x = mk_cell (c_m x) (c_x x) (c_y x) (p_m x) (p_x x) (p_y x).
Proof. now destruct x. Qed.

Lemma shaped_score n1 n2 st c :
  shaped n1 n2 st ->
  nrows (score_mat st c) = S n1 /\ ncols (score_mat st c) = S n2.
Proof. intros [H _]. apply H. Qed.

Lemma shaped_back n1 n2 st c :
  shaped n1 n2 st ->
  nrows (back_mat st c) = S n1 /\ ncols (back_mat st c) = S n2.
Proof. intros [_ H]. apply H. Qed.

(** Reading a score or a backpointer of a state that holds [f]. *)
Lemma holds_get_score n1 n2 st f c (r k : nat) :
  holds n1 n2 st f -> (r <= n1)%nat -> (k <= n2)%nat ->
  Np.get (score_mat st c) (Z.of_nat r) (Z.of_nat k)
  = Ok (cell_score c (f r k)).
Proof.
  intros [Hs Hf] Hr Hk.
  destruct (shaped_score c Hs) as [R C].
  rewrite Np_get_nat by lia.
  rewrite <- (Hf r k Hr Hk). now destruct c.
Qed.

Lemma holds_get_back n1 n2 st f c (r k : nat) :
  holds n1 n2 st f -> (r <= n1)%nat -> (k <= n2)%nat ->
  Np.get (back_mat st c) (Z.of_nat r) (Z.of_nat k)
  = Ok (cell_back c (f r k)).
Proof.
  intros [Hs Hf] Hr Hk.
  destruct (shaped_back c Hs) as [R C].
  rewrite Np_get_nat by lia.
  rewrite <- (Hf r k Hr Hk). now destruct c.
Qed.

Ltac nat_cases :=
  repeat match goal with
         | |- context [(?a =? ?b)%nat] => destruct (Nat.eqb_spec a b)
         | |- context [(?a <? ?b)%nat] => destruct (Nat.ltb_spec a b)
         end;
  simpl; try reflexivity; try lia.

(* ------------------------------------------------------------------ *)
(** ** [glob_affine_gap]: initialisation *)
(* ------------------------------------------------------------------ *)

Section Initialisation.

Variable A : Type.
Variables seq1 seq2 : list A.
Variables gap_open gap_ext : Q.
Variable match_fun : A -> A -> Q.

Local Notation "'n1'" := (length seq1).
Local Notation "'n2'" := (length seq2).

Lemma alloc_matrices_holds :
  exists st, alloc_matrices seq1 seq2 = Ok st /\
             holds n1 n2 st (seeded gap_open gap_ext 0 0).
Proof.
  unfold alloc_matrices.
  replace (Z.to_nat (Z.of_nat (length seq1) + 1)) with (S n1) by lia.
  replace (Z.to_nat (Z.of_nat (length seq2) + 1)) with (S n2) by lia.
  change 0 with (Z.of_nat 0).
  rewrite Np_set_nat by (simpl; lia).
  simpl. eexists. split; [reflexivity |]. split.
  - split; intros []; simpl; auto.
  - intros r c Hr Hc. unfold cell_at, seeded. simpl.
    rewrite !andb_false_r. reflexivity.
Qed.

Lemma seed_x_holds (k : nat) (st : matrices) :
  (k <= n1)%nat ->
  holds n1 n2 st (seeded gap_open gap_ext k 0) ->
  exists st', seed_x gap_open gap_ext (0 + Z.of_nat k) st = Ok st' /\
              holds n1 n2 st' (seeded gap_open gap_ext (S k) 0).
Proof.
  intros Hk [Hs Hf]. unfold seed_x. rewrite Z.add_0_l.
  destruct (shaped_score S_X Hs) as [R1 C1].
  destruct (shaped_back S_X Hs) as [R2 C2]. simpl in *.
  change 0 with (Z.of_nat 0).
  rewrite !Np_set_nat by lia. simpl.
  eexists. split; [reflexivity |]. split.
  - destruct Hs as [H1 H2].
    split; intros []; simpl; try apply (H1 S_M); try apply (H1 S_Y);
      try apply (H2 S_M); try apply (H2 S_Y); auto.
  - intros r c Hr Hc. specialize (Hf r c Hr Hc).
    unfold cell_at, seeded in *. simpl.
    injection Hf as -> E2 -> -> E5 ->. rewrite E2, E5.
    unfold seed. f_equal; nat_cases.
    all: try (subst; reflexivity).
Qed.

Lemma seed_y_holds (k : nat) (st : matrices) :
  (k <= n2)%nat ->
  holds n1 n2 st (seeded gap_open gap_ext (S n1) k) ->
  exists st', seed_y gap_open gap_ext (0 + Z.of_nat k) st = Ok st' /\
              holds n1 n2 st' (seeded gap_open gap_ext (S n1) (S k)).
Proof.
  intros Hk [Hs Hf]. unfold seed_y. rewrite Z.add_0_l.
  destruct (shaped_score S_Y Hs) as [R1 C1].
  destruct (shaped_back S_Y Hs) as [R2 C2]. simpl in *.
  change 0 with (Z.of_nat 0).
  rewrite !Np_set_nat by lia. simpl.
  eexists. split; [reflexivity |]. split.
  - destruct Hs as [H1 H2].
    split; intros []; simpl; try apply (H1 S_M); try apply (H1 S_X);
      try apply (H2 S_M); try apply (H2 S_X); auto.
  - intros r c Hr Hc. specialize (Hf r c Hr Hc).
    unfold cell_at, seeded in *. simpl.
    injection Hf as -> -> E3 -> -> E6. rewrite E3, E6.
    unfold seed. f_equal; nat_cases.
    all: try (subst; reflexivity).
Qed.

Lemma holds_ext (st : matrices) (f g : nat -> nat -> cell) :
  holds n1 n2 st f ->
  (forall r c, (r <= n1)%nat -> (c <= n2)%nat -> f r c = g r c) ->
  holds n1 n2 st g.
Proof.
  intros [Hs Hf] E. split; [exact Hs |].
  intros r c Hr Hc. rewrite <- E by assumption. now apply Hf.
Qed.

Local Notation "'partial_'" := (partial seq1 seq2 gap_open gap_ext match_fun).
Local Notation "'table_'" := (table seq1 seq2 gap_open gap_ext match_fun).

Lemma init_matrices_holds :
  exists st, init_matrices seq1 seq2 gap_open gap_ext = Ok st /\
             holds n1 n2 st (partial_ 1 1).
Proof.
  unfold init_matrices.
  destruct alloc_matrices_holds as (st0 & E0 & H0). rewrite E0. cbn [bind].
  replace (Z.of_nat (length seq1) + 1) with (0 + Z.of_nat (S n1))
    by lia.
  replace (Z.of_nat (length seq2) + 1) with (0 + Z.of_nat (S n2))
    by lia.
  destruct (@for_each_xrange matrices
              (fun k st => holds n1 n2 st (seeded gap_open gap_ext k 0))
              (seed_x gap_open gap_ext) 0 (S n1) st0 H0)
    as (st1 & E1 & H1).
  { intros k s0 Hk Hs0. apply seed_x_holds; [lia | exact Hs0]. }
  rewrite E1. cbn [bind].
  destruct (@for_each_xrange matrices
              (fun k st => holds n1 n2 st (seeded gap_open gap_ext (S n1) k))
              (seed_y gap_open gap_ext) 0 (S n2) st1 H1)
    as (st2 & E2 & H2).
  { intros k s0 Hk Hs0. apply seed_y_holds; [lia | exact Hs0]. }
  exists st2. split; [exact E2 |].
  eapply holds_ext; [exact H2 |]. intros r c Hr Hc.
  unfold seeded, partial, border, blank.
  destruct r, c; simpl; f_equal; nat_cases.
Qed.

End Initialisation.

(* ------------------------------------------------------------------ *)
(** ** [glob_affine_gap]: the nested loops compute the recurrences *)
(* ------------------------------------------------------------------ *)

Lemma eqb_refl (x : float64) : F64.eqb x x = true.
Proof. destruct x; simpl; [reflexivity | apply Qeq_bool_refl]. Qed.

Lemma max3_cases (a b c : float64) :
  max3 a b c = a \/ max3 a b c = b \/ max3 a b c = c.
Proof.
  unfold max3. simpl.
  destruct (F64.gtb b a); destruct (F64.gtb c _); auto.
Qed.

Lemma fmax_three (a b c : float64) : fmax [a; b; c] = Ok (max3 a b c).
Proof. reflexivity. Qed.

Lemma findex_three (a b c : float64) :
  findex [a; b; c] (max3 a b c) = Ok (arg3 a b c).
Proof.
  unfold findex, index, arg3, pos3. simpl.
  destruct (F64.eqb a (max3 a b c)) eqn:Ea; [reflexivity |].
  destruct (F64.eqb b (max3 a b c)) eqn:Eb; [reflexivity |].
  destruct (max3_cases a b c) as [E | [E | E]].
  - rewrite E, eqb_refl in Ea. discriminate.
  - rewrite E, eqb_refl in Eb. discriminate.
  - now rewrite E, eqb_refl.
Qed.

Lemma update_same (A : Type) (a : ndarray A) (r c : nat) (v : A) :
  data (Np.update a r c v) r c = v.
Proof. simpl. now rewrite !Nat.eqb_refl. Qed.

Section Filling.

Variable A : Type.
Variables seq1 seq2 : list A.
Variables gap_open gap_ext : Q.
Variable match_fun : A -> A -> Q.

Local Notation "'n1'" := (length seq1).
Local Notation "'n2'" := (length seq2).

Local Notation "'partial_'" := (partial seq1 seq2 gap_open gap_ext match_fun).
Local Notation "'table_'" := (table seq1 seq2 gap_open gap_ext match_fun).
Local Notation "'delta_'" := (delta seq1 seq2 match_fun).

Lemma table_inner (i j : nat) :
  table_ (S i) (S j)
  = inner gap_open gap_ext (delta_ (S i) (S j))
          (table_ i j) (table_ i (S j)) (table_ (S i) j).
Proof. reflexivity. Qed.

Lemma table_border (i j : nat) :
  i = 0%nat \/ j = 0%nat -> table_ i j = border gap_open gap_ext i j.
Proof. intros [H | H]; subst; [| destruct i]; reflexivity. Qed.

Lemma partial_done (i j r c : nat) :
  (r < i)%nat \/ (r = i /\ c < j)%nat \/ r = 0%nat \/ c = 0%nat ->
  partial_ i j r c = table_ r c.
Proof.
  intros H. unfold partial.
  destruct (Nat.eqb_spec r 0); simpl.
  - symmetry. apply table_border. auto.
  - destruct (Nat.eqb_spec c 0); simpl.
    + symmetry. apply table_border. auto.
    + destruct (Nat.ltb_spec r i); simpl; [reflexivity |].
      destruct (Nat.eqb_spec r i); simpl; [| lia].
      destruct (Nat.ltb_spec c j); simpl; [reflexivity | lia].
Qed.

Lemma delta_S (i j : nat) (a b : A) :
  nth_error seq1 i = Some a -> nth_error seq2 j = Some b ->
  delta_ (S i) (S j) = match_fun a b.
Proof.
  intros Ha Hb. unfold delta. simpl. rewrite !Nat.sub_0_r, Ha, Hb. reflexivity.
Qed.

Lemma fill_cell_holds (ki kj : nat) (st : matrices) :
  (ki < n1)%nat -> (kj < n2)%nat ->
  holds n1 n2 st (partial_ (S ki) (S kj)) ->
  exists st',
    fill_cell seq1 seq2 gap_open gap_ext match_fun
              (1 + Z.of_nat ki) (1 + Z.of_nat kj) st = Ok st' /\
    holds n1 n2 st' (partial_ (S ki) (S (S kj))).
Proof.
  intros Hi Hj H.
  destruct (nth_error seq1 ki) as [a|] eqn:Ea;
    [| apply nth_error_None in Ea; lia].
  destruct (nth_error seq2 kj) as [b|] eqn:Eb;
    [| apply nth_error_None in Eb; lia].
  unfold fill_cell.
  replace (1 + Z.of_nat ki - 1) with (Z.of_nat ki) by lia.
  replace (1 + Z.of_nat kj - 1) with (Z.of_nat kj) by lia.
  replace (1 + Z.of_nat ki) with (Z.of_nat (S ki)) by lia.
  replace (1 + Z.of_nat kj) with (Z.of_nat (S kj)) by lia.
  rewrite (getitem_nat _ _ Ea), (getitem_nat _ _ Eb). cbn [bind].
  assert (G : forall c r k, (r <= n1)%nat -> (k <= n2)%nat ->
              (r < S ki)%nat \/ (r = S ki /\ k < S kj)%nat
              \/ r = 0%nat \/ k = 0%nat ->
              Np.get (score_mat st c) (Z.of_nat r) (Z.of_nat k)
              = Ok (cell_score c (table_ r k))).
  { intros c r k Hr Hk Hd.
    rewrite (holds_get_score c H Hr Hk). now rewrite partial_done. }
  pose proof (G S_M ki kj) as G1. pose proof (G S_X ki kj) as G2.
  pose proof (G S_Y ki kj) as G3. pose proof (G S_M ki (S kj)) as G4.
  pose proof (G S_X ki (S kj)) as G5. pose proof (G S_Y ki (S kj)) as G6.
  pose proof (G S_M (S ki) kj) as G7. pose proof (G S_X (S ki) kj) as G8.
  pose proof (G S_Y (S ki) kj) as G9.
  cbn [score_mat cell_score] in G1, G2, G3, G4, G5, G6, G7, G8, G9.
  rewrite G1, G2, G3, G4, G5, G6, G7, G8, G9 by lia. cbn [bind].
  clear G G1 G2 G3 G4 G5 G6 G7 G8 G9.
  destruct H as [Hs Hf].
  destruct (shaped_score S_M Hs) as [R1 C1].
  destruct (shaped_score S_X Hs) as [R2 C2].
  destruct (shaped_score S_Y Hs) as [R3 C3].
  destruct (shaped_back S_M Hs) as [R4 C4].
  destruct (shaped_back S_X Hs) as [R5 C5].
  destruct (shaped_back S_Y Hs) as [R6 C6].
  cbn [score_mat back_mat] in *.
  rewrite !fmax_three. cbn [bind].
  rewrite !Np_set_nat by lia. cbn [bind].
  repeat (first [ rewrite Np_get_nat by (simpl; lia)
                 | rewrite update_same
                 | rewrite findex_three
                 | rewrite Np_set_nat by lia ]; cbn [bind]).
  eexists. split; [reflexivity |]. split.
  - split; intros []; simpl; auto.
  - intros r c Hr Hc. specialize (Hf r c Hr Hc).
    unfold cell_at in *. cbn [s_m s_x s_y b_m b_x b_y Np.update data].
    destruct ((r =? S ki)%nat && (c =? S kj)%nat) eqn:E.
    + apply andb_true_iff in E. destruct E as [E1 E2].
      apply Nat.eqb_eq in E1, E2. subst r c.
      rewrite partial_done by lia.
      rewrite table_inner, (delta_S _ _ Ea Eb). reflexivity.
    + rewrite Hf. unfold partial.
      apply andb_false_iff in E.
      destruct r, c; simpl; try reflexivity.
      repeat match goal with
             | |- context [(?x <? ?y)%nat] => destruct (Nat.ltb_spec x y)
             | |- context [(?x =? ?y)%nat] => destruct (Nat.eqb_spec x y)
             end; simpl; try reflexivity; try lia.
      all: destruct E as [E | E]; apply Nat.eqb_neq in E; lia.
Qed.

Lemma fill_row_holds (ki : nat) (st : matrices) :
  (ki < n1)%nat ->
  holds n1 n2 st (partial_ (S ki) 1) ->
  exists st',
    fill_row seq1 seq2 gap_open gap_ext match_fun (1 + Z.of_nat ki) st
    = Ok st' /\
    holds n1 n2 st' (partial_ (S (S ki)) 1).
Proof.
  intros Hi H. unfold fill_row.
  replace (Z.of_nat (length seq2) + 1) with (1 + Z.of_nat n2)
    by lia.
  destruct (@for_each_xrange matrices
              (fun k st => holds n1 n2 st (partial_ (S ki) (S k)))
              (fill_cell seq1 seq2 gap_open gap_ext match_fun
                         (1 + Z.of_nat ki))
              1 n2 st H) as (st' & E & H').
  { intros k s0 Hk Hs0. now apply fill_cell_holds. }
  exists st'. split; [exact E |].
  eapply holds_ext; [exact H' |]. intros r c Hr Hc.
  unfold partial.
  destruct r, c; simpl; try reflexivity.
  repeat match goal with
         | |- context [(?x <? ?y)%nat] => destruct (Nat.ltb_spec x y)
         | |- context [(?x =? ?y)%nat] => destruct (Nat.eqb_spec x y)
         end; simpl; try reflexivity; try lia.
Qed.

Lemma fill_matrices_holds (st : matrices) :
  holds n1 n2 st (partial_ 1 1) ->
  exists st',
    fill_matrices seq1 seq2 gap_open gap_ext match_fun st = Ok st' /\
    holds n1 n2 st' table_.
Proof.
  intros H. unfold fill_matrices.
  replace (Z.of_nat (length seq1) + 1) with (1 + Z.of_nat n1)
    by lia.
  destruct (@for_each_xrange matrices
              (fun k st => holds n1 n2 st (partial_ (S k) 1))
              (fill_row seq1 seq2 gap_open gap_ext match_fun)
              1 n1 st H) as (st' & E & H').
  { intros k s0 Hk Hs0. now apply fill_row_holds. }
  exists st'. split; [exact E |].
  eapply holds_ext; [exact H' |]. intros r c Hr Hc.
  apply partial_done. lia.
Qed.

(** The loops of lines 129-164 succeed and leave the recurrences' values
    in the six arrays. *)
Lemma fill_matrices_table :
  exists st0 st,
    init_matrices seq1 seq2 gap_open gap_ext = Ok st0 /\
    fill_matrices seq1 seq2 gap_open gap_ext match_fun st0 = Ok st /\
    holds n1 n2 st table_.
Proof.
  destruct (init_matrices_holds seq1 seq2 gap_open gap_ext match_fun)
    as (st0 & E0 & H0).
  destruct (fill_matrices_holds H0) as (st & E & H).
  now exists st0, st.
Qed.

(* ------------------------------------------------------------------ *)
(** ** Finite entries and backpointers *)
(* ------------------------------------------------------------------ *)

Lemma add_finite (x : float64) (d : Q) :
  F64.finite x -> F64.finite (F64.add x d).
Proof. now destruct x. Qed.

Lemma add_finite_inv (x : float64) (d : Q) :
  F64.finite (F64.add x d) -> F64.finite x.
Proof. now destruct x. Qed.

Lemma eqb_finite (x v : float64) :
  F64.eqb x v = true -> F64.finite v -> F64.finite x.
Proof. destruct x, v; simpl; auto; discriminate. Qed.

Lemma max3_finite (a b c : float64) :
  F64.finite a \/ F64.finite b \/ F64.finite c -> F64.finite (max3 a b c).
Proof.
  unfold max3. destruct a as [|a], b as [|b], c as [|c]; simpl; try tauto;
    repeat match goal with
           | |- context [Qle_bool ?x ?y] => destruct (Qle_bool x y); simpl
           end; auto.
Qed.

Lemma arg3_eqb (a b c : float64) :
  exists x, nth_error [a; b; c] (arg3 a b c) = Some x /\
            F64.eqb x (max3 a b c) = true.
Proof.
  unfold arg3, pos3.
  destruct (F64.eqb a (max3 a b c)) eqn:Ea; [now exists a |].
  destruct (F64.eqb b (max3 a b c)) eqn:Eb; [now exists b |].
  exists c. split; [reflexivity |].
  destruct (max3_cases a b c) as [E | [E | E]].
  - rewrite E, eqb_refl in Ea. discriminate.
  - rewrite E, eqb_refl in Eb. discriminate.
  - now rewrite E, eqb_refl.
Qed.

(** The backpointer chosen among the three candidates built from one
    neighbour [x] designates a finite entry of [x]. *)
Lemma pointer_finite (x : cell) (d1 d2 d3 : Q) :
  F64.finite (c_m x) \/ F64.finite (c_x x) \/ F64.finite (c_y x) ->
  let k := arg3 (F64.add (c_m x) d1) (F64.add (c_x x) d2)
                (F64.add (c_y x) d3) in
  (k < 3)%nat /\ F64.finite (cell_score (nth k all_mat S_M) x).
Proof.
  intros H k.
  destruct (arg3_eqb (F64.add (c_m x) d1) (F64.add (c_x x) d2)
                     (F64.add (c_y x) d3)) as (y & Hy & Ey).
  fold k in Hy.
  assert (Fy : F64.finite y).
  { apply (eqb_finite _ _ Ey). apply max3_finite.
    destruct H as [H | [H | H]]; auto using add_finite. }
  destruct k as [|[|[|k]]]; simpl in *.
  - injection Hy as <-. split; [lia | eauto using add_finite_inv].
  - injection Hy as <-. split; [lia | eauto using add_finite_inv].
  - injection Hy as <-. split; [lia | eauto using add_finite_inv].
  - destruct k; discriminate.
Qed.

Lemma table_xy_finite (i j : nat) :
  ((1 <= i)%nat \/ j = 0%nat -> F64.finite (c_x (table_ i j))) /\
  ((1 <= j)%nat \/ i = 0%nat -> F64.finite (c_y (table_ i j))).
Proof.
  revert j. induction i as [|i IHi]; intros j.
  - split; intros H.
    + assert (j = 0%nat) by lia. subst. exact I.
    + simpl. exact I.
  - induction j as [|j IHj].
    + split; intros H; [exact I | lia].
    + rewrite table_inner. split; intros _; cbn [inner c_x c_y];
        apply max3_finite.
      * right; right. apply add_finite. apply (IHi (S j)). lia.
      * right; left. apply add_finite. apply IHj. lia.
Qed.

Lemma some_finite (i j : nat) :
  F64.finite (c_m (table_ i j)) \/ F64.finite (c_x (table_ i j))
  \/ F64.finite (c_y (table_ i j)).
Proof.
  destruct i.
  - right; right. apply table_xy_finite. lia.
  - right; left. apply table_xy_finite. lia.
Qed.

Lemma table_m_finite (i j : nat) :
  F64.finite (c_m (table_ (S i) (S j))).
Proof.
  rewrite table_inner. cbn [inner c_m]. apply max3_finite.
  destruct (some_finite i j) as [H | [H | H]]; auto using add_finite.
Qed.

Lemma best_state_finite (x : cell) :
  F64.finite (c_m x) \/ F64.finite (c_x x) \/ F64.finite (c_y x) ->
  F64.finite (cell_score (best_state x) x).
Proof.
  unfold best_state.
  destruct x as [[|a] [|b] [|c] k1 k2 k3]; simpl; try tauto; intros _;
    repeat match goal with
           | |- context [Qle_bool ?x ?y] => destruct (Qle_bool x y); simpl
           end; exact I.
Qed.

Lemma best_state_live (i j : nat) :
  live seq1 seq2 gap_open gap_ext match_fun (best_state (table_ i j)) i j.
Proof. apply best_state_finite, some_finite. Qed.

(** One traceback step from a finite entry stays inside the arrays and
    reaches a finite entry. *)
Lemma live_next (c : mat_id) (i j : nat) :
  live seq1 seq2 gap_open gap_ext match_fun c i j ->
  i <> 0%nat \/ j <> 0%nat ->
  (cell_back c (table_ i j) < 3)%nat /\
  let c' := next_state c (table_ i j) in
  match c with
  | S_M => (1 <= i)%nat /\ (1 <= j)%nat /\
           live seq1 seq2 gap_open gap_ext match_fun c' (i - 1) (j - 1)
  | S_X => (1 <= i)%nat /\
           live seq1 seq2 gap_open gap_ext match_fun c' (i - 1) j
  | S_Y => (1 <= j)%nat /\
           live seq1 seq2 gap_open gap_ext match_fun c' i (j - 1)
  end.
Proof.
  unfold live, next_state. intros L Hne.
  destruct i as [|i], j as [|j]; try lia.
  - (* row 0 *)
    destruct c; simpl in L; try contradiction.
    simpl. split; [lia |]. split; [lia |].
    rewrite ?Nat.sub_0_r. first [exact I | apply table_xy_finite; lia].
  - (* column 0 *)
    destruct c; simpl in L; try contradiction.
    simpl. split; [lia |]. split; [lia |].
    rewrite ?Nat.sub_0_r. first [exact I | apply table_xy_finite; lia].
  - rewrite table_inner.
    destruct c; cbn [cell_back inner p_m p_x p_y];
      cbn [Nat.sub]; rewrite ?Nat.sub_0_r.
    + destruct (pointer_finite (table_ i j) (delta_ (S i) (S j))
                  (delta_ (S i) (S j)) (delta_ (S i) (S j))
                  (some_finite i j)) as [K F].
      split; [exact K |]. split; [lia |]. split; [lia | exact F].
    + destruct (pointer_finite (table_ i (S j)) gap_open gap_ext gap_open
                  (some_finite i (S j))) as [K F].
      split; [exact K |]. split; [lia | exact F].
    + destruct (pointer_finite (table_ (S i) j) gap_open gap_open gap_ext
                  (some_finite (S i) j)) as [K F].
      split; [exact K |]. split; [lia | exact F].
Qed.

(* ------------------------------------------------------------------ *)
(** ** The traceback loop follows [path] *)
(* ------------------------------------------------------------------ *)

Lemma getitem_all_mat (k : nat) :
  (k < 3)%nat -> getitem all_mat (Z.of_nat k) = Ok (nth k all_mat S_M).
Proof.
  intros H. destruct k as [|[|[|k]]]; try reflexivity; lia.
Qed.

Lemma getitem_pred (X : Type) (l : list X) (i : nat) :
  (i < length l)%nat ->
  exists a, nth_error l i = Some a /\
            getitem l (Z.of_nat (S i) - 1) = Ok a.
Proof.
  intros H. destruct (nth_error l i) as [a|] eqn:E.
  - exists a. split; [reflexivity |].
    replace (Z.of_nat (S i) - 1) with (Z.of_nat i) by lia.
    now apply getitem_nat.
  - apply nth_error_None in E. lia.
Qed.

Lemma trace_loop_path (st : matrices) :
  holds n1 n2 st table_ ->
  forall (budget : nat) (c : mat_id) (i j : nat) (r1 r2 : list (option A)),
    (i <= n1)%nat -> (j <= n2)%nat -> (i + j <= budget)%nat ->
    live seq1 seq2 gap_open gap_ext match_fun c i j ->
    exists c',
      trace_loop seq1 seq2 budget st
                 (mk_trace c (Z.of_nat i) (Z.of_nat j) r1 r2)
      = Ok (mk_trace c' 0 0
              (r1 ++ map (emit1 seq1)
                         (path seq1 seq2 gap_open gap_ext match_fun
                               budget c i j))
              (r2 ++ map (emit2 seq2)
                         (path seq1 seq2 gap_open gap_ext match_fun
                               budget c i j))).
Proof.
  intros H. induction budget as [|budget IH]; intros c i j r1 r2 Hi Hj Hb L.
  - assert (i = 0%nat) by lia. assert (j = 0%nat) by lia. subst.
    exists c. simpl. now rewrite !app_nil_r.
  - cbn [trace_loop path pos_i pos_j].
    destruct ((i =? 0)%nat && (j =? 0)%nat) eqn:E0.
    + apply andb_true_iff in E0. destruct E0 as [Ei Ej].
      apply Nat.eqb_eq in Ei, Ej. subst.
      exists c. simpl. now rewrite !app_nil_r.
    + assert (Hne : i <> 0%nat \/ j <> 0%nat).
      { apply andb_false_iff in E0.
        destruct E0 as [E | E]; apply Nat.eqb_neq in E; auto. }
      replace ((0 <? Z.of_nat i) || (0 <? Z.of_nat j)) with true
        by (symmetry; apply orb_true_iff;
            destruct Hne; [left | right]; apply Z.ltb_lt; lia).
      destruct (@live_next c i j L Hne) as [K N].
      pose proof (holds_get_back c H Hi Hj) as B.
      unfold trace_step. cbn [cur_mat pos_i pos_j res1 res2].
      destruct c; cbn [cell_back back_mat] in *.
      * destruct N as (Hi1 & Hj1 & L').
        destruct i as [|i]; [lia |]. destruct j as [|j]; [lia |].
        destruct (@getitem_pred A seq1 i) as (a & Ea & Ga);
          [lia |].
        destruct (@getitem_pred A seq2 j) as (b & Eb & Gb);
          [lia |].
        rewrite Ga, Gb, B. cbn [bind].
        rewrite getitem_all_mat by exact K. cbn [bind].
        replace (Z.of_nat (S i) - 1) with (Z.of_nat i) by lia.
        replace (Z.of_nat (S j) - 1) with (Z.of_nat j) by lia.
        cbn [Nat.sub] in *. rewrite !Nat.sub_0_r in *.
        destruct (IH (next_state S_M (table_ (S i) (S j))) i j
                     (r1 ++ [Some a]) (r2 ++ [Some b])) as (c' & E);
          try lia; auto.
        exists c'. unfold next_state in E. cbn [cell_back] in E.
        rewrite E. cbn [map emit1 emit2 Nat.sub].
        rewrite !Nat.sub_0_r, Ea, Eb, <- !app_assoc. reflexivity.
      * destruct N as (Hi1 & L').
        destruct i as [|i]; [lia |].
        destruct (@getitem_pred A seq1 i) as (a & Ea & Ga);
          [lia |].
        rewrite Ga, B. cbn [bind].
        rewrite getitem_all_mat by exact K. cbn [bind].
        replace (Z.of_nat (S i) - 1) with (Z.of_nat i) by lia.
        cbn [Nat.sub] in *. rewrite !Nat.sub_0_r in *.
        destruct (IH (next_state S_X (table_ (S i) j)) i j
                     (r1 ++ [Some a]) (r2 ++ [None])) as (c' & E);
          try lia; auto.
        exists c'. unfold next_state in E. cbn [cell_back] in E.
        rewrite E. cbn [map emit1 emit2 Nat.sub].
        rewrite !Nat.sub_0_r, Ea, <- !app_assoc. reflexivity.
      * destruct N as (Hj1 & L').
        destruct j as [|j]; [lia |].
        destruct (@getitem_pred A seq2 j) as (b & Eb & Gb);
          [lia |].
        rewrite Gb, B. cbn [bind].
        rewrite getitem_all_mat by exact K. cbn [bind].
        replace (Z.of_nat (S j) - 1) with (Z.of_nat j) by lia.
        cbn [Nat.sub] in *. rewrite !Nat.sub_0_r in *.
        destruct (IH (next_state S_Y (table_ i (S j))) i j
                     (r1 ++ [None]) (r2 ++ [Some b])) as (c' & E);
          try lia; auto.
        exists c'. unfold next_state in E. cbn [cell_back] in E.
        rewrite E. cbn [map emit1 emit2 Nat.sub].
        rewrite !Nat.sub_0_r, Eb, <- !app_assoc. reflexivity.
Qed.

(** What [glob_affine_gap] returns, in closed form: the best of the three
    final entries, and the reversed emissions of the traceback path. *)
Theorem glob_affine_gap_path :
  let x := table_ n1 n2 in
  let p := path seq1 seq2 gap_open gap_ext match_fun (n1 + n2)
                (best_state x) n1 n2 in
  glob_affine_gap seq1 seq2 gap_open gap_ext match_fun
  = Ok (cell_score (best_state x) x,
        rev (map (emit1 seq1) p), rev (map (emit2 seq2) p)).
Proof.
  intros x p. unfold glob_affine_gap.
  destruct fill_matrices_table as (st0 & st & E0 & E & H).
  rewrite E0. cbn [bind]. rewrite E. cbn [bind].
  unfold backtrack.
  pose proof (holds_get_score S_M H (le_n n1) (le_n n2)) as G1.
  pose proof (holds_get_score S_X H (le_n n1) (le_n n2)) as G2.
  pose proof (holds_get_score S_Y H (le_n n1) (le_n n2)) as G3.
  cbn [score_mat cell_score] in G1, G2, G3.
  rewrite G1, G2, G3. cbn [bind].
  change (max_by F64.gtb
            (fun c => match c with
                      | S_M => c_m (table_ n1 n2)
                      | S_X => c_x (table_ n1 n2)
                      | S_Y => c_y (table_ n1 n2)
                      end) all_mat)
    with (Ok (best_state x)).
  cbn [bind].
  rewrite (holds_get_score (best_state x) H (le_n n1) (le_n n2)). cbn [bind].
  destruct (@trace_loop_path st H (n1 + n2)%nat (best_state x) n1 n2 [] []
              (le_n _) (le_n _) (le_n _) (best_state_live n1 n2))
    as (c' & T).
  rewrite T. reflexivity.
Qed.

(* ------------------------------------------------------------------ *)
(** ** The output rows form a global alignment *)
(* ------------------------------------------------------------------ *)

Lemma firstn_snoc (X : Type) (l : list X) (i : nat) (a : X) :
  nth_error l i = Some a -> firstn (S i) l = firstn i l ++ [a].
Proof.
  revert i. induction l as [|h t IH]; intros [|i] H; simpl in *;
    try discriminate.
  - now injection H as ->.
  - f_equal. now apply IH.
Qed.

Lemma path_rows (budget : nat) :
  forall (c : mat_id) (i j : nat),
    (i <= n1)%nat -> (j <= n2)%nat -> (i + j <= budget)%nat ->
    live seq1 seq2 gap_open gap_ext match_fun c i j ->
    let p := path seq1 seq2 gap_open gap_ext match_fun budget c i j in
    no_double_gap (map (emit1 seq1) p) (map (emit2 seq2) p) /\
    strip (map (emit1 seq1) p) = rev (firstn i seq1) /\
    strip (map (emit2 seq2) p) = rev (firstn j seq2).
Proof.
  induction budget as [|budget IH]; intros c i j Hi Hj Hb L.
  - assert (i = 0%nat) by lia. assert (j = 0%nat) by lia. subst.
    simpl. auto.
  - cbn [path]. destruct ((i =? 0)%nat && (j =? 0)%nat) eqn:E0.
    + apply andb_true_iff in E0. destruct E0 as [Ei Ej].
      apply Nat.eqb_eq in Ei, Ej. subst. simpl. auto.
    + assert (Hne : i <> 0%nat \/ j <> 0%nat).
      { apply andb_false_iff in E0.
        destruct E0 as [E | E]; apply Nat.eqb_neq in E; auto. }
      destruct (@live_next c i j L Hne) as [K N].
      destruct c.
      * destruct N as (Hi1 & Hj1 & L').
        destruct i as [|i]; [lia |]. destruct j as [|j]; [lia |].
        destruct (@getitem_pred A seq1 i) as (a & Ea & _);
          [lia |].
        destruct (@getitem_pred A seq2 j) as (b & Eb & _);
          [lia |].
        cbn [Nat.sub] in *. rewrite !Nat.sub_0_r in *.
        destruct (IH _ i j ltac:(lia) ltac:(lia) ltac:(lia) L')
          as (D & S1 & S2).
        cbn [map emit1 emit2 Nat.sub]. rewrite !Nat.sub_0_r, Ea, Eb.
        cbn [no_double_gap strip].
        rewrite S1, S2, (firstn_snoc _ _ Ea), (firstn_snoc _ _ Eb),
          !rev_app_distr.
        repeat split; auto. left; discriminate.
      * destruct N as (Hi1 & L').
        destruct i as [|i]; [lia |].
        destruct (@getitem_pred A seq1 i) as (a & Ea & _);
          [lia |].
        cbn [Nat.sub] in *. rewrite !Nat.sub_0_r in *.
        destruct (IH _ i j ltac:(lia) ltac:(lia) ltac:(lia) L')
          as (D & S1 & S2).
        cbn [map emit1 emit2 Nat.sub]. rewrite !Nat.sub_0_r, Ea.
        cbn [no_double_gap strip].
        rewrite S1, S2, (firstn_snoc _ _ Ea), !rev_app_distr.
        repeat split; auto. left; discriminate.
      * destruct N as (Hj1 & L').
        destruct j as [|j]; [lia |].
        destruct (@getitem_pred A seq2 j) as (b & Eb & _);
          [lia |].
        cbn [Nat.sub] in *. rewrite !Nat.sub_0_r in *.
        destruct (IH _ i j ltac:(lia) ltac:(lia) ltac:(lia) L')
          as (D & S1 & S2).
        cbn [map emit1 emit2 Nat.sub]. rewrite !Nat.sub_0_r, Eb.
        cbn [no_double_gap strip].
        rewrite S1, S2, (firstn_snoc _ _ Eb), !rev_app_distr.
        repeat split; auto. right; discriminate.
Qed.

Lemma strip_app (X : Type) (l l' : list (option X)) :
  strip (l ++ l') = strip l ++ strip l'.
Proof.
  induction l as [|[x|] l IH]; simpl; auto. now rewrite IH.
Qed.

Lemma strip_rev (X : Type) (l : list (option X)) :
  strip (rev l) = rev (strip l).
Proof.
  induction l as [|[x|] l IH]; simpl; auto;
    rewrite strip_app, IH; simpl; auto using app_nil_r.
Qed.

Lemma no_double_gap_length (X : Type) (l l' : list (option X)) :
  no_double_gap l l' -> length l = length l'.
Proof.
  revert l'. induction l as [|x l IH]; intros [|y l'] H; simpl in *;
    try tauto. f_equal. apply IH. tauto.
Qed.

Lemma no_double_gap_app (X : Type) (l1 l1' l2 l2' : list (option X)) :
  no_double_gap l1 l1' -> no_double_gap l2 l2' ->
  no_double_gap (l1 ++ l2) (l1' ++ l2').
Proof.
  revert l1'. induction l1 as [|x l1 IH]; intros [|y l1'] H1 H2; simpl in *;
    try tauto. split; [tauto |]. apply IH; tauto.
Qed.

Lemma no_double_gap_rev (X : Type) (l l' : list (option X)) :
  no_double_gap l l' -> no_double_gap (rev l) (rev l').
Proof.
  revert l'. induction l as [|x l IH]; intros [|y l'] H; simpl in *;
    try tauto.
  apply no_double_gap_app; [apply IH; tauto | simpl; tauto].
Qed.

Lemma no_double_gap_nth (X : Type) (l l' : list (option X)) (k : nat) :
  no_double_gap l l' ->
  ~ (nth_error l k = Some None /\ nth_error l' k = Some None).
Proof.
  revert l l'. induction k as [|k IH]; intros [|x l] [|y l'] H [E1 E2];
    simpl in *; try discriminate; try tauto.
  - destruct H as [[H | H] _]; congruence.
  - apply (IH l l'); tauto.
Qed.

(** [glob_affine_gap] always returns, and its two rows are a global
    alignment of its two inputs. *)
Lemma glob_affine_gap_alignment :
  exists score row1 row2,
    glob_affine_gap seq1 seq2 gap_open gap_ext match_fun
    = Ok (score, row1, row2) /\
    global_alignment seq1 seq2 row1 row2.
Proof.
  rewrite glob_affine_gap_path.
  set (p := path _ _ _ _ _ _ _ _ _).
  exists (cell_score (best_state (table_ n1 n2)) (table_ n1 n2)),
    (rev (map (emit1 seq1) p)), (rev (map (emit2 seq2) p)).
  split; [reflexivity |].
  destruct (@path_rows (n1 + n2) (best_state (table_ n1 n2)) n1 n2
              (le_n _) (le_n _) (le_n _) (best_state_live n1 n2))
    as (D & S1 & S2).
  fold p in D, S1, S2.
  assert (D' := no_double_gap_rev _ _ D).
  split; [now apply no_double_gap_length |].
  split; [exact D' |].
  rewrite !strip_rev, S1, S2, !rev_involutive.
  now rewrite !firstn_all.
Qed.

End Filling.

(* ------------------------------------------------------------------ *)
(** ** [glob_affine_gap]: initial boundary, shape of the result *)
(* ------------------------------------------------------------------ *)

(** C9.  After the initialisation (lines 129-142), [s_x[i][0]] is
    [gap_open + (i - 1) * gap_ext] for every [i] in [0, len1] -- so
    [s_x[0][0]] is [gap_open - gap_ext] -- and [s_y[0][j]] is
    [gap_open + (j - 1) * gap_ext] for every [j] in [0, len2]; the
    backpointers there are 1 and 2, the positions of [s_x] and [s_y] in
    [all_mat]. *)
Theorem init_matrices_boundary (A : Type) (seq1 seq2 : list A)
        (gap_open gap_ext : Q) :
  exists st,
    init_matrices seq1 seq2 gap_open gap_ext = Ok st /\
    (forall i, (i <= length seq1)%nat ->
       Np.get (s_x st) (Z.of_nat i) 0
       = Ok (Fin (gap_open + inject_Z (Z.of_nat i - 1) * gap_ext)) /\
       Np.get (b_x st) (Z.of_nat i) 0 = Ok 1%nat) /\
    (forall j, (j <= length seq2)%nat ->
       Np.get (s_y st) 0 (Z.of_nat j)
       = Ok (Fin (gap_open + inject_Z (Z.of_nat j - 1) * gap_ext)) /\
       Np.get (b_y st) 0 (Z.of_nat j) = Ok 2%nat) /\
    (exists q, Np.get (s_x st) 0 0 = Ok (Fin q) /\
               (q == gap_open - gap_ext)%Q) /\
    getitem all_mat 1 = Ok S_X /\ getitem all_mat 2 = Ok S_Y.
Proof.
  destruct (init_matrices_holds seq1 seq2 gap_open gap_ext (fun _ _ => 0%Q))
    as (st & E & H).
  exists st. split; [exact E |].
  assert (X : forall i, (i <= length seq1)%nat ->
       Np.get (s_x st) (Z.of_nat i) 0
       = Ok (Fin (gap_open + inject_Z (Z.of_nat i - 1) * gap_ext)) /\
       Np.get (b_x st) (Z.of_nat i) 0 = Ok 1%nat).
  { intros i Hi.
    pose proof (holds_get_score S_X H Hi (Nat.le_0_l _)) as G1.
    pose proof (holds_get_back S_X H Hi (Nat.le_0_l _)) as G2.
    cbn [score_mat back_mat Z.of_nat] in G1, G2. rewrite G1, G2.
    destruct i; split; reflexivity. }
  split; [exact X |]. split; [| split; [| split; reflexivity]].
  - intros j Hj.
    pose proof (holds_get_score S_Y H (Nat.le_0_l _) Hj) as G1.
    pose proof (holds_get_back S_Y H (Nat.le_0_l _) Hj) as G2.
    cbn [score_mat back_mat Z.of_nat] in G1, G2. rewrite G1, G2.
    destruct j; split; reflexivity.
  - destruct (X 0%nat (Nat.le_0_l _)) as [G _].
    eexists. split; [exact G |]. simpl. ring.
Qed.

Lemma init_matrices_boundary_witness :
  exists st,
    init_matrices [1%Q; 2%Q] [3%Q] (-4) (-3) = Ok st /\
    Np.get (s_x st) 2 0 = Ok (Fin (-4 + inject_Z (2 - 1) * -3)) /\
    Np.get (b_x st) 2 0 = Ok 1%nat /\
    Np.get (s_y st) 0 1 = Ok (Fin (-4 + inject_Z (1 - 1) * -3)) /\
    Np.get (b_y st) 0 1 = Ok 2%nat.
Proof.
  destruct (init_matrices_boundary [1%Q; 2%Q] [3%Q] (-4) (-3))
    as (st & E & HX & HY & _).
  exists st. split; [exact E |].
  destruct (HX 2%nat (le_n 2)) as [X1 X2].
  destruct (HY 1%nat (le_n 1)) as [Y1 Y2].
  repeat split; assumption.
Defined.

(** C5.  The two rows have equal length and no index holds a gap marker
    in both. *)
Theorem glob_affine_gap_never_both_gaps (A : Type) (seq1 seq2 : list A)
        (gap_open gap_ext : Q) (match_fun : A -> A -> Q) :
  (gap_open < 0)%Q -> (gap_ext < 0)%Q ->
  exists score row1 row2,
    glob_affine_gap seq1 seq2 gap_open gap_ext match_fun
    = Ok (score, row1, row2) /\
    length row1 = length row2 /\
    forall k, ~ (nth_error row1 k = Some None /\ nth_error row2 k = Some None).
Proof.
  intros _ _.
  destruct (glob_affine_gap_alignment seq1 seq2 gap_open gap_ext match_fun)
    as (score & row1 & row2 & E & L & D & _).
  exists score, row1, row2. split; [exact E |]. split; [exact L |].
  intros k. now apply no_double_gap_nth.
Qed.

Lemma glob_affine_gap_never_both_gaps_witness :
  (-4 < 0)%Q /\ (-3 < 0)%Q /\
  exists score row1 row2,
    glob_affine_gap [0.1; 0.2; 0.3; 0.4]%Q [0.1; 0.3; 0.4]%Q (-4) (-3)
                    (fun p q => 100 * (0.1 - Qabs.Qabs (p - q)))%Q
    = Ok (score, row1, row2) /\
    length row1 = length row2 /\
    forall k, ~ (nth_error row1 k = Some None /\ nth_error row2 k = Some None).
Proof.
  split; [reflexivity |]. split; [reflexivity |].
  apply (@glob_affine_gap_never_both_gaps Q); reflexivity.
Defined.

(** C10.  Deleting the gap markers of the first row gives back [seq1],
    of the second row [seq2]. *)
Theorem glob_affine_gap_strip (A : Type) (seq1 seq2 : list A)
        (gap_open gap_ext : Q) (match_fun : A -> A -> Q) :
  seq1 <> [] -> seq2 <> [] ->
  (gap_open < 0)%Q -> (gap_ext < 0)%Q ->
  exists score row1 row2,
    glob_affine_gap seq1 seq2 gap_open gap_ext match_fun
    = Ok (score, row1, row2) /\
    strip row1 = seq1 /\ strip row2 = seq2.
Proof.
  intros _ _ _ _.
  destruct (glob_affine_gap_alignment seq1 seq2 gap_open gap_ext match_fun)
    as (score & row1 & row2 & E & _ & _ & S1 & S2).
  now exists score, row1, row2.
Qed.

Lemma glob_affine_gap_strip_witness :
  exists score row1 row2,
    glob_affine_gap [0.1; 0.2; 0.3; 0.4]%Q [0.1; 0.3; 0.4]%Q (-4) (-3)
                    (fun p q => 100 * (0.1 - Qabs.Qabs (p - q)))%Q
    = Ok (score, row1, row2) /\
    strip row1 = [0.1; 0.2; 0.3; 0.4]%Q /\ strip row2 = [0.1; 0.3; 0.4]%Q.
Proof.
  apply (@glob_affine_gap_strip Q);
    [discriminate | discriminate | reflexivity | reflexivity].
Defined.

(** With no input at all the score is the larger of [s_m[0][0] = 0] and
    the seed [gap_open - gap_ext]. *)
Lemma glob_affine_gap_empty (A : Type) (gap_open gap_ext : Q)
      (match_fun : A -> A -> Q) :
  (gap_open <= gap_ext)%Q ->
  glob_affine_gap [] [] gap_open gap_ext match_fun = Ok (Fin 0, [], []).
Proof.
  intros H. rewrite glob_affine_gap_path. simpl.
  unfold best_state. simpl.
  destruct (Qle_bool (gap_open + inject_Z (-1) * gap_ext) 0) eqn:E.
  - simpl. rewrite E. reflexivity.
  - exfalso. apply not_true_iff_false in E. apply E.
    apply Qle_bool_iff. change (inject_Z (-1)) with (-1)%Q. lra.
Qed.

(** C8.  On two empty sequences with [gap_open = -1] and [gap_ext = -5]
    the code returns the score 4, the seed [gap_open - gap_ext] of
    [s_x[0][0]], not 0. *)
Theorem glob_affine_gap_empty_seed (A : Type) (match_fun : A -> A -> Q) :
  (-1 < 0)%Q /\ (-5 < 0)%Q /\
  glob_affine_gap [] [] (-1) (-5) match_fun = Ok (Fin 4, [], []) /\
  ~ F64.eq (Fin 4) (Fin 0).
Proof.
  split; [reflexivity |]. split; [reflexivity |].
  split; [reflexivity |]. simpl. intros H. discriminate H.
Qed.

(* ------------------------------------------------------------------ *)
(** ** Order on scores; [max3] is a least upper bound *)
(* ------------------------------------------------------------------ *)

Lemma f64_eq_refl (x : float64) : F64.eq x x.
Proof. destruct x; simpl; [exact I | reflexivity]. Qed.

Lemma f64_eq_sym (x y : float64) : F64.eq x y -> F64.eq y x.
Proof. destruct x, y; simpl; auto. intros H. now symmetry. Qed.

Lemma f64_eq_trans (x y z : float64) :
  F64.eq x y -> F64.eq y z -> F64.eq x z.
Proof.
  destruct x, y, z; simpl; try tauto. intros H1 H2. now rewrite H1.
Qed.

Lemma f64_le_refl (x : float64) : F64.le x x.
Proof. destruct x; simpl; [exact I | apply Qle_refl]. Qed.

Lemma f64_le_trans (x y z : float64) :
  F64.le x y -> F64.le y z -> F64.le x z.
Proof.
  destruct x, y, z; simpl; try tauto. apply Qle_trans.
Qed.

Lemma f64_le_antisym (x y : float64) :
  F64.le x y -> F64.le y x -> F64.eq x y.
Proof.
  destruct x, y; simpl; try tauto. apply Qle_antisym.
Qed.

Lemma f64_eq_le (x y : float64) : F64.eq x y -> F64.le x y.
Proof.
  destruct x, y; simpl; try tauto. intros H. rewrite H. apply Qle_refl.
Qed.

Lemma f64_le_total (x y : float64) : F64.le x y \/ F64.le y x.
Proof.
  destruct x as [|a], y as [|b]; simpl; auto.
  destruct (Qlt_le_dec a b); auto using Qlt_le_weak.
Qed.

Lemma gtb_false_le (x y : float64) : F64.gtb x y = false <-> F64.le x y.
Proof.
  destruct x as [|a], y as [|b]; simpl; try tauto.
  - split; [discriminate | tauto].
  - rewrite negb_false_iff. apply Qle_bool_iff.
Qed.

Lemma gtb_true_le (x y : float64) : F64.gtb x y = true -> F64.le y x.
Proof.
  intros H. destruct (f64_le_total x y) as [L | L]; [| exact L].
  apply gtb_false_le in L. congruence.
Qed.

Lemma add_le (x y : float64) (d e : Q) :
  F64.le x y -> (d <= e)%Q -> F64.le (F64.add x d) (F64.add y e).
Proof.
  destruct x, y; simpl; try tauto. intros. lra.
Qed.

Lemma add_eq (x y : float64) (d e : Q) :
  F64.eq x y -> (d == e)%Q -> F64.eq (F64.add x d) (F64.add y e).
Proof.
  destruct x, y; simpl; try tauto. intros H1 H2. now rewrite H1, H2.
Qed.

Lemma max3_upper (a b c : float64) :
  F64.le a (max3 a b c) /\ F64.le b (max3 a b c) /\ F64.le c (max3 a b c).
Proof.
  unfold max3. simpl.
  destruct (F64.gtb b a) eqn:E1.
  - apply gtb_true_le in E1.
    destruct (F64.gtb c b) eqn:E2.
    + apply gtb_true_le in E2.
      eauto using f64_le_trans, f64_le_refl.
    + apply gtb_false_le in E2. eauto using f64_le_refl.
  - apply gtb_false_le in E1.
    destruct (F64.gtb c a) eqn:E2.
    + apply gtb_true_le in E2.
      eauto using f64_le_trans, f64_le_refl.
    + apply gtb_false_le in E2. eauto using f64_le_refl.
Qed.

Lemma max3_least (a b c m : float64) :
  F64.le a m -> F64.le b m -> F64.le c m -> F64.le (max3 a b c) m.
Proof.
  intros. destruct (max3_cases a b c) as [-> | [-> | ->]]; assumption.
Qed.

(** [max3] is monotone, and blind to the order of its last two
    candidates, up to numerical equality. *)
Lemma max3_swap (a b c a' b' c' : float64) :
  F64.eq a a' -> F64.eq b c' -> F64.eq c b' ->
  F64.eq (max3 a b c) (max3 a' b' c').
Proof.
  intros Ha Hb Hc.
  destruct (max3_upper a b c) as (U1 & U2 & U3).
  destruct (max3_upper a' b' c') as (V1 & V2 & V3).
  apply f64_le_antisym; apply max3_least;
    eauto using f64_le_trans, f64_eq_le, f64_eq_sym.
Qed.

(** Ties go to the first candidate. *)
Lemma max3_first (a b c : float64) :
  F64.le b a -> F64.le c a -> max3 a b c = a /\ arg3 a b c = 0%nat.
Proof.
  intros Hb Hc. apply gtb_false_le in Hb, Hc.
  assert (E : max3 a b c = a).
  { unfold max3. simpl. now rewrite Hb, Hc. }
  split; [exact E |].
  unfold arg3, pos3. now rewrite E, eqb_refl.
Qed.

Lemma best_state_score (x : cell) :
  cell_score (best_state x) x = max3 (c_m x) (c_x x) (c_y x).
Proof.
  unfold best_state, max3. simpl.
  destruct (F64.gtb (c_x x) (c_m x)); simpl;
    destruct (F64.gtb (c_y x) _); reflexivity.
Qed.

(* ------------------------------------------------------------------ *)
(** ** Exchanging the two sequences *)
(* ------------------------------------------------------------------ *)

Section Symmetry.

Variable A : Type.
Variables seqA seqB : list A.
Variables gap_open gap_ext : Q.
Variable match_fun : A -> A -> Q.
Hypothesis match_sym : forall x y, (match_fun x y == match_fun y x)%Q.

Local Notation "'tableAB'" := (table seqA seqB gap_open gap_ext match_fun).
Local Notation "'tableBA'" := (table seqB seqA gap_open gap_ext match_fun).

Lemma delta_sym (i j : nat) :
  (delta seqA seqB match_fun i j == delta seqB seqA match_fun j i)%Q.
Proof.
  unfold delta.
  destruct (nth_error seqA (i - 1)), (nth_error seqB (j - 1));
    try reflexivity. apply match_sym.
Qed.

(** The entries for [(seqB, seqA)] are those for [(seqA, seqB)]
    transposed, with the roles of X and Y exchanged. *)
Lemma table_transpose (i j : nat) :
  F64.eq (c_m (tableAB i j)) (c_m (tableBA j i)) /\
  F64.eq (c_x (tableAB i j)) (c_y (tableBA j i)) /\
  F64.eq (c_y (tableAB i j)) (c_x (tableBA j i)).
Proof.
  revert j. induction i as [|i IHi]; intros j.
  - destruct j; simpl; repeat split; try exact I; reflexivity.
  - induction j as [|j IHj].
    + simpl; repeat split; try exact I; reflexivity.
    + rewrite !table_inner. cbn [inner c_m c_x c_y].
      destruct (IHi j) as (D1 & D2 & D3).
      destruct (IHi (S j)) as (U1 & U2 & U3).
      destruct IHj as (L1 & L2 & L3).
      pose proof (delta_sym (S i) (S j)) as Hd.
      repeat split; apply max3_swap; apply add_eq;
        auto; reflexivity.
Qed.

Lemma glob_affine_gap_score_sym :
  exists s row1 row2 s' row1' row2',
    glob_affine_gap seqA seqB gap_open gap_ext match_fun
    = Ok (s, row1, row2) /\
    glob_affine_gap seqB seqA gap_open gap_ext match_fun
    = Ok (s', row1', row2') /\
    F64.eq s s'.
Proof.
  rewrite !glob_affine_gap_path.
  do 6 eexists. split; [reflexivity |]. split; [reflexivity |].
  rewrite !best_state_score.
  destruct (table_transpose (length seqA) (length seqB)) as (E1 & E2 & E3).
  now apply max3_swap.
Qed.

End Symmetry.

(* ------------------------------------------------------------------ *)
(** ** Aligning a sequence with itself *)
(* ------------------------------------------------------------------ *)

Section Identity.

Variable A : Type.
Variable S0 : list A.
Variables gap_open gap_ext c : Q.
Variable match_fn : A -> A -> Q.

Hypothesis open_le_ext : (gap_open <= gap_ext)%Q.
Hypothesis ext_neg : (gap_ext < 0)%Q.
Hypothesis c_pos : (0 < c)%Q.
Hypothesis match_same : forall x, In x S0 -> (match_fn x x == c)%Q.
Hypothesis match_le :
  forall x y, In x S0 -> In y S0 -> (match_fn x y <= c)%Q.

Local Notation "'n'" := (length S0).

Local Notation "'tableSS'" := (table S0 S0 gap_open gap_ext match_fn).

Local Notation "'diag'" := (times c).

Lemma diag_S (k : nat) : (diag (S k) == diag k + c)%Q.
Proof.
  unfold times. rewrite Nat2Z.inj_succ. unfold Z.succ.
  rewrite inject_Z_plus. change (inject_Z 1) with 1%Q. ring.
Qed.

Lemma diag_mono (k k' : nat) : (k <= k')%nat -> (diag k <= diag k')%Q.
Proof.
  induction 1 as [|k' H IH]; [apply Qle_refl |].
  rewrite diag_S. lra.
Qed.

Lemma seed_nonpos (k : nat) :
  F64.le (seed gap_open gap_ext k) (Fin 0).
Proof.
  unfold seed. simpl. destruct k as [|k].
  - change (inject_Z (Z.of_nat 0 - 1)) with (-1)%Q. lra.
  - replace (Z.of_nat (S k) - 1) with (Z.of_nat k) by lia.
    assert (H : (0 <= inject_Z (Z.of_nat k))%Q).
    { change 0%Q with (inject_Z 0). rewrite <- Zle_Qle. lia. }
    assert (H' : (0 <= inject_Z (Z.of_nat k) * - gap_ext)%Q).
    { apply Qmult_le_0_compat; [exact H | lra]. }
    lra.
Qed.

Lemma add_bound (x : float64) (d q e : Q) :
  F64.le x (Fin d) -> (d + q <= e)%Q -> F64.le (F64.add x q) (Fin e).
Proof. destruct x; simpl; auto. intros. lra. Qed.

Lemma delta_le (i j : nat) :
  (delta S0 S0 match_fn i j <= c)%Q.
Proof.
  unfold delta.
  destruct (nth_error S0 (i - 1)) as [a|] eqn:Ea; [| lra].
  destruct (nth_error S0 (j - 1)) as [b|] eqn:Eb; [| lra].
  apply match_le; eapply nth_error_In; eauto.
Qed.

Lemma border_bound (i j : nat) :
  i = 0%nat \/ j = 0%nat ->
  F64.le (c_m (border gap_open gap_ext i j)) (Fin (diag (min i j))) /\
  F64.le (c_x (border gap_open gap_ext i j)) (Fin (diag (min i j))) /\
  F64.le (c_y (border gap_open gap_ext i j)) (Fin (diag (min i j))).
Proof.
  intros H.
  assert (E : min i j = 0%nat) by lia. rewrite E.
  assert (Z0 : F64.le (Fin 0) (Fin (diag 0))).
  { unfold times. cbn [F64.le Z.of_nat]. change (inject_Z 0) with 0%Q. lra. }
  unfold border. cbn [c_m c_x c_y].
  repeat split.
  - destruct ((i =? 0)%nat && (j =? 0)%nat); [exact Z0 | exact I].
  - destruct (j =? 0)%nat; [| exact I].
    eapply f64_le_trans; [apply seed_nonpos | exact Z0].
  - destruct (i =? 0)%nat; [| exact I].
    eapply f64_le_trans; [apply seed_nonpos | exact Z0].
Qed.

(** No entry at [(i, j)] exceeds [c * min(i, j)]. *)
Lemma table_bound (i j : nat) :
  F64.le (c_m (tableSS i j)) (Fin (diag (min i j))) /\
  F64.le (c_x (tableSS i j)) (Fin (diag (min i j))) /\
  F64.le (c_y (tableSS i j)) (Fin (diag (min i j))).
Proof.
  revert j. induction i as [|i IHi]; intros j.
  - rewrite table_border by auto. apply border_bound. auto.
  - induction j as [|j IHj].
    + rewrite table_border by auto. apply border_bound. auto.
    + rewrite table_inner. cbn [inner c_m c_x c_y].
      destruct (IHi j) as (D1 & D2 & D3).
      destruct (IHi (S j)) as (U1 & U2 & U3).
      destruct IHj as (L1 & L2 & L3).
      pose proof (delta_le (S i) (S j)) as Hd.
      assert (E : (diag (min (S i) (S j)) == diag (min i j) + c)%Q).
      { rewrite <- Nat.succ_min_distr. apply diag_S. }
      assert (M1 : (diag (min i (S j)) <= diag (min (S i) (S j)))%Q)
        by (apply diag_mono; lia).
      assert (M2 : (diag (min (S i) j) <= diag (min (S i) (S j)))%Q)
        by (apply diag_mono; lia).
      repeat split; apply max3_least; eapply add_bound; eauto; lra.
Qed.

Lemma delta_same (i : nat) :
  (i < n)%nat -> (delta S0 S0 match_fn (S i) (S i) == c)%Q.
Proof.
  intros H. unfold delta. cbn [Nat.sub]. rewrite Nat.sub_0_r.
  destruct (nth_error S0 i) as [a|] eqn:Ea.
  - apply match_same. eapply nth_error_In; eauto.
  - apply nth_error_None in Ea. lia.
Qed.

(** On the diagonal the M entry is [c * i], reached from M. *)
Lemma table_diag (i : nat) :
  (i <= n)%nat ->
  F64.eq (c_m (tableSS i i)) (Fin (diag i)) /\
  ((1 <= i)%nat -> p_m (tableSS i i) = 0%nat).
Proof.
  induction i as [|i IH]; intros Hi.
  - split; [| lia]. unfold times. simpl. ring.
  - destruct IH as [E _]; [lia |].
    destruct (table_bound i i) as (_ & BX & BY).
    rewrite Nat.min_id in BX, BY.
    pose proof (delta_same Hi) as Hd.
    rewrite table_inner. cbn [inner c_m p_m].
    set (d := delta S0 S0 match_fn (S i) (S i)) in *.
    assert (LX : F64.le (F64.add (c_x (tableSS i i)) d)
                        (F64.add (c_m (tableSS i i)) d)).
    { apply add_le; [| apply Qle_refl].
      eapply f64_le_trans; [exact BX |]. apply f64_eq_le, f64_eq_sym, E. }
    assert (LY : F64.le (F64.add (c_y (tableSS i i)) d)
                        (F64.add (c_m (tableSS i i)) d)).
    { apply add_le; [| apply Qle_refl].
      eapply f64_le_trans; [exact BY |]. apply f64_eq_le, f64_eq_sym, E. }
    destruct (max3_first _ _ _ LX LY) as [Em Ea].
    rewrite Em, Ea. split; [| reflexivity].
    eapply f64_eq_trans; [apply (add_eq _ _ E Hd) |].
    simpl. rewrite diag_S. reflexivity.
Qed.

Lemma best_state_diag : best_state (tableSS n n) = S_M.
Proof.
  destruct (table_diag (le_n n)) as [E _].
  destruct (table_bound n n) as (_ & BX & BY).
  rewrite Nat.min_id in BX, BY.
  assert (LX : F64.le (c_x (tableSS n n)) (c_m (tableSS n n))).
  { eapply f64_le_trans; [exact BX |]. apply f64_eq_le, f64_eq_sym, E. }
  assert (LY : F64.le (c_y (tableSS n n)) (c_m (tableSS n n))).
  { eapply f64_le_trans; [exact BY |]. apply f64_eq_le, f64_eq_sym, E. }
  apply gtb_false_le in LX, LY.
  unfold best_state. cbn [max_from cell_score]. rewrite LX.
  cbn [cell_score]. now rewrite LY.
Qed.

(** From M on the diagonal the traceback walks the diagonal. *)
Lemma path_diag (i : nat) :
  forall budget, (i <= n)%nat -> (i <= budget)%nat ->
    let p := path S0 S0 gap_open gap_ext match_fn budget S_M i i in
    map (emit1 S0) p = rev (map Some (firstn i S0)) /\
    map (emit2 S0) p = rev (map Some (firstn i S0)).
Proof.
  induction i as [|i IH]; intros budget Hi Hb.
  - destruct budget; simpl; auto.
  - destruct budget as [|budget]; [lia |].
    destruct (nth_error S0 i) as [a|] eqn:Ea;
      [| apply nth_error_None in Ea; lia].
    destruct (table_diag Hi) as [_ P]. specialize (P ltac:(lia)).
    cbn [path Nat.eqb andb Nat.sub]. rewrite !Nat.sub_0_r.
    unfold next_state. cbn [cell_back]. rewrite P. cbn [nth all_mat].
    destruct (IH budget ltac:(lia) ltac:(lia)) as [E1 E2].
    cbn [map emit1 emit2 Nat.sub]. rewrite !Nat.sub_0_r, Ea, E1, E2.
    rewrite (firstn_snoc _ _ Ea), map_app, rev_app_distr. auto.
Qed.

Lemma glob_affine_gap_self :
  S0 <> [] ->
  exists q,
    glob_affine_gap S0 S0 gap_open gap_ext match_fn
    = Ok (Fin q, map Some S0, map Some S0) /\
    (q == c * inject_Z (Z.of_nat (length S0)))%Q.
Proof.
  intros _. rewrite glob_affine_gap_path.
  rewrite best_state_diag.
  destruct (@path_diag n (n + n)%nat (le_n n) ltac:(lia)) as [E1 E2].
  rewrite E1, E2, rev_involutive.
  replace (firstn n S0) with S0 by (symmetry; apply firstn_all).
  destruct (table_diag (le_n n)) as [E _].
  cbn [cell_score].
  destruct (c_m (tableSS n n)) as [|q]; [contradiction |].
  exists q. split; [reflexivity | exact E].
Qed.

End Identity.

(* ------------------------------------------------------------------ *)
(** ** The affine-gap score, read column by column *)
(* ------------------------------------------------------------------ *)

Section ScoreByColumns.

Variable A : Type.
Variables gap_open gap_ext : Q.
Variable match_fun : A -> A -> Q.

Local Notation "'total'" :=
  (fold_right (fun L acc => (run_penalty gap_open gap_ext L + acc)%Q) 0%Q).

Lemma run_penalty_one : (run_penalty gap_open gap_ext 1 == gap_open)%Q.
Proof. unfold run_penalty. simpl. ring. Qed.

Lemma run_penalty_S (k : nat) :
  (run_penalty gap_open gap_ext (S (S k))
   == run_penalty gap_open gap_ext (S k) + gap_ext)%Q.
Proof.
  unfold run_penalty.
  replace (Z.of_nat (S (S k)) - 1) with (Z.of_nat (S k) - 1 + 1) by lia.
  rewrite inject_Z_plus. change (inject_Z 1) with 1%Q. ring.
Qed.

(** Summing the penalties of the maximal runs is scanning the row. *)
Lemma gap_runs_scan (row : list (option A)) (run : nat) :
  (total (gap_runs_from run row)
   == match run with
      | O => 0
      | S _ => run_penalty gap_open gap_ext run
      end
      + scan_gaps gap_open gap_ext (negb (run =? 0)%nat) row)%Q.
Proof.
  revert run. induction row as [|[a|] row IH]; intros run.
  - destruct run; simpl; ring.
  - destruct run as [|k]; cbn [gap_runs_from scan_gaps fold_right].
    + rewrite (IH 0%nat). simpl. ring.
    + rewrite (IH 0%nat). simpl. ring.
  - cbn [gap_runs_from scan_gaps]. rewrite (IH (S run)).
    destruct run as [|k]; cbn [Nat.eqb negb gap_cost].
    + rewrite run_penalty_one. ring.
    + rewrite run_penalty_S. ring.
Qed.

Lemma gap_score_scan (row : list (option A)) :
  (gap_score gap_open gap_ext row == scan_gaps gap_open gap_ext false row)%Q.
Proof.
  unfold gap_score, gap_runs. rewrite gap_runs_scan. simpl. ring.
Qed.

Lemma scan_gaps_snoc (row : list (option A)) (x : option A) (prev : bool) :
  (scan_gaps gap_open gap_ext prev (row ++ [x])
   == scan_gaps gap_open gap_ext prev row
      + (if is_gap x then gap_cost gap_open gap_ext (last_gap prev row)
         else 0))%Q.
Proof.
  revert prev. induction row as [|[a|] row IH]; intros prev.
  - destruct x; simpl; ring.
  - cbn [app scan_gaps]. rewrite IH. reflexivity.
  - cbn [app scan_gaps]. rewrite IH. unfold last_gap. simpl. ring.
Qed.

Lemma last_gap_rev (row : list (option A)) :
  last_gap false (rev row) = head_gap row.
Proof.
  destruct row as [|x row]; [reflexivity |].
  unfold last_gap. simpl. rewrite fold_left_app. simpl. now destruct x.
Qed.

Lemma scan_gaps_rev (row : list (option A)) :
  (scan_gaps gap_open gap_ext false (rev row)
   == rev_gaps gap_open gap_ext row)%Q.
Proof.
  induction row as [|x row IH]; [reflexivity |].
  cbn [rev]. rewrite scan_gaps_snoc, last_gap_rev, IH.
  destruct x; simpl; ring.
Qed.

Lemma pair_score_app (l1 l2 l1' l2' : list (option A)) :
  length l1 = length l2 ->
  (pair_score match_fun (l1 ++ l1') (l2 ++ l2')
   == pair_score match_fun l1 l2 + pair_score match_fun l1' l2')%Q.
Proof.
  revert l2. induction l1 as [|x l1 IH]; intros [|y l2] H; simpl in H;
    try discriminate.
  - simpl. ring.
  - injection H as H. specialize (IH l2 H).
    destruct x, y; cbn [app pair_score]; rewrite IH; ring.
Qed.

Lemma pair_score_rev (l1 l2 : list (option A)) :
  length l1 = length l2 ->
  (pair_score match_fun (rev l1) (rev l2) == pair_score match_fun l1 l2)%Q.
Proof.
  revert l2. induction l1 as [|x l1 IH]; intros [|y l2] H; simpl in H;
    try discriminate; [reflexivity |].
  injection H as H. cbn [rev].
  rewrite pair_score_app by (now rewrite !length_rev).
  rewrite (IH l2 H). destruct x, y; simpl; ring.
Qed.

(** The score of an alignment is the score of its rows read backwards. *)
Lemma alignment_score_rev (row1 row2 : list (option A)) :
  length row1 = length row2 ->
  (alignment_score gap_open gap_ext match_fun (rev row1) (rev row2)
   == rev_score gap_open gap_ext match_fun row1 row2)%Q.
Proof.
  intros H. unfold alignment_score, rev_score.
  rewrite pair_score_rev by exact H.
  now rewrite !gap_score_scan, !scan_gaps_rev.
Qed.

End ScoreByColumns.
(* ------------------------------------------------------------------ *)
(** ** The entries bound, and the traceback attains, the score *)
(* ------------------------------------------------------------------ *)

Lemma eqb_eq (x y : float64) : F64.eqb x y = true -> F64.eq x y.
Proof.
  destruct x, y; simpl; try discriminate; auto. apply Qeq_bool_eq.
Qed.

Lemma rev_firstn_nil (X : Type) (l : list X) (i : nat) :
  (i <= length l)%nat -> [] = rev (firstn i l) -> i = 0%nat.
Proof.
  intros Hi H. apply (f_equal (@length X)) in H.
  rewrite length_rev, length_firstn in H. simpl in H. lia.
Qed.

Lemma rev_firstn_cons (X : Type) (l : list X) (i : nat) (a : X)
      (s : list X) :
  (i <= length l)%nat -> a :: s = rev (firstn i l) ->
  exists i', i = S i' /\ nth_error l i' = Some a /\ s = rev (firstn i' l).
Proof.
  intros Hi H. destruct i as [|i']; [discriminate |].
  destruct (nth_error l i') as [x|] eqn:E;
    [| apply nth_error_None in E; lia].
  rewrite (firstn_snoc _ _ E), rev_app_distr in H. simpl in H.
  injection H as -> ->. now exists i'.
Qed.

Lemma head_state_cost (A : Type) (gap_open gap_ext d : Q)
      (row1 row2 : list (option A)) :
  no_double_gap row1 row2 ->
  gap_cost gap_open gap_ext (head_gap row2)
  = step_cost gap_open gap_ext S_X (head_state row1 row2) d /\
  gap_cost gap_open gap_ext (head_gap row1)
  = step_cost gap_open gap_ext S_Y (head_state row1 row2) d.
Proof.
  destruct row1 as [|[a|] row1], row2 as [|[b|] row2]; simpl; auto.
  intros [[H | H] _]; congruence.
Qed.

Section Optimality.

Variable A : Type.
Variables seq1 seq2 : list A.
Variables gap_open gap_ext : Q.
Variable match_fun : A -> A -> Q.

Local Notation "'n1'" := (length seq1).
Local Notation "'n2'" := (length seq2).
Local Notation "'table_'" := (table seq1 seq2 gap_open gap_ext match_fun).
Local Notation "'delta_'" := (delta seq1 seq2 match_fun).
Local Notation "'seed_'" := (seed gap_open gap_ext).
Local Notation "'cost_'" := (step_cost gap_open gap_ext).
Local Notation "'score_'" := (rev_score gap_open gap_ext match_fun).

Lemma seed_one : F64.eq (seed_ 1) (Fin gap_open).
Proof. unfold seed. simpl. ring. Qed.

Lemma seed_S (k : nat) : F64.eq (seed_ (S k)) (F64.add (seed_ k) gap_ext).
Proof.
  unfold seed. cbn [F64.add F64.eq].
  replace (Z.of_nat (S k) - 1) with (Z.of_nat k - 1 + 1) by lia.
  rewrite inject_Z_plus. change (inject_Z 1) with 1%Q. ring.
Qed.

(** Every candidate of an inner position is below its entry. *)
Lemma inner_upper (c c' : mat_id) (i j : nat) :
  F64.le (F64.add (cell_score c'
                     match c with
                     | S_M => table_ i j
                     | S_X => table_ i (S j)
                     | S_Y => table_ (S i) j
                     end)
                  (cost_ c c' (delta_ (S i) (S j))))
         (cell_score c (table_ (S i) (S j))).
Proof.
  rewrite table_inner.
  destruct c; cbn [cell_score inner c_m c_x c_y];
    match goal with
    | |- F64.le _ (max3 ?a ?b ?c) =>
        destruct (max3_upper a b c) as (U1 & U2 & U3)
    end; destruct c'; assumption.
Qed.

(** The entry of an inner position is the candidate its backpointer
    designates. *)
Lemma inner_attained (c : mat_id) (i j : nat) :
  let c' := next_state c (table_ (S i) (S j)) in
  F64.eq (cell_score c (table_ (S i) (S j)))
         (F64.add (cell_score c'
                     match c with
                     | S_M => table_ i j
                     | S_X => table_ i (S j)
                     | S_Y => table_ (S i) j
                     end)
                  (cost_ c c' (delta_ (S i) (S j)))).
Proof.
  unfold next_state. rewrite table_inner.
  destruct c; cbn [cell_score cell_back inner c_m c_x c_y p_m p_x p_y];
    match goal with
    | |- F64.eq (max3 ?a ?b ?c) _ =>
        destruct (arg3_eqb a b c) as (x & Hx & Ex);
        apply eqb_eq, f64_eq_sym in Ex;
        destruct (arg3 a b c) as [|[|[|k]]]; simpl in Hx;
        [injection Hx as <-; exact Ex
        |injection Hx as <-; exact Ex
        |injection Hx as <-; exact Ex
        |destruct k; discriminate]
    end.
Qed.

Lemma score_cons_pair (a b : A) (row1 row2 : list (option A)) :
  (score_ (Some a :: row1) (Some b :: row2)
   == score_ row1 row2 + match_fun a b)%Q.
Proof. unfold rev_score. cbn [pair_score rev_gaps]. ring. Qed.

Lemma score_cons_x (a : A) (row1 row2 : list (option A)) :
  (score_ (Some a :: row1) (None :: row2)
   == score_ row1 row2 + gap_cost gap_open gap_ext (head_gap row2))%Q.
Proof. unfold rev_score. cbn [pair_score rev_gaps]. ring. Qed.

Lemma score_cons_y (b : A) (row1 row2 : list (option A)) :
  (score_ (None :: row1) (Some b :: row2)
   == score_ row1 row2 + gap_cost gap_open gap_ext (head_gap row1))%Q.
Proof. unfold rev_score. cbn [pair_score rev_gaps]. ring. Qed.

Lemma score_nil : (score_ [] [] == 0)%Q.
Proof. unfold rev_score. simpl. ring. Qed.

Lemma fin_le_add (x : float64) (q r d : Q) :
  F64.le (Fin q) x -> (r == q + d)%Q -> F64.le (Fin r) (F64.add x d).
Proof. destruct x; simpl; auto. intros. lra. Qed.

Lemma no_double_gap_nil_r (row : list (option A)) :
  no_double_gap row [] -> row = [].
Proof. destruct row; simpl; tauto. Qed.

Lemma no_double_gap_nil_l (row : list (option A)) :
  no_double_gap [] row -> row = [].
Proof. destruct row; simpl; tauto. Qed.

(** No alignment of two prefixes scores more than the entry of the state
    of its last column.  Rows are given last column first. *)
Lemma rev_score_bound (row1 : list (option A)) :
  forall (row2 : list (option A)) (i j : nat),
    (i <= n1)%nat -> (j <= n2)%nat ->
    no_double_gap row1 row2 ->
    strip row1 = rev (firstn i seq1) ->
    strip row2 = rev (firstn j seq2) ->
    F64.le (Fin (score_ row1 row2))
           (cell_score (head_state row1 row2) (table_ i j)).
Proof.
  induction row1 as [|x row1 IH]; intros [|y row2] i j Hi Hj D S1 S2;
    simpl in D; try contradiction.
  - simpl in S1, S2.
    apply rev_firstn_nil in S1; [| exact Hi].
    apply rev_firstn_nil in S2; [| exact Hj]. subst.
    cbn. rewrite score_nil. apply Qle_refl.
  - destruct D as [Dxy D].
    destruct (@head_state_cost A gap_open gap_ext 0 row1 row2 D) as [CX CY].
    destruct x as [a|], y as [b|]; cbn [strip] in S1, S2.
    + apply rev_firstn_cons in S1; [| exact Hi].
      apply rev_firstn_cons in S2; [| exact Hj].
      destruct S1 as (i' & -> & Ea & S1). destruct S2 as (j' & -> & Eb & S2).
      specialize (IH row2 i' j' ltac:(lia) ltac:(lia) D S1 S2).
      change (head_state (Some a :: row1) (Some b :: row2)) with S_M.
      eapply f64_le_trans;
        [| apply (inner_upper S_M (head_state row1 row2) i' j')].
      cbn [step_cost]. rewrite (delta_S _ _ _ _ _ Ea Eb).
      eapply fin_le_add; [exact IH | apply score_cons_pair].
    + apply rev_firstn_cons in S1; [| exact Hi].
      destruct S1 as (i' & -> & Ea & S1).
      specialize (IH row2 i' j ltac:(lia) Hj D S1 S2).
      change (head_state (Some a :: row1) (None :: row2)) with S_X.
      destruct j as [|j'].
      * rewrite table_border by auto. cbn [cell_score border c_x Nat.eqb].
        destruct row2 as [|[b|] row2'].
        -- apply no_double_gap_nil_r in D. subst row1.
           simpl in S1. apply rev_firstn_nil in S1; [| lia]. subst i'.
           apply f64_eq_le, f64_eq_sym.
           eapply f64_eq_trans; [apply seed_one |].
           cbn [F64.eq]. rewrite score_cons_x, score_nil. simpl. ring.
        -- simpl in S2. discriminate.
        -- change (head_state row1 (None :: row2')) with S_X in IH.
           rewrite table_border in IH by auto.
           cbn [cell_score border c_x Nat.eqb] in IH.
           eapply f64_le_trans;
             [| apply f64_eq_le, f64_eq_sym, seed_S].
           eapply fin_le_add; [exact IH |].
           rewrite score_cons_x. reflexivity.
      * eapply f64_le_trans;
          [| apply (inner_upper S_X (head_state row1 row2) i' j')].
        eapply fin_le_add; [exact IH |].
        rewrite score_cons_x, CX. reflexivity.
    + apply rev_firstn_cons in S2; [| exact Hj].
      destruct S2 as (j' & -> & Eb & S2).
      specialize (IH row2 i j' Hi ltac:(lia) D S1 S2).
      assert (HS : head_state (None :: row1) (Some b :: row2) = S_Y)
        by reflexivity.
      rewrite HS.
      destruct i as [|i'].
      * rewrite table_border by auto. cbn [cell_score border c_y Nat.eqb].
        destruct row1 as [|[a|] row1'].
        -- apply no_double_gap_nil_l in D. subst row2.
           simpl in S2. apply rev_firstn_nil in S2; [| lia]. subst j'.
           apply f64_eq_le, f64_eq_sym.
           eapply f64_eq_trans; [apply seed_one |].
           cbn [F64.eq]. rewrite score_cons_y, score_nil. simpl. ring.
        -- simpl in S1. discriminate.
        -- assert (HS' : head_state (None :: row1') row2 = S_Y).
           { destruct row2 as [|[b'|] row2']; try reflexivity.
             destruct D as [[H | H] _]; congruence. }
           rewrite HS' in IH.
           rewrite table_border in IH by auto.
           cbn [cell_score border c_y Nat.eqb] in IH.
           eapply f64_le_trans;
             [| apply f64_eq_le, f64_eq_sym, seed_S].
           eapply fin_le_add; [exact IH |].
           rewrite score_cons_y. reflexivity.
      * eapply f64_le_trans;
          [| apply (inner_upper S_Y (head_state row1 row2) i' j')].
        eapply fin_le_add; [exact IH |].
        rewrite score_cons_y, CY. reflexivity.
    + destruct Dxy; congruence.
Qed.

Hypothesis open_le_ext : (gap_open <= gap_ext)%Q.

(** With [gap_open <= gap_ext] the seed [s_x[0][0]] does not exceed
    [s_m[0][0]], and the backpointer of [s_m[1][1]] is M. *)
Lemma next_state_origin : next_state S_M (table_ 1 1) = S_M.
Proof.
  unfold next_state. rewrite table_inner.
  cbn [cell_back inner p_m].
  set (d := delta_ 1 1).
  assert (L : F64.le (F64.add (seed_ 0) d) (F64.add (Fin 0) d)).
  { apply add_le; [| apply Qle_refl]. unfold seed. cbn [F64.le Z.of_nat].
    change (inject_Z (0 - 1)) with (-1)%Q. lra. }
  destruct (max3_first _ _ _ L L) as [_ E].
  change (c_m (table_ 0 0)) with (Fin 0).
  change (c_x (table_ 0 0)) with (seed_ 0).
  change (c_y (table_ 0 0)) with (seed_ 0).
  now rewrite E.
Qed.

Lemma path_origin (budget : nat) (c : mat_id) :
  path seq1 seq2 gap_open gap_ext match_fun budget c 0 0 = [].
Proof. now destruct budget. Qed.

Local Notation "'path_'" := (path seq1 seq2 gap_open gap_ext match_fun).
Local Notation "'live_'" := (live seq1 seq2 gap_open gap_ext match_fun).

(** The rows the traceback emits from a finite entry score exactly that
    entry, and their last column is in the state of that entry. *)
Lemma path_score (budget : nat) :
  forall (c : mat_id) (i j : nat),
    (i <= n1)%nat -> (j <= n2)%nat -> (i + j <= budget)%nat ->
    live_ c i j -> i <> 0%nat \/ j <> 0%nat ->
    let p := path_ budget c i j in
    F64.eq (cell_score c (table_ i j))
           (Fin (score_ (map (emit1 seq1) p) (map (emit2 seq2) p))) /\
    head_state (map (emit1 seq1) p) (map (emit2 seq2) p) = c.
Proof.
  induction budget as [|budget IH]; intros c i j Hi Hj Hb L Hne; [lia |].
  destruct (@live_next A seq1 seq2 gap_open gap_ext match_fun c i j L Hne)
    as [K N].
  cbn [path].
  replace ((i =? 0)%nat && (j =? 0)%nat) with false
    by (symmetry; apply andb_false_iff;
        destruct Hne; [left | right]; now apply Nat.eqb_neq).
  set (c' := next_state c (table_ i j)) in *.
  destruct c.
  - (* M *)
    destruct N as (Hi1 & Hj1 & L').
    destruct i as [|i]; [lia |]. destruct j as [|j]; [lia |].
    destruct (@getitem_pred A seq1 i) as (a & Ea & _); [lia |].
    destruct (@getitem_pred A seq2 j) as (b & Eb & _); [lia |].
    cbn [Nat.sub] in *. rewrite !Nat.sub_0_r in *.
    cbn [map emit1 emit2 Nat.sub]. rewrite !Nat.sub_0_r, Ea, Eb.
    split; [| reflexivity].
    eapply f64_eq_trans; [apply (inner_attained S_M i j) |].
    fold c'. cbn [step_cost]. rewrite (delta_S _ _ _ _ _ Ea Eb).
    destruct (Nat.eq_dec (i + j) 0) as [Z | NZ].
    + assert (i = 0%nat) by lia. assert (j = 0%nat) by lia. subst i j.
      unfold c'. rewrite next_state_origin, path_origin.
      cbn. rewrite score_cons_pair, score_nil. reflexivity.
    + destruct (IH c' i j ltac:(lia) ltac:(lia) ltac:(lia) L' ltac:(lia))
        as [E H].
      eapply f64_eq_trans; [apply (add_eq _ _ E (Qeq_refl _)) |].
      cbn. rewrite score_cons_pair. reflexivity.
  - (* X *)
    destruct N as (Hi1 & L').
    destruct i as [|i]; [lia |].
    destruct (@getitem_pred A seq1 i) as (a & Ea & _); [lia |].
    cbn [Nat.sub] in *. rewrite !Nat.sub_0_r in *.
    cbn [map emit1 emit2 Nat.sub]. rewrite !Nat.sub_0_r, Ea.
    split; [| reflexivity].
    destruct (Nat.eq_dec (i + j) 0) as [Z | NZ].
    + assert (i = 0%nat) by lia. assert (j = 0%nat) by lia. subst i j.
      rewrite path_origin.
      eapply f64_eq_trans; [apply seed_one |].
      cbn. rewrite score_cons_x, score_nil. simpl. ring.
    + destruct (IH c' i j ltac:(lia) ltac:(lia) ltac:(lia) L' ltac:(lia))
        as [E H].
      destruct (@path_rows A seq1 seq2 gap_open gap_ext match_fun budget
                  c' i j ltac:(lia) ltac:(lia) ltac:(lia) L') as (D & _ & _).
      destruct (@head_state_cost A gap_open gap_ext 0 _ _ D) as [CX _].
      rewrite H in CX.
      destruct j as [|j].
      * assert (Ec : c' = S_X) by reflexivity.
        rewrite Ec in *.
        rewrite table_border in E |- * by auto.
        cbn [cell_score border c_x Nat.eqb] in E |- *.
        eapply f64_eq_trans; [apply seed_S |].
        eapply f64_eq_trans; [apply (add_eq _ _ E (Qeq_refl _)) |].
        cbn. rewrite score_cons_x, CX. reflexivity.
      * eapply f64_eq_trans; [apply (inner_attained S_X i j) |].
        fold c'.
        eapply f64_eq_trans; [apply (add_eq _ _ E (Qeq_refl _)) |].
        cbn [F64.add F64.eq]. rewrite score_cons_x, CX. reflexivity.
  - (* Y *)
    destruct N as (Hj1 & L').
    destruct j as [|j]; [lia |].
    destruct (@getitem_pred A seq2 j) as (b & Eb & _); [lia |].
    cbn [Nat.sub] in *. rewrite !Nat.sub_0_r in *.
    cbn [map emit1 emit2 Nat.sub]. rewrite !Nat.sub_0_r, Eb.
    split; [| reflexivity].
    destruct (Nat.eq_dec (i + j) 0) as [Z | NZ].
    + assert (i = 0%nat) by lia. assert (j = 0%nat) by lia. subst i j.
      rewrite path_origin.
      eapply f64_eq_trans; [apply seed_one |].
      cbn. rewrite score_cons_y, score_nil. simpl. ring.
    + destruct (IH c' i j ltac:(lia) ltac:(lia) ltac:(lia) L' ltac:(lia))
        as [E H].
      destruct (@path_rows A seq1 seq2 gap_open gap_ext match_fun budget
                  c' i j ltac:(lia) ltac:(lia) ltac:(lia) L') as (D & _ & _).
      destruct (@head_state_cost A gap_open gap_ext 0 _ _ D) as [_ CY].
      rewrite H in CY.
      destruct i as [|i].
      * assert (Ec : c' = S_Y) by reflexivity.
        rewrite Ec in *.
        rewrite table_border in E |- * by auto.
        cbn [cell_score border c_y Nat.eqb] in E |- *.
        eapply f64_eq_trans; [apply seed_S |].
        eapply f64_eq_trans; [apply (add_eq _ _ E (Qeq_refl _)) |].
        cbn. rewrite score_cons_y, CY. reflexivity.
      * eapply f64_eq_trans; [apply (inner_attained S_Y i j) |].
        fold c'.
        eapply f64_eq_trans; [apply (add_eq _ _ E (Qeq_refl _)) |].
        cbn [F64.add F64.eq]. rewrite score_cons_y, CY. reflexivity.
Qed.

Lemma best_score_attained (i j : nat) :
  (i <= n1)%nat -> (j <= n2)%nat ->
  let c := best_state (table_ i j) in
  let p := path_ (i + j) c i j in
  F64.eq (cell_score c (table_ i j))
         (Fin (score_ (map (emit1 seq1) p) (map (emit2 seq2) p))).
Proof.
  intros Hi Hj c p.
  destruct (Nat.eq_dec (i + j) 0) as [Z | NZ].
  - assert (i = 0%nat) by lia. assert (j = 0%nat) by lia. subst i j.
    subst p c. rewrite path_origin, best_state_score.
    assert (L : F64.le (seed_ 0) (Fin 0)).
    { unfold seed. cbn [F64.le Z.of_nat].
      change (inject_Z (0 - 1)) with (-1)%Q. lra. }
    destruct (max3_first _ _ _ L L) as [E _].
    change (c_m (table_ 0 0)) with (Fin 0).
    change (c_x (table_ 0 0)) with (seed_ 0).
    change (c_y (table_ 0 0)) with (seed_ 0).
    rewrite E. cbn. rewrite score_nil. reflexivity.
  - apply path_score; try lia.
    apply best_state_live.
Qed.

Lemma best_score_upper (c : mat_id) (x : cell) :
  F64.le (cell_score c x) (cell_score (best_state x) x).
Proof.
  rewrite best_state_score.
  destruct (max3_upper (c_m x) (c_x x) (c_y x)) as (U1 & U2 & U3).
  now destruct c.
Qed.

(** When opening a gap costs at least as much as extending one, the
    returned score is the largest affine-gap score of a global alignment
    of the two inputs, and the returned rows are an alignment that has
    it. *)
Lemma glob_affine_gap_best :
  exists q row1 row2,
    glob_affine_gap seq1 seq2 gap_open gap_ext match_fun
    = Ok (Fin q, row1, row2) /\
    global_alignment seq1 seq2 row1 row2 /\
    (alignment_score gap_open gap_ext match_fun row1 row2 == q)%Q /\
    forall r1 r2,
      global_alignment seq1 seq2 r1 r2 ->
      (alignment_score gap_open gap_ext match_fun r1 r2 <= q)%Q.
Proof.
  rewrite glob_affine_gap_path.
  set (x := table_ n1 n2). set (c := best_state x).
  set (p := path_ (n1 + n2) c n1 n2).
  pose proof (@best_score_attained n1 n2 (le_n _) (le_n _)) as E.
  cbv zeta in E. fold x c p in E.
  destruct (@path_rows A seq1 seq2 gap_open gap_ext match_fun (n1 + n2)
              c n1 n2 (le_n _) (le_n _) (le_n _)
              (best_state_live seq1 seq2 gap_open gap_ext match_fun n1 n2))
    as (D & S1 & S2).
  fold p in D, S1, S2.
  assert (U : forall c0, F64.le (cell_score c0 x) (cell_score c x))
    by (intros c0; apply best_score_upper).
  destruct (cell_score c x) as [|q] eqn:Eq; [contradiction |].
  cbn [F64.eq] in E.
  exists q, (rev (map (emit1 seq1) p)), (rev (map (emit2 seq2) p)).
  split; [reflexivity |]. split; [| split].
  - assert (D' := no_double_gap_rev _ _ D).
    split; [now apply no_double_gap_length |]. split; [exact D' |].
    now rewrite !strip_rev, S1, S2, !rev_involutive, !firstn_all.
  - rewrite alignment_score_rev by (now rewrite !length_map).
    now symmetry.
  - intros r1 r2 (HL & HD & H1 & H2).
    rewrite <- (rev_involutive r1), <- (rev_involutive r2).
    rewrite alignment_score_rev by (now rewrite !length_rev).
    pose proof (@rev_score_bound (rev r1) (rev r2) n1 n2 (le_n _) (le_n _)
                  (no_double_gap_rev _ _ HD)) as B.
    rewrite !strip_rev, H1, H2, !firstn_all in B.
    specialize (B eq_refl eq_refl). fold x in B.
    exact (f64_le_trans _ _ _ B (U _)).
Qed.

End Optimality.

(** X9.  Optimality of the score.  For [gap_open <= gap_ext] the seed
    of [s_x[0][0]] is harmless: the returned score is the largest
    affine-gap score of a global alignment, and the returned rows attain
    it. *)
Theorem glob_affine_gap_optimal (A : Type) (seq1 seq2 : list A)
        (gap_open gap_ext : Q) (match_fun : A -> A -> Q) :
  (gap_open <= gap_ext)%Q ->
  exists q row1 row2,
    glob_affine_gap seq1 seq2 gap_open gap_ext match_fun
    = Ok (Fin q, row1, row2) /\
    global_alignment seq1 seq2 row1 row2 /\
    (alignment_score gap_open gap_ext match_fun row1 row2 == q)%Q /\
    forall r1 r2,
      global_alignment seq1 seq2 r1 r2 ->
      (alignment_score gap_open gap_ext match_fun r1 r2 <= q)%Q.
Proof. intros H. now apply glob_affine_gap_best. Qed.

Lemma glob_affine_gap_optimal_witness :
  exists q row1 row2,
    glob_affine_gap [0.1; 0.2; 0.3; 0.4]%Q [0.1; 0.3; 0.4]%Q (-4) (-3)
                    (fun p q => 100 * (0.1 - Qabs (p - q)))%Q
    = Ok (Fin q, row1, row2) /\
    global_alignment [0.1; 0.2; 0.3; 0.4]%Q [0.1; 0.3; 0.4]%Q row1 row2 /\
    (alignment_score (-4) (-3) (fun p q => 100 * (0.1 - Qabs (p - q)))%Q
                     row1 row2 == q)%Q /\
    forall r1 r2,
      global_alignment [0.1; 0.2; 0.3; 0.4]%Q [0.1; 0.3; 0.4]%Q r1 r2 ->
      (alignment_score (-4) (-3) (fun p q => 100 * (0.1 - Qabs (p - q)))%Q
                       r1 r2 <= q)%Q.
Proof.
  apply (@glob_affine_gap_optimal Q). discriminate.
Defined.

(* ------------------------------------------------------------------ *)
(** ** [glob_affine_gap]: symmetry, identity, optimality of the score *)
(* ------------------------------------------------------------------ *)

(** The match function of [fit_to_model] and [alignment]
    (nanopore.py, lines 105 and 120). *)
Lemma match_lines_sym (p q : Q) :
  (100 * (0.1 - Qabs (p - q)) == 100 * (0.1 - Qabs (q - p)))%Q.
Proof.
  assert (E : (Qabs (p - q) == Qabs (q - p))%Q).
  { rewrite <- (Qabs_opp (p - q)). apply Qabs_wd. ring. }
  now rewrite E.
Qed.

(** C7, as the code behaves.  Exchanging the two sequences leaves the
    score unchanged when the match function is symmetric. *)
Theorem glob_affine_gap_symmetric_score (A : Type) (seqA seqB : list A)
        (gap_open gap_ext : Q) (match_fun : A -> A -> Q) :
  (forall x y, match_fun x y == match_fun y x)%Q ->
  (gap_open < 0)%Q -> (gap_ext < 0)%Q ->
  exists s row1 row2 s' row1' row2',
    glob_affine_gap seqA seqB gap_open gap_ext match_fun
    = Ok (s, row1, row2) /\
    glob_affine_gap seqB seqA gap_open gap_ext match_fun
    = Ok (s', row1', row2') /\
    F64.eq s s'.
Proof.
  intros Hsym _ _. now apply glob_affine_gap_score_sym.
Qed.

Lemma glob_affine_gap_symmetric_score_witness :
  exists s row1 row2 s' row1' row2',
    glob_affine_gap [0.1; 0.2; 0.3; 0.4]%Q [0.1; 0.3; 0.4]%Q (-4) (-3)
                    (fun p q => 100 * (0.1 - Qabs (p - q)))%Q
    = Ok (s, row1, row2) /\
    glob_affine_gap [0.1; 0.3; 0.4]%Q [0.1; 0.2; 0.3; 0.4]%Q (-4) (-3)
                    (fun p q => 100 * (0.1 - Qabs (p - q)))%Q
    = Ok (s', row1', row2') /\
    F64.eq s s'.
Proof.
  apply (@glob_affine_gap_symmetric_score Q);
    [exact match_lines_sym | reflexivity | reflexivity].
Defined.

(** C7, as stated, fails.  With the penalties and the match function of
    [fit_to_model], [[0.0]] against [[1.0]] ties X with Y at the end; both
    calls start the traceback in X, so the second pair of rows is not the
    first pair exchanged. *)
Lemma glob_affine_gap_not_mirrored :
  let f := (fun p q => 100 * (0.1 - Qabs (p - q)))%Q in
  (forall x y, f x y == f y x)%Q /\ (-2 < 0)%Q /\ (-1 < 0)%Q /\
  glob_affine_gap [0%Q] [1%Q] (-2) (-1) f
  = Ok (Fin (-4), [None; Some 0%Q], [Some 1%Q; None]) /\
  glob_affine_gap [1%Q] [0%Q] (-2) (-1) f
  = Ok (Fin (-4), [None; Some 1%Q], [Some 0%Q; None]) /\
  ([None; Some 1%Q], [Some 0%Q; None])
  <> ([Some 1%Q; None], [None; Some 0%Q]).
Proof.
  intros f. split; [exact match_lines_sym |].
  repeat split; try reflexivity. discriminate.
Qed.

(** C6, as the code behaves.  When no pair scores more than the constant
    [c] of equal pairs and opening a gap costs at least as much as
    extending one, aligning [S] with itself returns [c * len(S)] and twice
    [S] without gap markers. *)
Theorem glob_affine_gap_identity (A : Type) (S0 : list A)
        (gap_open gap_ext c : Q) (match_fn : A -> A -> Q) :
  S0 <> [] ->
  (gap_open <= gap_ext)%Q -> (gap_ext < 0)%Q -> (0 < c)%Q ->
  (forall x, In x S0 -> match_fn x x == c)%Q ->
  (forall x y, In x S0 -> In y S0 -> match_fn x y <= c)%Q ->
  exists q,
    glob_affine_gap S0 S0 gap_open gap_ext match_fn
    = Ok (Fin q, map Some S0, map Some S0) /\
    (q == c * inject_Z (Z.of_nat (length S0)))%Q.
Proof.
  intros Hne H1 H2 H3 H4 H5. now apply glob_affine_gap_self.
Qed.

Lemma glob_affine_gap_identity_witness :
  exists q,
    glob_affine_gap [0.1; 0.2]%Q [0.1; 0.2]%Q (-4) (-3)
                    (fun p q => 100 * (0.1 - Qabs (p - q)))%Q
    = Ok (Fin q, [Some 0.1; Some 0.2]%Q, [Some 0.1; Some 0.2]%Q) /\
    (q == 10 * inject_Z 2)%Q.
Proof.
  apply (@glob_affine_gap_identity Q [0.1; 0.2]%Q (-4) (-3) 10
           (fun p q => 100 * (0.1 - Qabs (p - q)))%Q).
  - discriminate.
  - discriminate.
  - reflexivity.
  - reflexivity.
  - intros x [<- | [<- | []]]; reflexivity.
  - intros x y [<- | [<- | []]] [<- | [<- | []]]; discriminate.
Defined.

(** C6, as stated, fails.  [match_fn(p, q) = 1 + 100 * |p - q|] gives 1
    to every equal pair, yet pairing 2 with 1 between two gaps scores
    [101 - 4], more than the two equal pairs. *)
Lemma glob_affine_gap_identity_fails :
  let f := (fun p q => 1 + 100 * Qabs (p - q))%Q in
  (forall x, f x x == 1)%Q /\ (0 < 1)%Q /\ (-2 < 0)%Q /\ (-1 < 0)%Q /\
  glob_affine_gap [1%Q; 2%Q] [1%Q; 2%Q] (-2) (-1) f
  = Ok (Fin 97, [None; Some 1%Q; Some 2%Q], [Some 1%Q; Some 2%Q; None]) /\
  ~ (97 == 1 * inject_Z 2)%Q.
Proof.
  intros f. split.
  { intros x. unfold f.
    assert (E : (Qabs (x - x) == 0)%Q).
    { setoid_replace (x - x)%Q with 0%Q by ring. reflexivity. }
    rewrite E. ring. }
  repeat split; try reflexivity. discriminate.
Qed.

(** A run of [L >= 1] gap markers costs no less than opening a gap. *)
Lemma run_penalty_le_open (gap_open gap_ext : Q) (L : nat) :
  (gap_ext < 0)%Q -> (1 <= L)%nat ->
  (run_penalty gap_open gap_ext L <= gap_open)%Q.
Proof.
  intros He HL. unfold run_penalty.
  destruct L as [|k]; [lia |].
  replace (Z.of_nat (S k) - 1) with (Z.of_nat k) by lia.
  assert (H : (0 <= inject_Z (Z.of_nat k))%Q).
  { change 0%Q with (inject_Z 0). rewrite <- Zle_Qle. lia. }
  assert (H' : (0 <= inject_Z (Z.of_nat k) * - gap_ext)%Q).
  { apply Qmult_le_0_compat; [exact H | lra]. }
  lra.
Qed.

Lemma gap_runs_from_pos (A : Type) (row : list (option A)) (run : nat) :
  Forall (fun L => (1 <= L)%nat) (gap_runs_from run row).
Proof.
  revert run. induction row as [|[a|] row IH]; intros run; simpl.
  - destruct run; constructor; [lia | constructor].
  - destruct run; [apply IH |]. constructor; [lia | apply IH].
  - apply IH.
Qed.

Lemma gap_score_nonpos (A : Type) (gap_open gap_ext : Q)
      (row : list (option A)) :
  (gap_open < 0)%Q -> (gap_ext < 0)%Q ->
  (gap_score gap_open gap_ext row <= 0)%Q.
Proof.
  intros Ho He. unfold gap_score, gap_runs.
  induction (gap_runs_from_pos row 0) as [|L runs HL _ IH]; simpl.
  - apply Qle_refl.
  - pose proof (@run_penalty_le_open gap_open gap_ext L He HL). lra.
Qed.

Lemma pair_score_le (A : Type) (match_fun : A -> A -> Q)
      (row1 row2 : list (option A)) :
  (forall a b, match_fun a b <= 0)%Q ->
  (pair_score match_fun row1 row2 <= 0)%Q.
Proof.
  intros H. revert row2.
  induction row1 as [|[a|] row1 IH]; intros [|[b|] row2]; simpl;
    try apply Qle_refl; try apply IH.
  specialize (IH row2). specialize (H a b). lra.
Qed.

(** C1.  With [gap_open = -1], [gap_ext = -5] and a match function that
    is 0 everywhere, no global alignment of [[1.0]] with [[2.0]] scores
    more than 0, and the alignment the code returns scores 0; the score
    the code returns is 4: [s_m[1][1]] was reached from the seed
    [s_x[0][0] = gap_open - gap_ext = 4] instead of [s_m[0][0] = 0]. *)
Theorem glob_affine_gap_score_above_optimum :
  let f := (fun _ _ : Q => 0%Q) in
  (-1 < 0)%Q /\ (-5 < 0)%Q /\
  glob_affine_gap [1%Q] [2%Q] (-1) (-5) f
  = Ok (Fin 4, [Some 1%Q], [Some 2%Q]) /\
  global_alignment [1%Q] [2%Q] [Some 1%Q] [Some 2%Q] /\
  (alignment_score (-1) (-5) f [Some 1%Q] [Some 2%Q] == 0)%Q /\
  (forall row1 row2,
      global_alignment [1%Q] [2%Q] row1 row2 ->
      (alignment_score (-1) (-5) f row1 row2 <= 0)%Q) /\
  ~ (4 <= 0)%Q.
Proof.
  intros f.
  split; [reflexivity |]. split; [reflexivity |]. split; [reflexivity |].
  split; [| split; [reflexivity | split]].
  - repeat split; try reflexivity. left; discriminate.
  - intros row1 row2 _. unfold alignment_score.
    pose proof (@pair_score_le Q f row1 row2
                  (fun _ _ => Qle_refl 0)) as P.
    pose proof (@gap_score_nonpos Q (-1) (-5) row1 eq_refl eq_refl) as G1.
    pose proof (@gap_score_nonpos Q (-1) (-5) row2 eq_refl eq_refl) as G2.
    lra.
  - apply Qlt_not_le. reflexivity.
Qed.

(* ================================================================== *)
(** * Further properties *)
(* ================================================================== *)

(* ------------------------------------------------------------------ *)
(** ** [fill_gaps]: what every position of the result holds *)
(* ------------------------------------------------------------------ *)

Lemma nth_replace_nth (X : Type) (l : list X) (i k : nat) (v d : X) :
  (i < length l)%nat ->
  nth k (replace_nth l i v) d = if (k =? i)%nat then v else nth k l d.
Proof.
  revert i k. induction l as [|h t IH]; intros i k Hi; simpl in Hi; [lia |].
  destruct i as [|i], k as [|k]; simpl; auto.
  apply IH. lia.
Qed.

(** Lines 92-94: closing a run anchored at [o] by the value at [i]. *)
Lemma interpolate_run (o i : nat) (l r : Q) (res : list Q) :
  (o < i)%nat -> (i < length res)%nat ->
  exists res',
    for_each (xrange (Z.of_nat o) (Z.of_nat i + 1))
             (interpolate (Z.of_nat o) (Z.of_nat i) l r) res = Ok res' /\
    length res' = length res /\
    forall k,
      nth k res' 0%Q
      = if (o <=? k)%nat && (k <? i)%nat then (l + (r - l) * 0)%Q
        else if (k =? i)%nat then (l + (r - l) * 1)%Q
             else nth k res 0%Q.
Proof.
  intros Hoi Hi.
  replace (Z.of_nat i + 1) with (Z.of_nat o + Z.of_nat (i - o + 1)) by lia.
  destruct (@for_each_xrange (list Q)
              (fun m res' =>
                 length res' = length res /\
                 forall k,
                   nth k res' 0%Q
                   = if (o <=? k)%nat && (k <? o + m)%nat
                     then (if (k =? i)%nat then (l + (r - l) * 1)%Q
                           else (l + (r - l) * 0)%Q)
                     else nth k res 0%Q)
              (interpolate (Z.of_nat o) (Z.of_nat i) l r)
              (Z.of_nat o) (i - o + 1)%nat res) as (res' & E & L & H).
  - split; [reflexivity |]. intros k.
    destruct (o <=? k)%nat eqn:E1; simpl; [| reflexivity].
    destruct (Nat.ltb_spec k (o + 0)); [| reflexivity].
    apply Nat.leb_le in E1. lia.
  - intros m res0 Hm [L0 H0].
    rewrite <- Nat2Z.inj_add.
    assert (Hs : interpolate (Z.of_nat o) (Z.of_nat i) l r
                             (Z.of_nat (o + m)) res0
                 = Ok (replace_nth res0 (o + m)
                         (if (o + m =? i)%nat then (l + (r - l) * 1)%Q
                          else (l + (r - l) * 0)%Q))).
    { destruct (Nat.eqb_spec (o + m) i) as [Ei | Ei].
      - rewrite Ei, interpolate_closing by lia.
        apply setitem_nat. lia.
      - rewrite interpolate_inside by lia.
        apply setitem_nat. lia. }
    rewrite Hs. eexists. split; [reflexivity |].
    split; [now rewrite replace_nth_length |].
    intros k. rewrite nth_replace_nth by lia. rewrite H0.
    destruct (Nat.eqb_spec k (o + m)) as [-> | Hk].
    + replace (o <=? o + m)%nat with true
        by (symmetry; apply Nat.leb_le; lia).
      replace (o + m <? o + S m)%nat with true
        by (symmetry; apply Nat.ltb_lt; lia).
      reflexivity.
    + destruct (o <=? k)%nat eqn:E1; simpl; [| reflexivity].
      destruct (Nat.ltb_spec k (o + m)), (Nat.ltb_spec k (o + S m));
        try reflexivity; lia.
  - exists res'. split; [exact E |]. split; [exact L |].
    intros k. rewrite H.
    destruct (o <=? k)%nat eqn:E1; simpl; [| 
      apply Nat.leb_nle in E1;
      destruct (Nat.eqb_spec k i); [lia | reflexivity]].
    apply Nat.leb_le in E1.
    destruct (Nat.ltb_spec k (o + (i - o + 1))), (Nat.ltb_spec k i),
      (Nat.eqb_spec k i); try reflexivity; lia.
Qed.

Lemma real_gap_clash (row : list (option Q)) (k : nat) (v : Q) :
  real_at row k v -> gap_at row k -> False.
Proof. unfold real_at, gap_at. congruence. Qed.

Lemma real_at_inj (row : list (option Q)) (k : nat) (v w : Q) :
  real_at row k v -> real_at row k w -> v = w.
Proof. unfold real_at. congruence. Qed.

Lemma fill_inv_init (row : list (option Q)) (x : option Q) :
  nth_error row 0 = Some x ->
  fill_inv row 0
           (repeat 0%Q (length row),
            match x with Some _ => None | None => Some 0 end).
Proof.
  intros H. unfold fill_inv. cbn [fst snd].
  assert (Z0 : forall k, nth k (repeat 0%Q (length row)) 0%Q = 0%Q)
    by (intros k; apply nth_repeat).
  split; [apply repeat_length |]. split; [auto |].
  split; [intros; lia |]. split; [intros; lia |]. split; [intros; lia |].
  destruct x as [v|].
  - exists v. exact H.
  - exists 0%nat. split; [reflexivity |].
    split; [right; auto |]. split; [intros k Hk; lia |].
    split; [auto |]. right. auto.
Qed.

Lemma fill_step_inv (row : list (option Q)) (i : nat)
      (s : list Q * option Z) :
  (i < length row)%nat ->
  fill_inv row i s ->
  exists s', fill_step row (0 + Z.of_nat i) s = Ok s' /\
             fill_inv row (S i) s'.
Proof.
  intros Hi Inv. destruct s as [res og].
  destruct Inv as (L & Zr & R & G & Ld & O). cbn [fst snd] in *.
  rewrite Z.add_0_l.
  destruct (nth_error row i) as [x|] eqn:Ex;
    [| apply nth_error_None in Ex; lia].
  pose proof (getitem_nat _ _ Ex) as Gi.
  unfold fill_step.
  destruct og as [z|].
  - (* a run is open *)
    destruct O as (o & -> & Ho & Gb & Z2 & D).
    rewrite Gi. cbn [bind].
    destruct x as [r|].
    + (* closed by [r] *)
      assert (Hoi : (o < i)%nat).
      { destruct Ho as [Ho | (-> & _ & Hg)]; [exact Ho |].
        exfalso. exact (real_gap_clash Ex Hg). }
      destruct (nth_error row o) as [y|] eqn:Ey;
        [| apply nth_error_None in Ey; lia].
      rewrite (getitem_nat _ _ Ey). cbn [bind].
      set (l := match y with Some v => v | None => r end).
      destruct (@interpolate_run o i l r res Hoi ltac:(lia))
        as (res' & E & L' & H').
      rewrite E. cbn [bind]. eexists. split; [reflexivity |].
      assert (Hbelow : forall k, (k < o)%nat ->
                                 nth k res' 0%Q = nth k res 0%Q).
      { intros k Hk. rewrite H'.
        destruct (Nat.leb_spec o k); [lia |]. simpl.
        destruct (Nat.eqb_spec k i); [lia | reflexivity]. }
      assert (Hin : forall k, (o <= k < i)%nat ->
                              nth k res' 0%Q = (l + (r - l) * 0)%Q).
      { intros k Hk. rewrite H'.
        destruct (Nat.leb_spec o k); [| lia].
        destruct (Nat.ltb_spec k i); [reflexivity | lia]. }
      assert (Hat : nth i res' 0%Q = (l + (r - l) * 1)%Q).
      { rewrite H'.
        destruct (Nat.ltb_spec i i); [lia |]. rewrite andb_false_r.
        now rewrite Nat.eqb_refl. }
      assert (Hle : forall e w, (e < i)%nat -> real_at row e w ->
                                (e <= o)%nat).
      { intros e w He Hr.
        destruct (Nat.le_gt_cases e o) as [Hc | Hc]; [exact Hc |].
        exfalso. apply (real_gap_clash Hr). apply Gb. lia. }
      unfold fill_inv. cbn [fst snd].
      split; [lia |]. split; [| split; [| split; [| split]]].
      * intros k Hk. rewrite H'.
        destruct (Nat.ltb_spec k i); [lia |]. rewrite andb_false_r.
        destruct (Nat.eqb_spec k i); [lia |]. apply Zr. lia.
      * intros k v Hk Hv.
        destruct (Nat.eq_dec k i) as [-> | Hki].
        -- rewrite Hat. rewrite (real_at_inj Hv Ex). ring.
        -- pose proof (Hle k v ltac:(lia) Hv) as Hko.
           destruct (Nat.eq_dec k o) as [-> | Hko'].
           ++ rewrite Hin by lia. subst l.
              unfold real_at in Hv. rewrite Ey in Hv.
              injection Hv as ->. ring.
           ++ rewrite Hbelow by lia. apply R; [lia | exact Hv].
      * intros a e l0 r0 k Hk He Ha Hr Hg.
        destruct (Nat.eq_dec e i) as [-> | Hei].
        -- assert (a = o).
           { pose proof (Hle a l0 ltac:(lia) Ha) as Hao.
             destruct (Nat.eq_dec a o) as [Hc | Hc]; [exact Hc |].
             exfalso.
             assert (Hgo : gap_at row o) by (apply Hg; lia).
             destruct D as [[v Hv] | (-> & _)];
               [exact (real_gap_clash Hv Hgo) | lia]. }
           subst a. rewrite Hin by lia. subst l.
           unfold real_at in Ha. rewrite Ey in Ha.
           injection Ha as ->. ring.
        -- pose proof (Hle e r0 ltac:(lia) Hr) as Heo.
           rewrite Hbelow by lia.
           apply (G a e l0 r0 k); auto. lia.
      * intros e r0 k Hk He Hr Hg.
        destruct (Nat.eq_dec e i) as [-> | Hei].
        -- assert (Hgo : gap_at row o) by (apply Hg; lia).
           assert (o = 0%nat).
           { destruct D as [[v Hv] | (-> & _)];
               [exfalso; exact (real_gap_clash Hv Hgo) | reflexivity]. }
           subst o. rewrite Hin by lia. subst l.
           unfold gap_at in Hgo. rewrite Ey in Hgo.
           injection Hgo as ->.
           rewrite (real_at_inj Hr Ex). ring.
        -- pose proof (Hle e r0 ltac:(lia) Hr) as Heo.
           rewrite Hbelow by lia.
           apply (Ld e r0 k); auto. lia.
      * exists r. unfold real_at. now rewrite Nat.sub_1_r.
    + (* the run goes on *)
      eexists. split; [reflexivity |].
      unfold fill_inv. cbn [fst snd].
      split; [exact L |]. split; [| split; [| split; [| split]]].
      * intros k Hk. apply Zr. lia.
      * intros k v Hk Hv.
        destruct (Nat.eq_dec k i) as [-> | Hki];
          [exfalso; exact (real_gap_clash Hv Ex) |].
        apply R; [lia | exact Hv].
      * intros a e l0 r0 k Hk He Ha Hr Hg.
        destruct (Nat.eq_dec e i) as [-> | Hei];
          [exfalso; exact (real_gap_clash Hr Ex) |].
        apply (G a e l0 r0 k); auto. lia.
      * intros e r0 k Hk He Hr Hg.
        destruct (Nat.eq_dec e i) as [-> | Hei];
          [exfalso; exact (real_gap_clash Hr Ex) |].
        apply (Ld e r0 k); auto. lia.
      * exists o. split; [reflexivity |].
        split; [left; destruct Ho as [Ho | (-> & -> & _)]; lia |].
        split; [| split; [exact Z2 | exact D]].
        intros k Hk. destruct (Nat.eq_dec k i) as [-> | Hki];
          [exact Ex | apply Gb; lia].
  - (* no run is open *)
    destruct O as (v0 & Hv0).
    rewrite Gi. cbn [bind].
    destruct x as [v|].
    + rewrite setitem_nat by lia. cbn [bind].
      eexists. split; [reflexivity |].
      assert (Hn : forall k, k <> i ->
                   nth k (replace_nth res i v) 0%Q = nth k res 0%Q).
      { intros k Hk. rewrite nth_replace_nth by lia.
        destruct (Nat.eqb_spec k i); [lia | reflexivity]. }
      unfold fill_inv. cbn [fst snd].
      split; [now rewrite replace_nth_length |].
      split; [| split; [| split; [| split]]].
      * intros k Hk. rewrite Hn by lia. apply Zr. lia.
      * intros k w Hk Hw.
        destruct (Nat.eq_dec k i) as [-> | Hki].
        -- rewrite nth_replace_nth, Nat.eqb_refl by lia.
           rewrite (real_at_inj Hw Ex). reflexivity.
        -- rewrite Hn by lia. apply R; [lia | exact Hw].
      * intros a e l0 r0 k Hk He Ha Hr Hg.
        destruct (Nat.eq_dec e i) as [-> | Hei].
        -- exfalso. apply (real_gap_clash Hv0). apply Hg. lia.
        -- rewrite Hn by lia. apply (G a e l0 r0 k); auto. lia.
      * intros e r0 k Hk He Hr Hg.
        destruct (Nat.eq_dec e i) as [-> | Hei].
        -- exfalso. apply (real_gap_clash Hv0). apply Hg. lia.
        -- rewrite Hn by lia. apply (Ld e r0 k); auto. lia.
      * exists v. unfold real_at. now rewrite Nat.sub_1_r.
    + destruct i as [|i0];
        [exfalso; exact (real_gap_clash Hv0 Ex) |].
      cbn [Nat.sub] in Hv0. rewrite Nat.sub_0_r in Hv0.
      replace (Z.of_nat (S i0) - 1) with (Z.of_nat i0) by lia.
      eexists. split; [reflexivity |].
      unfold fill_inv. cbn [fst snd].
      split; [exact L |]. split; [| split; [| split; [| split]]].
      * intros k Hk. apply Zr. lia.
      * intros k v Hk Hv.
        destruct (Nat.eq_dec k (S i0)) as [-> | Hki];
          [exfalso; exact (real_gap_clash Hv Ex) |].
        apply R; [lia | exact Hv].
      * intros a e l0 r0 k Hk He Ha Hr Hg.
        destruct (Nat.eq_dec e (S i0)) as [-> | Hei];
          [exfalso; exact (real_gap_clash Hr Ex) |].
        apply (G a e l0 r0 k); auto. lia.
      * intros e r0 k Hk He Hr Hg.
        destruct (Nat.eq_dec e (S i0)) as [-> | Hei];
          [exfalso; exact (real_gap_clash Hr Ex) |].
        apply (Ld e r0 k); auto. lia.
      * exists i0. split; [reflexivity |]. split; [left; lia |].
        split; [| split; [| left; eauto]].
        -- intros k Hk. assert (k = S i0) by lia. subst k. exact Ex.
        -- intros k Hk. apply Zr. lia.
Qed.

(** [fill_gaps] on a non-empty row returns, and the scanning invariant
    holds of all positions. *)
Lemma fill_gaps_inv (row : list (option Q)) :
  row <> [] ->
  exists res og,
    fill_gaps row = Ok res /\ fill_inv row (length row) (res, og).
Proof.
  intros Hne. unfold fill_gaps.
  destruct row as [|x row'] eqn:Erow; [congruence |].
  rewrite <- Erow in *.
  assert (E0 : nth_error row 0 = Some x) by (now rewrite Erow).
  change 0 with (Z.of_nat 0) at 1.
  rewrite (getitem_nat _ _ E0). cbn [bind].
  change (Z.of_nat (length row)) with (0 + Z.of_nat (length row)).
  destruct (@for_each_xrange (list Q * option Z) (fill_inv row)
              (fill_step row) 0 (length row) _ (fill_inv_init row E0))
    as ([res og] & E & H).
  - intros k s0 Hk Hs0. now apply fill_step_inv.
  - rewrite E. cbn [bind fst]. now exists res, og.
Qed.

Lemma real_at_bound (row : list (option Q)) (k : nat) (v : Q) :
  real_at row k v -> (k < length row)%nat.
Proof. intros H. apply nth_error_Some. unfold real_at in H. congruence. Qed.

Lemma real_at_nonempty (row : list (option Q)) (k : nat) (v : Q) :
  real_at row k v -> row <> [].
Proof. intros H ->. destruct k; discriminate. Qed.

Lemma fill_gaps_same_length (row : list (option Q)) :
  row <> [] ->
  exists res, fill_gaps row = Ok res /\ length res = length row.
Proof.
  intros Hne.
  destruct (fill_gaps_inv Hne) as (res & og & E & L & _).
  now exists res.
Qed.

(** X1.  [fill_gaps] raises [IndexError] on the empty row; on every other
    row it returns a sequence of the same length. *)
Theorem fill_gaps_length :
  fill_gaps [] = Raise IndexError /\
  forall row, row <> [] ->
    exists res, fill_gaps row = Ok res /\ length res = length row.
Proof.
  split; [reflexivity |]. intros row Hne.
  now apply fill_gaps_same_length.
Qed.

Lemma fill_gaps_length_witness :
  exists res,
    fill_gaps [None; Some 5%Q; None; Some 7%Q; None] = Ok res /\
    length res = 5%nat.
Proof.
  destruct fill_gaps_length as [_ H].
  apply (H [None; Some 5%Q; None; Some 7%Q; None]). discriminate.
Defined.



(** X3.  A run of gaps between two values is filled with the value on its
    left: the rate of line 93 is 0 at every position inside the run. *)
Theorem fill_gaps_inside_run (row : list (option Q)) (a e k : nat)
        (l r : Q) :
  real_at row a l -> real_at row e r -> gaps_between row a e ->
  (a < k < e)%nat ->
  exists res x,
    fill_gaps row = Ok res /\ nth_error res k = Some x /\ (x == l)%Q.
Proof.
  intros Ha He Hg Hk.
  destruct (fill_gaps_inv (real_at_nonempty Ha))
    as (res & og & E & L & _ & _ & G & _).
  cbn [fst] in *.
  pose proof (real_at_bound He) as Hb.
  exists res, (nth k res 0%Q). split; [exact E |].
  split; [apply nth_error_nth'; lia |].
  apply (G a e l r k); auto.
Qed.

Lemma fill_gaps_inside_run_witness :
  exists res x,
    fill_gaps [Some 2%Q; None; None; Some 8%Q] = Ok res /\
    nth_error res 2 = Some x /\ (x == 2)%Q.
Proof.
  apply (@fill_gaps_inside_run [Some 2%Q; None; None; Some 8%Q] 0 3 2 2 8).
  - reflexivity.
  - reflexivity.
  - intros k Hk. destruct k as [|[|[|k]]]; try lia; reflexivity.
  - lia.
Defined.

(** X4.  The gaps before the first value are filled with that value. *)
Theorem fill_gaps_leading (row : list (option Q)) (e k : nat) (r : Q) :
  real_at row e r ->
  (forall k', (k' < e)%nat -> gap_at row k') ->
  (k < e)%nat ->
  exists res x,
    fill_gaps row = Ok res /\ nth_error res k = Some x /\ (x == r)%Q.
Proof.
  intros He Hg Hk.
  destruct (fill_gaps_inv (real_at_nonempty He))
    as (res & og & E & L & _ & _ & _ & Ld & _).
  cbn [fst] in *.
  pose proof (real_at_bound He) as Hb.
  exists res, (nth k res 0%Q). split; [exact E |].
  split; [apply nth_error_nth'; lia |].
  apply (Ld e r k); auto.
Qed.

Lemma fill_gaps_leading_witness :
  exists res x,
    fill_gaps [None; None; Some 5%Q; None; Some 5%Q] = Ok res /\
    nth_error res 0 = Some x /\ (x == 5)%Q.
Proof.
  apply (@fill_gaps_leading [None; None; Some 5%Q; None; Some 5%Q] 2 0 5).
  - reflexivity.
  - intros k Hk. destruct k as [|[|k]]; try lia; reflexivity.
  - lia.
Defined.

(** X5.  The gaps after the last value stay zero: the run they open is
    never closed, and nothing is extrapolated to the right. *)
Theorem fill_gaps_trailing (row : list (option Q)) (k : nat) :
  (k < length row)%nat ->
  (forall k', (k <= k' < length row)%nat -> gap_at row k') ->
  exists res, fill_gaps row = Ok res /\ nth_error res k = Some 0%Q.
Proof.
  intros Hk Hg.
  assert (Hne : row <> []) by (intros ->; simpl in Hk; lia).
  destruct (fill_gaps_inv Hne) as (res & og & E & L & _ & _ & _ & _ & O).
  cbn [fst snd] in *.
  exists res. split; [exact E |].
  assert (Z0 : nth k res 0%Q = 0%Q).
  { destruct og as [z|].
    - destruct O as (o & _ & Ho & _ & Z2 & D).
      destruct (Nat.lt_ge_cases o k) as [Hc | Hc]; [now apply Z2 |].
      assert (Hgo : gap_at row o) by (apply Hg; lia).
      destruct D as [[v Hv] | (_ & _ & Hz)];
        [exfalso; exact (real_gap_clash Hv Hgo) | apply Hz].
    - destruct O as (v & Hv). exfalso.
      apply (real_gap_clash Hv). apply Hg. lia. }
  rewrite <- Z0. apply nth_error_nth'. lia.
Qed.

Lemma fill_gaps_trailing_witness :
  exists res,
    fill_gaps [Some 1%Q; Some 3%Q; None; None] = Ok res /\
    nth_error res 2 = Some 0%Q.
Proof.
  apply (@fill_gaps_trailing [Some 1%Q; Some 3%Q; None; None] 2).
  - simpl. lia.
  - intros k Hk. simpl in Hk.
    destruct k as [|[|[|[|k]]]]; try lia; reflexivity.
Defined.

Lemma replace_nth_middle (X : Type) (a b : list X) (x v : X) :
  replace_nth (a ++ x :: b) (length a) v = a ++ v :: b.
Proof. induction a as [|h a IH]; simpl; [reflexivity | now rewrite IH]. Qed.

(** A row without gaps is returned as it is. *)
Lemma fill_gaps_no_gaps (values : list Q) :
  values <> [] ->
  fill_gaps (map Some values) = Ok values.
Proof.
  intros Hne. unfold fill_gaps. rewrite length_map.
  destruct values as [|v0 rest] eqn:Ev; [congruence |].
  rewrite <- Ev in *.
  assert (E0 : nth_error (map Some values) 0 = Some (Some v0))
    by (now rewrite Ev).
  change 0 with (Z.of_nat 0) at 1.
  rewrite (getitem_nat _ _ E0). cbn [bind].
  set (n := length values).
  change (Z.of_nat n) with (0 + Z.of_nat n).
  destruct (@for_each_xrange (list Q * option Z)
              (fun i s => s = (firstn i values ++ repeat 0%Q (n - i), None))
              (fill_step (map Some values)) 0 n (repeat 0%Q n, None))
    as (s & E & H).
  - simpl. now rewrite Nat.sub_0_r.
  - intros i s0 Hi ->. rewrite Z.add_0_l. unfold fill_step.
    destruct (nth_error values i) as [v|] eqn:Evi;
      [| apply nth_error_None in Evi; lia].
    assert (Ei : nth_error (map Some values) i = Some (Some v))
      by (now rewrite nth_error_map, Evi).
    rewrite (getitem_nat _ _ Ei). cbn [bind].
    assert (Li : length (firstn i values) = i)
      by (rewrite length_firstn; lia).
    rewrite setitem_nat
      by (rewrite length_app, repeat_length, Li; lia).
    cbn [bind]. eexists. split; [reflexivity |]. f_equal.
    replace (n - i)%nat with (S (n - S i)) by lia. cbn [repeat].
    pose proof (replace_nth_middle (firstn i values)
                  (repeat 0%Q (n - S i)) 0%Q v) as RM.
    rewrite Li in RM. rewrite RM.
    rewrite (firstn_snoc _ _ Evi), <- app_assoc. reflexivity.
  - rewrite E. cbn [bind]. rewrite H. cbn [fst].
    subst n. rewrite Nat.sub_diag, firstn_all. apply f_equal, app_nil_r.
Qed.

Lemma fill_gaps_no_gaps_witness :
  fill_gaps (map Some [0.1; 0.2; 0.3]%Q) = Ok [0.1; 0.2; 0.3]%Q.
Proof.
  apply fill_gaps_no_gaps. discriminate.
Defined.

(* ------------------------------------------------------------------ *)
(** ** [glob_affine_gap]: further properties of the result *)
(* ------------------------------------------------------------------ *)

Lemma strip_length (X : Type) (row : list (option X)) :
  (length (strip row) <= length row)%nat.
Proof. induction row as [|[x|] row IH]; simpl; lia. Qed.

Lemma no_double_gap_length_le (X : Type) (row1 row2 : list (option X)) :
  no_double_gap row1 row2 ->
  (length row1 <= length (strip row1) + length (strip row2))%nat.
Proof.
  revert row2. induction row1 as [|x row1 IH]; intros [|y row2] H;
    simpl in H; try tauto; try (simpl; lia).
  destruct H as [Hxy H]. specialize (IH row2 H).
  destruct x, y; simpl; try lia. destruct Hxy; congruence.
Qed.

Lemma glob_affine_gap_rows (A : Type) (seq1 seq2 : list A)
        (gap_open gap_ext : Q) (match_fun : A -> A -> Q) :
  exists score row1 row2,
    glob_affine_gap seq1 seq2 gap_open gap_ext match_fun
    = Ok (score, row1, row2) /\
    length row1 = length row2 /\
    (Nat.max (length seq1) (length seq2) <= length row1)%nat /\
    (length row1 <= length seq1 + length seq2)%nat.
Proof.
  destruct (glob_affine_gap_alignment seq1 seq2 gap_open gap_ext match_fun)
    as (score & row1 & row2 & E & L & D & S1 & S2).
  exists score, row1, row2. split; [exact E |]. split; [exact L |].
  pose proof (strip_length row1) as B1.
  pose proof (strip_length row2) as B2.
  pose proof (no_double_gap_length_le _ _ D) as B3.
  rewrite S1 in B1, B3. rewrite S2 in B2, B3. lia.
Qed.

(** X6.  The two rows are at least as long as the longer input and at most as
    long as both inputs together. *)
Theorem glob_affine_gap_length (A : Type) (seq1 seq2 : list A)
        (gap_open gap_ext : Q) (match_fun : A -> A -> Q) :
  exists score row1 row2,
    glob_affine_gap seq1 seq2 gap_open gap_ext match_fun
    = Ok (score, row1, row2) /\
    length row1 = length row2 /\
    (Nat.max (length seq1) (length seq2) <= length row1)%nat /\
    (length row1 <= length seq1 + length seq2)%nat.
Proof.
  apply glob_affine_gap_rows.
Qed.

Lemma rows_against_empty (X : Type) (row1 row2 : list (option X)) :
  no_double_gap row1 row2 -> strip row2 = [] ->
  row1 = map Some (strip row1) /\ row2 = repeat None (length (strip row1)).
Proof.
  revert row2. induction row1 as [|x row1 IH]; intros [|y row2] H S2;
    simpl in H; try tauto; try (now split).
  destruct H as [Hxy H].
  destruct y as [b|]; [discriminate |]. simpl in S2.
  destruct x as [a|]; [| destruct Hxy; congruence].
  destruct (IH row2 H S2) as [E1 E2]. simpl. now rewrite <- E1, <- E2.
Qed.

Lemma glob_affine_gap_nil_r (A : Type) (seq1 : list A)
        (gap_open gap_ext : Q) (match_fun : A -> A -> Q) :
  seq1 <> [] ->
  glob_affine_gap seq1 [] gap_open gap_ext match_fun
  = Ok (Fin (gap_open
             + inject_Z (Z.of_nat (length seq1) - 1) * gap_ext),
        map Some seq1, repeat None (length seq1)).
Proof.
  intros Hne.
  destruct (glob_affine_gap_alignment seq1 [] gap_open gap_ext match_fun)
    as (score & row1 & row2 & E & L & D & S1 & S2).
  destruct (rows_against_empty _ _ D S2) as [E1 E2].
  rewrite S1 in E1, E2. subst row1 row2.
  rewrite E. rewrite glob_affine_gap_path in E.
  injection E as E _ _. rewrite <- E.
  rewrite table_border by auto.
  destruct seq1 as [|a s]; [congruence |]. reflexivity.
Qed.

(** X7.  Aligning a non-empty sequence with the empty one gives the sequence
    against a single run of gaps, and [gap_open + (len - 1) * gap_ext] as
    score, whatever the penalties and the match function. *)
Theorem glob_affine_gap_against_empty (A : Type) (seq1 : list A)
        (gap_open gap_ext : Q) (match_fun : A -> A -> Q) :
  seq1 <> [] ->
  glob_affine_gap seq1 [] gap_open gap_ext match_fun
  = Ok (Fin (gap_open
             + inject_Z (Z.of_nat (length seq1) - 1) * gap_ext),
        map Some seq1, repeat None (length seq1)).
Proof.
  apply glob_affine_gap_nil_r.
Qed.

Lemma glob_affine_gap_against_empty_witness :
  glob_affine_gap [1%Q; 2%Q; 3%Q] [] (-4) (-3) match_
  = Ok (Fin (-4 + inject_Z (Z.of_nat 3 - 1) * -3),
        [Some 1%Q; Some 2%Q; Some 3%Q], [None; None; None]).
Proof.
  apply (@glob_affine_gap_against_empty Q [1%Q; 2%Q; 3%Q]). discriminate.
Defined.

(** X8.  The returned score is never below the affine-gap score of a global
    alignment of the two inputs, whatever the penalties. *)
Theorem glob_affine_gap_upper_bound (A : Type) (seq1 seq2 : list A)
        (gap_open gap_ext : Q) (match_fun : A -> A -> Q) :
  exists q row1 row2,
    glob_affine_gap seq1 seq2 gap_open gap_ext match_fun
    = Ok (Fin q, row1, row2) /\
    forall r1 r2,
      global_alignment seq1 seq2 r1 r2 ->
      (alignment_score gap_open gap_ext match_fun r1 r2 <= q)%Q.
Proof.
  rewrite glob_affine_gap_path.
  set (x := table seq1 seq2 gap_open gap_ext match_fun
                  (length seq1) (length seq2)).
  pose proof (best_state_live seq1 seq2 gap_open gap_ext match_fun
                (length seq1) (length seq2)) as F.
  unfold live in F. fold x in F.
  assert (U : forall c0, F64.le (cell_score c0 x)
                                (cell_score (best_state x) x))
    by (intros c0; apply best_score_upper).
  destruct (cell_score (best_state x) x) as [|q]; [contradiction |].
  do 3 eexists. split; [reflexivity |].
  intros r1 r2 (HL & HD & H1 & H2).
  rewrite <- (rev_involutive r1), <- (rev_involutive r2).
  rewrite alignment_score_rev by (now rewrite !length_rev).
  pose proof (@rev_score_bound A seq1 seq2 gap_open gap_ext match_fun
                (rev r1) (rev r2) (length seq1) (length seq2)
                (le_n _) (le_n _) (no_double_gap_rev _ _ HD)) as B.
  rewrite !strip_rev, H1, H2, !firstn_all in B.
  specialize (B eq_refl eq_refl). fold x in B.
  exact (f64_le_trans _ _ _ B (U _)).
Qed.

Lemma glob_affine_gap_upper_bound_witness :
  exists q row1 row2,
    glob_affine_gap [1%Q] [2%Q] (-1) (-5) (fun _ _ => 0%Q)
    = Ok (Fin q, row1, row2) /\
    (alignment_score (-1) (-5) (fun _ _ : Q => 0%Q)
                     [Some 1%Q; None] [None; Some 2%Q] <= q)%Q.
Proof.
  destruct (@glob_affine_gap_upper_bound Q [1%Q] [2%Q] (-1) (-5)
              (fun _ _ => 0%Q)) as (q & row1 & row2 & E & H).
  exists q, row1, row2. split; [exact E |].
  apply H. repeat split; try reflexivity.
  - left; discriminate.
  - right; discriminate.
Defined.

(** X10.  After the nested loops (lines 144-164) every inner entry of the three
    score arrays is the maximum of its three candidates, computed from the
    final values of its neighbours. *)
Theorem fill_matrices_recurrences (A : Type) (seq1 seq2 : list A)
        (gap_open gap_ext : Q) (match_fun : A -> A -> Q) :
  exists st0 st,
    init_matrices seq1 seq2 gap_open gap_ext = Ok st0 /\
    fill_matrices seq1 seq2 gap_open gap_ext match_fun st0 = Ok st /\
    forall i j a b,
      nth_error seq1 i = Some a -> nth_error seq2 j = Some b ->
      let d := match_fun a b in
      data (s_m st) (S i) (S j)
      = max3 (F64.add (data (s_m st) i j) d)
             (F64.add (data (s_x st) i j) d)
             (F64.add (data (s_y st) i j) d) /\
      data (s_x st) (S i) (S j)
      = max3 (F64.add (data (s_m st) i (S j)) gap_open)
             (F64.add (data (s_x st) i (S j)) gap_ext)
             (F64.add (data (s_y st) i (S j)) gap_open) /\
      data (s_y st) (S i) (S j)
      = max3 (F64.add (data (s_m st) (S i) j) gap_open)
             (F64.add (data (s_x st) (S i) j) gap_open)
             (F64.add (data (s_y st) (S i) j) gap_ext).
Proof.
  destruct (fill_matrices_table seq1 seq2 gap_open gap_ext match_fun)
    as (st0 & st & E0 & E & _ & H).
  exists st0, st. split; [exact E0 |]. split; [exact E |].
  intros i j a b Ha Hb d.
  assert (Hi : (i < length seq1)%nat)
    by (apply nth_error_Some; congruence).
  assert (Hj : (j < length seq2)%nat)
    by (apply nth_error_Some; congruence).
  pose proof (H (S i) (S j) ltac:(lia) ltac:(lia)) as C11.
  pose proof (H i j ltac:(lia) ltac:(lia)) as C00.
  pose proof (H i (S j) ltac:(lia) ltac:(lia)) as C01.
  pose proof (H (S i) j ltac:(lia) ltac:(lia)) as C10.
  rewrite table_inner, (delta_S _ _ _ _ _ Ha Hb) in C11.
  unfold cell_at, inner in *.
  rewrite <- C00, <- C01, <- C10 in C11. cbn [c_m c_x c_y] in C11.
  injection C11 as -> -> -> _ _ _. auto.
Qed.

Lemma fill_matrices_recurrences_witness :
  exists st0 st,
    init_matrices [1%Q; 2%Q] [1%Q] (-4) (-3) = Ok st0 /\
    fill_matrices [1%Q; 2%Q] [1%Q] (-4) (-3) match_ st0 = Ok st /\
    data (s_x st) 2 1
    = max3 (F64.add (data (s_m st) 1 1) (-4))
           (F64.add (data (s_x st) 1 1) (-3))
           (F64.add (data (s_y st) 1 1) (-4)).
Proof.
  destruct (@fill_matrices_recurrences Q [1%Q; 2%Q] [1%Q] (-4) (-3) match_)
    as (st0 & st & E0 & E & H).
  exists st0, st. split; [exact E0 |]. split; [exact E |].
  destruct (H 1%nat 0%nat 2%Q 1%Q eq_refl eq_refl) as (_ & HX & _).
  exact HX.
Defined.

(* ------------------------------------------------------------------ *)
(** ** [theoretical_signal]: length, unknown residues *)
(* ------------------------------------------------------------------ *)

(** The signal of a peptide over the table has
    [len(peptide) + window_size - 2] values. *)
Lemma theoretical_signal_length_witness :
  exists signal,
    theoretical_signal ["A"; "R"; "T"; "K"; "Q"]%char 4 = Ok signal /\
    Z.of_nat (length signal) = Z.of_nat 5 + 4 - 2.
Proof.
  apply (@theoretical_signal_length ["A"; "R"; "T"; "K"; "Q"]%char 4).
  - simpl. lia.
  - lia.
  - repeat constructor; discriminate.
Defined.

Lemma for_each_raises (X S : Type) (body : X -> S -> result S)
      (e : exn) (xs : list X) :
  (forall x s, In x xs ->
               body x s = Raise e \/ exists s', body x s = Ok s') ->
  (exists x, In x xs /\ forall s, body x s = Raise e) ->
  forall s, for_each xs body s = Raise e.
Proof.
  induction xs as [|x xs IH]; intros Hall (y & Hy & Hfail) s;
    [destruct Hy |].
  simpl. destruct (Hall x s (or_introl eq_refl)) as [E | [s' E]];
    rewrite E; [reflexivity |]. cbn [bind].
  destruct Hy as [-> | Hy]; [rewrite Hfail in E; discriminate |].
  apply IH; [| now exists y].
  intros x0 s0 Hx0. apply Hall. now right.
Qed.

Lemma squares_cases (volumes : list (option Q)) :
  squares volumes = Raise TypeError \/ exists sq, squares volumes = Ok sq.
Proof.
  induction volumes as [|[v|] rest IH]; cbn [squares]; eauto.
  destruct IH as [-> | [sq ->]]; cbn [bind]; eauto.
Qed.

Lemma squares_unknown (volumes : list (option Q)) :
  In None volumes -> squares volumes = Raise TypeError.
Proof.
  induction volumes as [|[v|] rest IH]; cbn [squares]; intros H.
  - destruct H.
  - destruct H as [H | H]; [discriminate |]. now rewrite IH.
  - reflexivity.
Qed.

Lemma norm_bound_nat (n k : nat) :
  (k <= n)%nat -> norm_bound n (Z.of_nat k) = k.
Proof.
  intros H. unfold norm_bound.
  destruct (Z.ltb_spec (Z.of_nat k) 0); lia.
Qed.

Lemma slice_nat (X : Type) (l : list X) (a b : nat) :
  (a <= length l)%nat -> (b <= length l)%nat ->
  slice l (Z.of_nat a) (Z.of_nat b) = firstn (b - a) (skipn a l).
Proof.
  intros Ha Hb. unfold slice. now rewrite !norm_bound_nat.
Qed.

Lemma slice_In (X : Type) (l : list X) (a b p : nat) (x : X) :
  (a <= p < b)%nat -> (b <= length l)%nat ->
  nth_error l p = Some x ->
  In x (slice l (Z.of_nat a) (Z.of_nat b)).
Proof.
  intros Hp Hb Hx. rewrite slice_nat by lia.
  apply (nth_error_In _ (p - a)).
  rewrite nth_error_firstn.
  destruct (Nat.ltb_spec (p - a) (b - a)); [| lia].
  rewrite nth_error_skipn. now replace (a + (p - a))%nat with p by lia.
Qed.

(** X12.  With a window of two or more, a residue missing from [VOLUMES]
    anywhere in the peptide makes the call fail with [TypeError]. *)
Theorem theoretical_signal_unknown_residue (peptide : list ascii)
        (window_size : Z) (c : ascii) :
  2 <= window_size ->
  In c peptide ->
  dict_get VOLUMES c = None ->
  theoretical_signal peptide window_size = Raise TypeError.
Proof.
  intros Hw Hc Hnone.
  destruct (In_nth_error _ _ Hc) as (p & Hp).
  assert (Hlen : (p < length peptide)%nat)
    by (apply nth_error_Some; congruence).
  unfold theoretical_signal. apply for_each_raises.
  - intros i s _. unfold window_value.
    destruct (squares_cases
                (map (dict_get VOLUMES)
                   (slice peptide (Z.max i 0)
                      (Z.min (i + window_size)
                         (Z.of_nat (length peptide))))))
      as [-> | [sq ->]]; cbn [bind]; eauto.
  - exists (Z.of_nat p - 1). split.
    + unfold xrange. apply in_map_iff.
      exists (Z.to_nat (Z.of_nat p - 1 - (- window_size + 1))).
      split; [lia |]. apply in_seq. lia.
    + intros s. unfold window_value.
      rewrite squares_unknown; [reflexivity |].
      rewrite <- Hnone. apply in_map.
      set (a := Z.to_nat (Z.max (Z.of_nat p - 1) 0)).
      set (b := Z.to_nat (Z.min (Z.of_nat p - 1 + window_size)
                                (Z.of_nat (length peptide)))).
      replace (Z.max (Z.of_nat p - 1) 0) with (Z.of_nat a) by lia.
      replace (Z.min (Z.of_nat p - 1 + window_size)
                     (Z.of_nat (length peptide)))
        with (Z.of_nat b) by lia.
      apply (@slice_In ascii peptide a b p c); [lia | lia | exact Hp].
Qed.

Lemma theoretical_signal_unknown_residue_witness :
  theoretical_signal ["A"; "G"; "X"]%char 2 = Raise TypeError.
Proof.
  apply (@theoretical_signal_unknown_residue ["A"; "G"; "X"]%char 2
           "X"%char).
  - lia.
  - simpl. auto.
  - reflexivity.
Defined.

Lemma for_each_ext (X S : Type) (body body' : X -> S -> result S)
      (xs : list X) :
  (forall x s, In x xs -> body x s = body' x s) ->
  forall s, for_each xs body s = for_each xs body' s.
Proof.
  induction xs as [|x xs IH]; intros H s; [reflexivity |].
  simpl. rewrite (H x s (or_introl eq_refl)).
  destruct (body' x s); cbn [bind]; auto.
  apply IH. intros x0 s0 Hx0. apply H. now right.
Qed.


(* ------------------------------------------------------------------ *)
(** ** [fit_to_model] and [alignment] *)
(* ------------------------------------------------------------------ *)

Lemma match_same (x : Q) : (match_ x x == 10)%Q.
Proof.
  unfold match_.
  assert (E : (Qabs (x - x) == 0)%Q).
  { setoid_replace (x - x)%Q with 0%Q by ring. reflexivity. }
  rewrite E. reflexivity.
Qed.

Lemma match_le (x y : Q) : (match_ x y <= 10)%Q.
Proof.
  unfold match_. pose proof (Qabs_nonneg (x - y)) as H. lra.
Qed.

Lemma nonempty_length (X : Type) (l : list X) :
  l <> [] -> (0 < length l)%nat.
Proof. destruct l; [congruence | simpl; lia]. Qed.

Lemma project_app (m m' : list (option Q)) (f f' : list Q) :
  length m = length f ->
  project (m ++ m') (f ++ f') = project m f ++ project m' f'.
Proof.
  revert f. induction m as [|x m IH]; intros [|v f] H; simpl in H;
    try discriminate; [reflexivity |].
  injection H as H. destruct x; simpl; now rewrite IH.
Qed.

Lemma project_length (m : list (option Q)) (f : list Q) :
  length m = length f -> length (project m f) = length (strip m).
Proof.
  revert f. induction m as [|x m IH]; intros [|v f] H; simpl in H;
    try discriminate; [reflexivity |].
  injection H as H. destruct x; simpl; now rewrite IH.
Qed.

Lemma project_all (values f : list Q) :
  length values = length f -> project (map Some values) f = f.
Proof.
  revert f. induction values as [|x l IH]; intros [|v f] H; simpl in H;
    try discriminate; [reflexivity |].
  injection H as H. simpl. now rewrite IH.
Qed.

(** Lines 112-115: the projection loop. *)
Lemma trim_loop (aln_model : list (option Q)) (filled_event : list Q) :
  length aln_model = length filled_event ->
  for_each (xrange 0 (Z.of_nat (length filled_event)))
           (trim_step aln_model filled_event) []
  = Ok (project aln_model filled_event).
Proof.
  intros L.
  set (n := length filled_event).
  change (Z.of_nat n) with (0 + Z.of_nat n).
  destruct (@for_each_xrange (list Q)
              (fun k t => t = project (firstn k aln_model)
                                      (firstn k filled_event))
              (trim_step aln_model filled_event) 0 n [] eq_refl)
    as (t & E & H).
  - intros k t0 Hk ->. rewrite Z.add_0_l. unfold trim_step.
    destruct (nth_error aln_model k) as [m|] eqn:Em;
      [| apply nth_error_None in Em; lia].
    destruct (nth_error filled_event k) as [v|] eqn:Ev;
      [| apply nth_error_None in Ev; lia].
    rewrite (getitem_nat _ _ Em). cbn [bind].
    rewrite (firstn_snoc _ _ Em), (firstn_snoc _ _ Ev).
    rewrite project_app by (rewrite !length_firstn; lia).
    destruct m as [w|].
    + rewrite (getitem_nat _ _ Ev). cbn [bind]. eauto.
    + eexists. split; [reflexivity |]. simpl. now rewrite app_nil_r.
  - rewrite E, H. subst n. rewrite <- L at 1. now rewrite !firstn_all.
Qed.

(** X13.  [fit_to_model] fails with [IndexError] when both traces are empty;
    otherwise it returns as many values as the model trace has. *)
Theorem fit_to_model_length :
  fit_to_model [] [] = Raise IndexError /\
  forall model_trace event_trace,
    model_trace <> [] \/ event_trace <> [] ->
    exists trimmed,
      fit_to_model model_trace event_trace = Ok trimmed /\
      length trimmed = length model_trace.
Proof.
  split; [reflexivity |]. intros model_trace event_trace Hne.
  unfold fit_to_model.
  destruct (glob_affine_gap_rows model_trace event_trace (-2) (-1) match_)
    as (score & row1 & row2 & E & L & B1 & B2).
  destruct (glob_affine_gap_alignment model_trace event_trace (-2) (-1)
              match_) as (score' & r1 & r2 & E' & _ & _ & S1 & _).
  rewrite E in E'. injection E' as <- <- <-.
  rewrite E. cbn [bind].
  assert (Hrow : row2 <> []).
  { intros ->. simpl in L.
    destruct Hne as [H | H]; apply nonempty_length in H; lia. }
  pose proof (@fill_gaps_same_length) as F.
  destruct (F row2 Hrow) as (filled & Ef & Lf).
  rewrite Ef. cbn [bind].
  rewrite trim_loop by lia.
  eexists. split; [reflexivity |].
  rewrite project_length by lia. now rewrite S1.
Qed.

Lemma fit_to_model_length_witness :
  exists trimmed,
    fit_to_model [0.1; 0.2; 0.3; 0.4]%Q [0.1; 0.3; 0.4]%Q = Ok trimmed /\
    length trimmed = 4%nat.
Proof.
  destruct fit_to_model_length as [_ H].
  apply (H [0.1; 0.2; 0.3; 0.4]%Q [0.1; 0.3; 0.4]%Q).
  left. discriminate.
Defined.

(** X14.  Fitting a trace to itself gives the trace back. *)
Theorem fit_to_model_self (trace_ : list Q) :
  trace_ <> [] -> fit_to_model trace_ trace_ = Ok trace_.
Proof.
  intros Hne. unfold fit_to_model.
  destruct (@glob_affine_gap_identity Q trace_ (-2) (-1) 10 match_)
    as (q & E & _); try reflexivity; try discriminate; auto.
  - intros x _. apply match_same.
  - intros x y _ _. apply match_le.
  - rewrite E. cbn [bind].
    rewrite fill_gaps_no_gaps by exact Hne. cbn [bind].
    rewrite trim_loop by (now rewrite length_map).
    now rewrite project_all.
Qed.

Lemma fit_to_model_self_witness :
  fit_to_model [0.1; 0.2; 0.3]%Q [0.1; 0.2; 0.3]%Q = Ok [0.1; 0.2; 0.3]%Q.
Proof.
  apply (@fit_to_model_self [0.1; 0.2; 0.3]%Q). discriminate.
Defined.

Lemma project_zeros (values : list Q) :
  project (map Some values) (repeat 0%Q (length values))
  = repeat 0%Q (length values).
Proof. apply project_all. now rewrite repeat_length. Qed.

(** X15.  Fitting an empty event to a model gives zeros, one for each model
    value, and no error. *)
Theorem fit_to_model_empty_event (model_trace : list Q) :
  model_trace <> [] ->
  fit_to_model model_trace [] = Ok (repeat 0%Q (length model_trace)).
Proof.
  intros Hne. unfold fit_to_model.
  rewrite glob_affine_gap_nil_r by exact Hne. cbn [bind].
  assert (Hrow : repeat (@None Q) (length model_trace) <> []).
  { destruct model_trace; [congruence | discriminate]. }
  rewrite (@fill_gaps_all_gaps (repeat None (length model_trace)) Hrow)
    by (apply Forall_forall; intros x Hx; now apply repeat_spec in Hx).
  cbn [bind]. rewrite (repeat_length (@None Q)).
  rewrite trim_loop by (now rewrite length_map, repeat_length).
  now rewrite project_zeros.
Qed.

Lemma fit_to_model_empty_event_witness :
  fit_to_model [0.1; 0.2]%Q [] = Ok [0%Q; 0%Q].
Proof.
  apply (@fit_to_model_empty_event [0.1; 0.2]%Q). discriminate.
Defined.

(** [alignment] fails with [IndexError] when both signals are empty;
    otherwise its two filled signals have one common length, between the
    longer input and both inputs together. *)
Lemma alignment_length :
  alignment [] [] = Raise IndexError /\
  forall signal_1 signal_2,
    signal_1 <> [] \/ signal_2 <> [] ->
    exists score filled_1 filled_2,
      alignment signal_1 signal_2 = Ok (score, filled_1, filled_2) /\
      length filled_1 = length filled_2 /\
      (Nat.max (length signal_1) (length signal_2) <= length filled_1)%nat /\
      (length filled_1 <= length signal_1 + length signal_2)%nat.
Proof.
  split; [reflexivity |]. intros signal_1 signal_2 Hne.
  unfold alignment.
  destruct (glob_affine_gap_rows signal_1 signal_2 (-4) (-3) match_)
    as (score & row1 & row2 & E & L & B1 & B2).
  rewrite E. cbn [bind].
  assert (Hpos : (0 < length row1)%nat).
  { destruct Hne as [H | H]; apply nonempty_length in H; lia. }
  assert (H1 : row1 <> []) by (intros ->; simpl in Hpos; lia).
  assert (H2 : row2 <> []) by (intros ->; simpl in L; lia).
  pose proof (@fill_gaps_same_length) as F.
  destruct (F row1 H1) as (f1 & E1 & L1).
  destruct (F row2 H2) as (f2 & E2 & L2).
  rewrite E1. cbn [bind]. rewrite E2. cbn [bind].
  exists score, f1, f2. split; [reflexivity |]. lia.
Qed.

Lemma alignment_length_witness :
  exists score filled_1 filled_2,
    alignment [0.1; 0.2; 0.3; 0.4]%Q [0.1; 0.3; 0.4]%Q
    = Ok (score, filled_1, filled_2) /\
    length filled_1 = length filled_2 /\
    (Nat.max 4 3 <= length filled_1)%nat /\
    (length filled_1 <= 4 + 3)%nat.
Proof.
  destruct alignment_length as [_ H].
  apply (H [0.1; 0.2; 0.3; 0.4]%Q [0.1; 0.3; 0.4]%Q).
  left. discriminate.
Defined.

(** X16.  The score [alignment] returns is the optimum for its penalties
    (-4, -3): some global alignment of the two signals has it and none
    has more. *)
Theorem alignment_score_optimal (signal_1 signal_2 : list Q) :
  signal_1 <> [] \/ signal_2 <> [] ->
  exists q filled_1 filled_2,
    alignment signal_1 signal_2 = Ok (Fin q, filled_1, filled_2) /\
    (exists row1 row2,
        global_alignment signal_1 signal_2 row1 row2 /\
        (alignment_score (-4) (-3) match_ row1 row2 == q)%Q) /\
    forall r1 r2,
      global_alignment signal_1 signal_2 r1 r2 ->
      (alignment_score (-4) (-3) match_ r1 r2 <= q)%Q.
Proof.
  intros Hne.
  destruct (@glob_affine_gap_best Q signal_1 signal_2 (-4) (-3) match_)
    as (q & row1 & row2 & E & GA & Att & Up); [discriminate |].
  destruct alignment_length as [_ H].
  destruct (H signal_1 signal_2 Hne) as (score & f1 & f2 & Ea & _).
  unfold alignment in *. rewrite E in *. cbn [bind] in *.
  destruct (fill_gaps row1) as [g1| |]; cbn [bind] in *; try discriminate.
  destruct (fill_gaps row2) as [g2| |]; cbn [bind] in *; try discriminate.
  exists q, g1, g2. split; [reflexivity |]. split; [| exact Up].
  now exists row1, row2.
Qed.

Lemma alignment_score_optimal_witness :
  exists q filled_1 filled_2,
    alignment [0.1; 0.2; 0.3; 0.4]%Q [0.1; 0.3; 0.4]%Q
    = Ok (Fin q, filled_1, filled_2) /\
    (exists row1 row2,
        global_alignment [0.1; 0.2; 0.3; 0.4]%Q [0.1; 0.3; 0.4]%Q
                         row1 row2 /\
        (alignment_score (-4) (-3) match_ row1 row2 == q)%Q) /\
    forall r1 r2,
      global_alignment [0.1; 0.2; 0.3; 0.4]%Q [0.1; 0.3; 0.4]%Q r1 r2 ->
      (alignment_score (-4) (-3) match_ r1 r2 <= q)%Q.
Proof.
  apply (@alignment_score_optimal [0.1; 0.2; 0.3; 0.4]%Q [0.1; 0.3; 0.4]%Q).
  left. discriminate.
Defined.

(** X17.  Aligning a signal with itself returns it twice, with score
    [10 * len(signal)]. *)
Theorem alignment_self (signal : list Q) :
  signal <> [] ->
  exists q,
    alignment signal signal = Ok (Fin q, signal, signal) /\
    (q == 10 * inject_Z (Z.of_nat (length signal)))%Q.
Proof.
  intros Hne. unfold alignment.
  destruct (@glob_affine_gap_identity Q signal (-4) (-3) 10 match_)
    as (q & E & Hq); try reflexivity; try discriminate; auto.
  - intros x _. apply match_same.
  - intros x y _ _. apply match_le.
  - exists q. rewrite E. cbn [bind].
    rewrite fill_gaps_no_gaps by exact Hne. cbn [bind]. now split.
Qed.

Lemma alignment_self_witness :
  exists q,
    alignment [0.1; 0.2; 0.3]%Q [0.1; 0.2; 0.3]%Q
    = Ok (Fin q, [0.1; 0.2; 0.3]%Q, [0.1; 0.2; 0.3]%Q) /\
    (q == 10 * inject_Z (Z.of_nat 3))%Q.
Proof.
  apply (@alignment_self [0.1; 0.2; 0.3]%Q). discriminate.
Defined.

(* ------------------------------------------------------------------ *)
(** ** [find_peaks] *)
(* ------------------------------------------------------------------ *)

Lemma Qltb_lt (x y : Q) : Qltb x y = true <-> (x < y)%Q.
Proof.
  unfold Qltb. rewrite negb_true_iff. split; intros H.
  - apply Qnot_le_lt. intros L. apply Qle_bool_iff in L. congruence.
  - apply not_true_iff_false. intros L. apply Qle_bool_iff in L.
    exact (Qlt_not_le _ _ H L).
Qed.

Lemma half_pos (x y : Q) : (0 < (x - y) / 2)%Q <-> (y < x)%Q.
Proof. unfold Qdiv. change (/ 2)%Q with (1 # 2)%Q. split; intros; lra. Qed.

Lemma half_neg (x y : Q) : ((x - y) / 2 < 0)%Q <-> (x < y)%Q.
Proof. unfold Qdiv. change (/ 2)%Q with (1 # 2)%Q. split; intros; lra. Qed.

(** Lines 39-41: the central differences. *)
Lemma deriv_loop (signal : list Q) (m : nat) :
  length signal = (m + 2)%nat ->
  exists deriv,
    for_each (xrange 0 (Z.of_nat (length (repeat 0%Q m))))
             (deriv_step signal) (repeat 0%Q m) = Ok deriv /\
    length deriv = m /\
    forall k, (k < m)%nat ->
              nth k deriv 0%Q
              = ((nth (k + 2) signal 0 - nth k signal 0) / 2)%Q.
Proof.
  intros Hn. rewrite repeat_length.
  change (Z.of_nat m) with (0 + Z.of_nat m).
  destruct (@for_each_xrange (list Q)
              (fun i d =>
                 length d = m /\
                 forall k, (k < i)%nat ->
                   nth k d 0%Q
                   = ((nth (k + 2) signal 0 - nth k signal 0) / 2)%Q)
              (deriv_step signal) 0 m (repeat 0%Q m))
    as (deriv & E & L & H).
  - split; [apply repeat_length | intros; lia].
  - intros i d Hi [Ld Hd]. rewrite Z.add_0_l. unfold deriv_step.
    replace (Z.of_nat i + 2) with (Z.of_nat (i + 2)) by lia.
    assert (E2 : nth_error signal (i + 2)
                 = Some (nth (i + 2) signal 0%Q))
      by (apply nth_error_nth'; lia).
    assert (E0 : nth_error signal i = Some (nth i signal 0%Q))
      by (apply nth_error_nth'; lia).
    rewrite (getitem_nat _ _ E2), (getitem_nat _ _ E0). cbn [bind].
    rewrite setitem_nat by lia.
    eexists. split; [reflexivity |].
    split; [now rewrite replace_nth_length |].
    intros k Hk. rewrite nth_replace_nth by lia.
    destruct (Nat.eqb_spec k i) as [-> | Hki]; [reflexivity |].
    apply Hd. lia.
  - exists deriv. split; [exact E |]. split; [exact L |].
    intros k Hk. now apply H.
Qed.

(** A loop that appends the elements passing a test is a filter. *)
Lemma for_each_filter (X : Type) (test : X -> bool) (xs : list X) :
  forall acc,
    for_each xs (fun x acc => if test x then Ok (acc ++ [x]) else Ok acc)
             acc
    = Ok (acc ++ filter test xs).
Proof.
  induction xs as [|x xs IH]; intros acc; simpl.
  - now rewrite app_nil_r.
  - destruct (test x); cbn [bind]; rewrite IH; [| reflexivity].
    now rewrite <- app_assoc.
Qed.

Lemma firstn_3_skipn (l : list Q) (a : nat) :
  (a + 3 <= length l)%nat ->
  firstn 3 (skipn a l)
  = [nth a l 0%Q; nth (a + 1) l 0%Q; nth (a + 2) l 0%Q].
Proof.
  revert a. induction l as [|x l IH]; intros a H; simpl in H; [lia |].
  destruct a as [|a].
  - destruct l as [|y [|z l']]; simpl in H; try lia. reflexivity.
  - cbn [skipn Nat.add nth]. apply IH. lia.
Qed.

(** The test of line 48 at a position that the loop of line 44 visits. *)
Lemma peak_test (signal deriv : list Q) (p : nat) :
  length signal = (length deriv + 2)%nat ->
  (forall k, (k < length deriv)%nat ->
             nth k deriv 0%Q
             = ((nth (k + 2) signal 0 - nth k signal 0) / 2)%Q) ->
  (3 <= p)%nat -> (p + 4 <= length deriv)%nat ->
  forallb (fun x => Qltb 0 x)
          (slice deriv (Z.of_nat p - WINDOW / 2) (Z.of_nat p))
  && forallb (fun y => Qltb y 0)
             (slice deriv (Z.of_nat p) (Z.of_nat p + WINDOW / 2)) = true
  <-> peak_at signal p.
Proof.
  intros Hn Hd H3 Hp.
  change (WINDOW / 2) with 3.
  replace (Z.of_nat p - 3) with (Z.of_nat (p - 3)) by lia.
  replace (Z.of_nat p + 3) with (Z.of_nat (p + 3)) by lia.
  rewrite !slice_nat by lia.
  replace (p - (p - 3))%nat with 3%nat by lia.
  replace (p + 3 - p)%nat with 3%nat by lia.
  rewrite !firstn_3_skipn by lia.
  cbn [forallb]. rewrite !andb_true_r, !andb_true_iff, !Qltb_lt.
  rewrite !Hd by lia. rewrite !half_pos, !half_neg.
  unfold peak_at. cbv zeta.
  replace (p - 3 + 2)%nat with (p - 1)%nat by lia.
  replace (p - 3 + 1 + 2)%nat with p by lia.
  replace (p - 3 + 1)%nat with (p - 2)%nat by lia.
  replace (p - 1 + 2)%nat with (p + 1)%nat by lia.
  replace (p + 1 + 2)%nat with (p + 3)%nat by lia.
  replace (p + 2 + 2)%nat with (p + 4)%nat by lia.
  set (a := nth (p - 3) signal 0%Q). set (b := nth (p - 2) signal 0%Q).
  set (c := nth (p - 1) signal 0%Q). set (d := nth p signal 0%Q).
  set (e := nth (p + 1) signal 0%Q). set (f := nth (p + 2) signal 0%Q).
  set (g := nth (p + 3) signal 0%Q). set (h := nth (p + 4) signal 0%Q).
  split.
  - intros [(H1 & H2 & H4) (H5 & H6 & H7)].
    repeat split; try lia; assumption.
  - intros (_ & _ & H1 & H2 & H4 & H5 & H6 & H7).
    repeat split; assumption.
Qed.

(** What [find_peaks] computes: on a signal of two samples or more, the
    positions [p] in [3, len - 6] where the signal rises over the three
    central differences before [p] and falls over the three from [p] on,
    in increasing order. *)
Lemma find_peaks_filter (signal : list Q) :
  (2 <= length signal)%nat ->
  exists deriv,
    length signal = (length deriv + 2)%nat /\
    (forall k, (k < length deriv)%nat ->
               nth k deriv 0%Q
               = ((nth (k + 2) signal 0 - nth k signal 0) / 2)%Q) /\
    find_peaks signal
    = Ok (filter
            (fun pos =>
               forallb (fun x => Qltb 0 x)
                       (slice deriv (pos - WINDOW / 2) pos)
               && forallb (fun y => Qltb y 0)
                          (slice deriv pos (pos + WINDOW / 2)))
            (xrange (WINDOW / 2) (Z.of_nat (length deriv) - WINDOW / 2))).
Proof.
  intros Hn. unfold find_peaks, np_zeros.
  destruct (Z.ltb_spec (Z.of_nat (length signal) - 2) 0); [lia |].
  cbn [bind].
  set (m := Z.to_nat (Z.of_nat (length signal) - 2)).
  destruct (@deriv_loop signal m ltac:(lia)) as (deriv & E & L & Hd).
  rewrite E. cbn [bind].
  exists deriv. split; [lia |]. split; [now rewrite L |].
  unfold peak_step.
  exact (for_each_filter _ _ []).
Qed.

Lemma find_peaks_peak_at (signal : list Q) :
  (2 <= length signal)%nat ->
  exists peaks,
    find_peaks signal = Ok peaks /\
    forall pos,
      In pos peaks <-> exists p, pos = Z.of_nat p /\ peak_at signal p.
Proof.
  intros Hn.
  destruct (@find_peaks_filter signal Hn) as (deriv & L & Hd & E).
  eexists. split; [exact E |].
  intros pos. rewrite filter_In. change (WINDOW / 2) with 3.
  split.
  - intros [Hin Ht]. unfold xrange in Hin. apply in_map_iff in Hin.
    destruct Hin as (k & <- & Hk). apply in_seq in Hk.
    exists (3 + k)%nat. split; [lia |].
    replace (3 + Z.of_nat k) with (Z.of_nat (3 + k)) in Ht by lia.
    apply (@peak_test signal deriv (3 + k) L Hd); [lia | lia | exact Ht].
  - intros (p & -> & Hp).
    assert (H3 : (3 <= p)%nat) by apply Hp.
    assert (H6 : (p + 6 <= length signal)%nat) by apply Hp.
    split.
    + unfold xrange. apply in_map_iff. exists (p - 3)%nat.
      split; [lia |]. apply in_seq. lia.
    + apply (@peak_test signal deriv p L Hd); [lia | lia | exact Hp].
Qed.



Lemma find_peaks_too_short (signal : list Q) :
  (length signal < 2)%nat -> find_peaks signal = Raise ValueError.
Proof.
  intros H. unfold find_peaks, np_zeros.
  destruct (Z.ltb_spec (Z.of_nat (length signal) - 2) 0); [| lia].
  reflexivity.
Qed.

(** X19.  [find_peaks] needs two samples: fewer make [np.zeros] fail with
    [ValueError]; and no peak is ever reported on fewer than nine. *)
Theorem find_peaks_short (signal : list Q) :
  ((length signal < 2)%nat -> find_peaks signal = Raise ValueError) /\
  ((2 <= length signal <= 8)%nat -> find_peaks signal = Ok []).
Proof.
  split; intros H.
  - now apply find_peaks_too_short.
  - destruct (@find_peaks_filter signal ltac:(lia)) as (deriv & L & _ & E).
    rewrite E. change (WINDOW / 2) with 3. unfold xrange.
    replace (Z.to_nat (Z.of_nat (length deriv) - 3 - 3)) with 0%nat by lia.
    reflexivity.
Qed.

Lemma find_peaks_short_witness :
  find_peaks [1%Q] = Raise ValueError /\
  find_peaks [0; 1; 2; 3; 3; 2; 1; 0]%Q = Ok [].
Proof.
  split.
  - apply (@find_peaks_short [1%Q]). simpl. lia.
  - apply (@find_peaks_short [0; 1; 2; 3; 3; 2; 1; 0]%Q). simpl. lia.
Defined.

Lemma peak_falls (signal : list Q) (p k : nat) :
  peak_at signal p -> (p <= k <= p + 2)%nat ->
  (nth (k + 2) signal 0 < nth k signal 0)%Q.
Proof.
  intros (_ & _ & _ & _ & _ & H1 & H2 & H3) Hk.
  assert (C : k = p \/ k = (p + 1)%nat \/ k = (p + 2)%nat) by lia.
  destruct C as [-> | [-> | ->]].
  - exact H1.
  - now replace (p + 1 + 2)%nat with (p + 3)%nat by lia.
  - now replace (p + 2 + 2)%nat with (p + 4)%nat by lia.
Qed.

Lemma peak_rises (signal : list Q) (q k : nat) :
  peak_at signal q -> (q <= k + 3)%nat -> (k + 1 <= q)%nat ->
  (nth k signal 0 < nth (k + 2) signal 0)%Q.
Proof.
  intros (H3 & _ & H1 & H2 & H4 & _) Hk1 Hk2.
  assert (C : k = (q - 3)%nat \/ k = (q - 2)%nat \/ k = (q - 1)%nat)
    by lia.
  destruct C as [-> | [-> | ->]].
  - now replace (q - 3 + 2)%nat with (q - 1)%nat by lia.
  - now replace (q - 2 + 2)%nat with q by lia.
  - now replace (q - 1 + 2)%nat with (q + 1)%nat by lia.
Qed.

Lemma peaks_apart (signal : list Q) (p q : nat) :
  peak_at signal p -> peak_at signal q -> (p < q)%nat -> (p + 6 <= q)%nat.
Proof.
  intros Hp Hq Hlt.
  destruct (Nat.le_gt_cases (p + 6) q) as [H | H]; [exact H |].
  exfalso.
  pose proof (@peak_falls signal p (Nat.max p (q - 3)) Hp ltac:(lia)) as F.
  pose proof (@peak_rises signal q (Nat.max p (q - 3)) Hq
                ltac:(lia) ltac:(lia)) as R.
  exact (Qlt_irrefl _ (Qlt_trans _ _ _ F R)).
Qed.

Lemma xrange_increasing (a b : Z) (i j : nat) (x y : Z) :
  (i < j)%nat ->
  nth_error (xrange a b) i = Some x -> nth_error (xrange a b) j = Some y ->
  x < y.
Proof.
  intros Hij Hx Hy.
  assert (Hi : (i < length (xrange a b))%nat)
    by (apply nth_error_Some; congruence).
  assert (Hj : (j < length (xrange a b))%nat)
    by (apply nth_error_Some; congruence).
  rewrite xrange_length in Hi, Hj.
  rewrite xrange_nth in Hx, Hy by lia.
  injection Hx as <-. injection Hy as <-. lia.
Qed.

Lemma filter_increasing (test : Z -> bool) (l : list Z) :
  (forall i j x y, (i < j)%nat -> nth_error l i = Some x ->
                   nth_error l j = Some y -> x < y) ->
  forall i j x y, (i < j)%nat ->
                  nth_error (filter test l) i = Some x ->
                  nth_error (filter test l) j = Some y -> x < y.
Proof.
  induction l as [|h t IH]; intros Hl i j x y Hij Hx Hy.
  - destruct i; discriminate.
  - assert (Ht : forall i j x y, (i < j)%nat -> nth_error t i = Some x ->
                                 nth_error t j = Some y -> x < y).
    { intros i0 j0 x0 y0 H0 Hx0 Hy0.
      apply (Hl (S i0) (S j0)); auto. lia. }
    simpl in Hx, Hy. destruct (test h).
    + destruct i as [|i], j as [|j]; try lia.
      * simpl in Hx, Hy. injection Hx as <-.
        apply nth_error_In, filter_In in Hy. destruct Hy as [Hy _].
        destruct (In_nth_error _ _ Hy) as (k & Hk).
        apply (Hl 0%nat (S k)); auto. lia.
      * simpl in Hx, Hy. apply (IH Ht i j); auto. lia.
    + apply (IH Ht i j); auto.
Qed.

(** X20.  The reported positions are in increasing order and any two of them
    are at least six apart. *)
Theorem find_peaks_spacing (signal : list Q) (peaks : list Z)
        (i j : nat) (x y : Z) :
  find_peaks signal = Ok peaks ->
  (i < j)%nat ->
  nth_error peaks i = Some x -> nth_error peaks j = Some y ->
  x + 6 <= y.
Proof.
  intros E Hij Hx Hy.
  destruct (Nat.lt_ge_cases (length signal) 2) as [Hs | Hs].
  { rewrite (find_peaks_too_short signal Hs) in E. discriminate. }
  destruct (@find_peaks_peak_at signal Hs) as (peaks' & E' & Hspec).
  rewrite E in E'. injection E' as <-.
  destruct (proj1 (Hspec x) (nth_error_In _ _ Hx)) as (p & -> & Hp).
  destruct (proj1 (Hspec y) (nth_error_In _ _ Hy)) as (q & -> & Hq).
  destruct (@find_peaks_filter signal Hs) as (deriv & _ & _ & Ef).
  rewrite E in Ef. injection Ef as Ef. rewrite Ef in Hx, Hy.
  pose proof (@filter_increasing _ _ (@xrange_increasing _ _)
                i j _ _ Hij Hx Hy) as Hlt.
  pose proof (@peaks_apart signal p q Hp Hq ltac:(lia)). lia.
Qed.

Lemma find_peaks_spacing_witness : 4 + 6 <= 13.
Proof.
  apply (@find_peaks_spacing
           [0; 1; 2; 3; 4; 4; 3; 2; 1; 0; 1; 2; 3; 4; 4; 3; 2; 1; 0]%Q
           [4; 13] 0 1 4 13).
  - reflexivity.
  - lia.
  - reflexivity.
  - reflexivity.
Defined.

(** A signal that never decreases has no peak. *)
Corollary find_peaks_monotone (signal : list Q) :
  (2 <= length signal)%nat ->
  (forall k, (S k < length signal)%nat ->
             (nth k signal 0 <= nth (S k) signal 0)%Q) ->
  find_peaks signal = Ok [].
Proof.
  intros Hn Hmono.
  destruct (@find_peaks_peak_at signal Hn) as (peaks & E & Hspec).
  rewrite E. f_equal.
  destruct peaks as [|pos rest]; [reflexivity |]. exfalso.
  destruct (proj1 (Hspec pos) (or_introl eq_refl)) as (p & _ & Hp).
  pose proof (@peak_falls signal p p Hp ltac:(lia)) as F.
  assert (Hlen : (p + 6 <= length signal)%nat) by apply Hp.
  pose proof (Hmono p ltac:(lia)) as M1.
  pose proof (Hmono (S p) ltac:(lia)) as M2.
  replace (p + 2)%nat with (S (S p)) in F by lia. lra.
Qed.

Lemma find_peaks_monotone_witness :
  find_peaks [0; 1; 1; 2; 3; 5; 8; 8; 9; 10; 12]%Q = Ok [].
Proof.
  apply (@find_peaks_monotone [0; 1; 1; 2; 3; 5; 8; 8; 9; 10; 12]%Q).
  - simpl. lia.
  - intros k Hk.
    do 10 (destruct k as [|k]; [cbn [nth]; apply Qle_bool_iff; reflexivity |]).
    simpl in Hk. lia.
Defined.

(* ------------------------------------------------------------------ *)
(** ** [get_acids_positions] *)
(* ------------------------------------------------------------------ *)

Lemma for_each_map (X Y : Type) (f : X -> Y) (xs : list X) :
  forall acc,
    for_each xs (fun x acc => Ok (acc ++ [f x])) acc = Ok (acc ++ map f xs).
Proof.
  induction xs as [|x xs IH]; intros acc; simpl.
  - now rewrite app_nil_r.
  - cbn [bind]. rewrite IH. now rewrite <- app_assoc.
Qed.

Lemma Qeq_bool_inject_Z_0 (z : Z) : Qeq_bool (inject_Z z) 0 = (z =? 0).
Proof.
  unfold Qeq_bool, inject_Z. simpl. now rewrite Z.mul_1_r.
Qed.

Lemma get_acids_positions_map (peptide : list ascii) (window_size : Z)
      (plot_len : Q) :
  Z.of_nat (length peptide) + window_size <> 2 ->
  get_acids_positions peptide window_size plot_len
  = Ok (map (fun aa =>
               (inject_Z (window_size - 1)
                * (plot_len
                   / inject_Z (Z.of_nat (length peptide) + window_size - 2))
                / 2
                + inject_Z aa
                  * (plot_len
                     / inject_Z (Z.of_nat (length peptide) + window_size
                                 - 2)))%Q)
            (xrange 0 (Z.of_nat (length peptide)))).
Proof.
  intros H. unfold get_acids_positions, float_div.
  rewrite Qeq_bool_inject_Z_0.
  destruct (Z.eqb_spec (Z.of_nat (length peptide) + window_size - 1 - 1) 0);
    [lia |].
  cbn [bind]. rewrite for_each_map. cbn [app].
  replace (Z.of_nat (length peptide) + window_size - 1 - 1)
    with (Z.of_nat (length peptide) + window_size - 2) by lia.
  reflexivity.
Qed.

Lemma get_acids_positions_zero_division (peptide : list ascii)
      (window_size : Z) (plot_len : Q) :
  Z.of_nat (length peptide) + window_size = 2 ->
  get_acids_positions peptide window_size plot_len
  = Raise ZeroDivisionError.
Proof.
  intros H. unfold get_acids_positions, float_div.
  rewrite Qeq_bool_inject_Z_0.
  destruct (Z.eqb_spec (Z.of_nat (length peptide) + window_size - 1 - 1)
                       0); [reflexivity | lia].
Qed.

(** X21.  [get_acids_positions] divides by
    [len(peptide) + window_size - 2]: it raises [ZeroDivisionError] when
    that is zero, and returns one position for each residue otherwise. *)
Theorem get_acids_positions_length (peptide : list ascii) (window_size : Z)
        (plot_len : Q) :
  (Z.of_nat (length peptide) + window_size = 2 ->
   get_acids_positions peptide window_size plot_len
   = Raise ZeroDivisionError) /\
  (Z.of_nat (length peptide) + window_size <> 2 ->
   exists positions,
     get_acids_positions peptide window_size plot_len = Ok positions /\
     length positions = length peptide).
Proof.
  split; intros H.
  - now apply get_acids_positions_zero_division.
  - rewrite (@get_acids_positions_map peptide window_size plot_len H).
    eexists. split; [reflexivity |].
    rewrite length_map, xrange_length. lia.
Qed.

Lemma get_acids_positions_length_witness :
  get_acids_positions ["A"%char] 1 30 = Raise ZeroDivisionError /\
  exists positions,
    get_acids_positions ["A"%char; "G"%char; "C"%char] 2 30 = Ok positions /\
    length positions = 3%nat.
Proof.
  split.
  - apply (@get_acids_positions_length ["A"%char] 1 30). reflexivity.
  - apply (@get_acids_positions_length ["A"%char; "G"%char; "C"%char] 2 30).
    simpl. lia.
Defined.






(* ------------------------------------------------------------------ *)
(** ** [get_consensus] and [get_averages] *)
(* ------------------------------------------------------------------ *)

Lemma add_arrays_length (a b : list Q) :
  length b = length a -> length (add_arrays a b) = length a.
Proof.
  revert b. induction a as [|x a IH]; intros [|y b] H; simpl in *;
    try reflexivity; try discriminate.
  f_equal. apply IH. lia.
Qed.

Lemma add_arrays_nth (a b : list Q) (k : nat) :
  length b = length a -> (k < length a)%nat ->
  nth k (add_arrays a b) 0%Q = (nth k a 0 + nth k b 0)%Q.
Proof.
  revert b k. induction a as [|x a IH]; intros [|y b] k H Hk; simpl in *;
    try lia.
  destruct k as [|k]; [reflexivity |]. apply IH; lia.
Qed.

Lemma iadd_same_length (a b : list Q) :
  length b = length a -> iadd a b = Ok (add_arrays a b).
Proof.
  intros H. unfold iadd. now rewrite H, Nat.eqb_refl.
Qed.

Lemma for_each_app (X S : Type) (body : X -> S -> result S)
      (xs ys : list X) :
  forall s,
    for_each (xs ++ ys) body s = bind (for_each xs body s) (for_each ys body).
Proof.
  induction xs as [|x xs IH]; intros s; simpl; [reflexivity |].
  destruct (body x s) as [s1 | e |]; cbn [bind]; [apply IH | |];
    reflexivity.
Qed.

Lemma nth_map_inside (X Y : Type) (f : X -> Y) (l : list X) (k : nat)
      (d : Y) (d' : X) :
  (k < length l)%nat -> nth k (map f l) d = f (nth k l d').
Proof.
  revert k. induction l as [|x l IH]; intros k H; simpl in H; [lia |].
  destruct k as [|k]; [reflexivity |]. simpl. apply IH. lia.
Qed.

(** The loop of lines 295-298 once [consensus] is an array. *)
Lemma consensus_loop (events : list Event.Struct) :
  forall c,
    (forall e, In e events -> length (Event.trace e) = length c) ->
    exists c',
      for_each events consensus_step (Some c) = Ok (Some c') /\
      length c' = length c /\
      forall k, (k < length c)%nat ->
                nth k c' 0%Q
                = fold_left
                    (fun acc event =>
                       (acc + nth k (Event.trace event) 0)%Q)
                    events (nth k c 0%Q).
Proof.
  induction events as [|e events IH]; intros c Hall.
  - exists c. repeat split; reflexivity.
  - cbn [for_each]. unfold consensus_step at 1.
    rewrite iadd_same_length by (apply Hall; now left). cbn [bind].
    destruct (IH (add_arrays c (Event.trace e))) as (c' & E & L & V).
    { intros e' He'. rewrite add_arrays_length by (apply Hall; now left).
      apply Hall. now right. }
    rewrite add_arrays_length in L by (apply Hall; now left).
    exists c'. split; [exact E |]. split; [exact L |].
    intros k Hk. rewrite V.
    + cbn [fold_left]. rewrite add_arrays_nth; auto.
      apply Hall. now left.
    + rewrite add_arrays_length by (apply Hall; now left). exact Hk.
Qed.

Lemma consensus_first (e : Event.Struct) (events : list Event.Struct) :
  for_each (e :: events) consensus_step None
  = for_each (e :: events) consensus_step
             (Some (repeat 0%Q (length (Event.trace e)))).
Proof. reflexivity. Qed.

Lemma get_consensus_columns (events : list Event.Struct) (n : nat) :
  events <> [] ->
  (forall e, In e events -> length (Event.trace e) = n) ->
  exists c,
    get_consensus events = Ok c /\
    length c = n /\
    forall k, (k < n)%nat ->
              nth k c 0%Q
              = (column_sum events k
                 / inject_Z (Z.of_nat (length events)))%Q.
Proof.
  intros Hne Hall. destruct events as [|e events]; [congruence |].
  unfold get_consensus. rewrite consensus_first.
  assert (Le : length (Event.trace e) = n) by (apply Hall; now left).
  rewrite Le.
  destruct (@consensus_loop (e :: events) (repeat 0%Q n)) as (c & E & L & V).
  { intros e' He'. rewrite repeat_length. now apply Hall. }
  rewrite repeat_length in L, V.
  rewrite E. cbn [bind]. eexists. split; [reflexivity |].
  split; [now rewrite length_map |].
  intros k Hk.
  rewrite (@nth_map_inside _ _ _ _ k 0%Q 0%Q) by lia.
  rewrite V by exact Hk.
  rewrite nth_repeat_lt by exact Hk. reflexivity.
Qed.

(** X24.  For events whose traces all have [n] samples, [get_consensus] returns
    [n] samples, each the sum of that sample over the events divided by
    the number of events. *)
Theorem get_consensus_mean (events : list Event.Struct) (n : nat) :
  events <> [] ->
  (forall e, In e events -> length (Event.trace e) = n) ->
  exists c,
    get_consensus events = Ok c /\
    length c = n /\
    forall k, (k < n)%nat ->
              nth k c 0%Q
              = (column_sum events k
                 / inject_Z (Z.of_nat (length events)))%Q.
Proof.
  apply get_consensus_columns.
Qed.

Lemma get_consensus_mean_witness :
  exists c,
    get_consensus [Event.mk_Struct 1 1 1 [1; 2; 3];
                   Event.mk_Struct 1 1 1 [3; 4; 5]]%Q = Ok c /\
    length c = 3%nat /\
    forall k, (k < 3)%nat ->
              nth k c 0%Q
              = (column_sum [Event.mk_Struct 1 1 1 [1; 2; 3];
                             Event.mk_Struct 1 1 1 [3; 4; 5]] k
                 / inject_Z (Z.of_nat 2))%Q.
Proof.
  apply (@get_consensus_mean [Event.mk_Struct 1 1 1 [1; 2; 3];
                              Event.mk_Struct 1 1 1 [3; 4; 5]]%Q 3).
  - discriminate.
  - intros e [<- | [<- | []]]; reflexivity.
Defined.

(** X25.  [get_consensus] fails with [ValueError] at an event whose
    trace has neither the length of the earlier ones nor length one (a
    trace of length one is added to every sample instead); without any
    event it fails with [TypeError] ([None / 0]). *)
Theorem get_consensus_ragged (pre post : list Event.Struct)
        (e : Event.Struct) (n : nat) :
  pre <> [] ->
  (forall e', In e' pre -> length (Event.trace e') = n) ->
  length (Event.trace e) <> n ->
  length (Event.trace e) <> 1%nat ->
  get_consensus (pre ++ e :: post) = Raise ValueError /\
  get_consensus [] = Raise TypeError.
Proof.
  intros Hne Hall Hn H1. split; [| reflexivity].
  destruct pre as [|e0 pre]; [congruence |].
  unfold get_consensus. rewrite for_each_app, consensus_first.
  assert (Le : length (Event.trace e0) = n) by (apply Hall; now left).
  rewrite Le.
  destruct (@consensus_loop (e0 :: pre) (repeat 0%Q n)) as (c & E & L & _).
  { intros e' He'. rewrite repeat_length. now apply Hall. }
  rewrite repeat_length in L.
  rewrite E. cbn [bind for_each]. unfold consensus_step at 1, iadd.
  rewrite L.
  destruct (Nat.eqb_spec (length (Event.trace e)) n); [congruence |].
  destruct (Event.trace e) as [|y [|z t]]; try reflexivity.
  simpl in H1. congruence.
Qed.

Lemma get_consensus_ragged_witness :
  get_consensus ([Event.mk_Struct 1 1 1 [1; 2; 3]%Q]
                 ++ Event.mk_Struct 1 1 1 [1; 2]%Q
                 :: [Event.mk_Struct 1 1 1 [4; 5; 6]%Q])
  = Raise ValueError /\
  get_consensus [] = Raise TypeError.
Proof.
  apply (@get_consensus_ragged [Event.mk_Struct 1 1 1 [1; 2; 3]%Q]
           [Event.mk_Struct 1 1 1 [4; 5; 6]%Q]
           (Event.mk_Struct 1 1 1 [1; 2]%Q) 3).
  - discriminate.
  - intros e' [<- | []]. reflexivity.
  - simpl. lia.
  - simpl. lia.
Defined.

Lemma norm_bound_le (n : nat) (k : Z) : (norm_bound n k <= n)%nat.
Proof. unfold norm_bound. lia. Qed.

Lemma slice_length (X : Type) (l : list X) (a b : Z) :
  length (slice l a b)
  = (norm_bound (length l) b - norm_bound (length l) a)%nat.
Proof.
  unfold slice. rewrite length_firstn, length_skipn.
  pose proof (norm_bound_le (length l) b). lia.
Qed.

(** [signal[flank:-flank]] on [n] samples. *)
Lemma flank_length (signal : list Q) (flank : Z) :
  0 <= flank ->
  length (slice signal flank (- flank))
  = if flank =? 0 then 0%nat
    else Z.to_nat (Z.of_nat (length signal) - 2 * flank).
Proof.
  intros H. rewrite slice_length. unfold norm_bound.
  destruct (Z.eqb_spec flank 0) as [-> | Hf].
  - simpl. lia.
  - destruct (Z.ltb_spec flank 0); [lia |].
    destruct (Z.ltb_spec (- flank) 0); lia.
Qed.

(** One bin of [get_averages]. *)
Lemma bin_slice (events : list Event.Struct) (bin_size : Z) (k : nat) :
  0 < bin_size ->
  (Z.of_nat k < Z.of_nat (length events) / bin_size) ->
  slice events (Z.of_nat k * bin_size) ((Z.of_nat k + 1) * bin_size)
  <> [] /\
  forall e, In e (slice events (Z.of_nat k * bin_size)
                        ((Z.of_nat k + 1) * bin_size)) -> In e events.
Proof.
  intros Hb Hk. split; [| intros e; apply slice_incl].
  intros C. apply (f_equal (@length _)) in C.
  rewrite slice_length in C. simpl in C.
  pose proof (Z.mul_div_le (Z.of_nat (length events)) bin_size Hb) as M.
  assert (U : (Z.of_nat k + 1) * bin_size <= Z.of_nat (length events))
    by nia.
  unfold norm_bound in C.
  destruct (Z.ltb_spec (Z.of_nat k * bin_size) 0); [nia |].
  destruct (Z.ltb_spec ((Z.of_nat k + 1) * bin_size) 0); [nia |].
  nia.
Qed.

(** X26.  With a positive [bin_size] and traces of [n] samples each,
    [get_averages] returns [len(events) / bin_size] averages (the
    remaining events are left out); every average has [n - 2 * flank]
    samples for a positive [flank], and none at all for [flank = 0],
    where the slice is [avg_signal[0:0]]. *)
Theorem get_averages_shape (events : list Event.Struct)
        (bin_size flank : Z) (reverse : bool) (n : nat) :
  0 < bin_size -> 0 <= flank ->
  (forall e, In e events -> length (Event.trace e) = n) ->
  exists averages,
    get_averages events bin_size flank reverse = Ok averages /\
    Z.of_nat (length averages) = Z.of_nat (length events) / bin_size /\
    forall avg, In avg averages ->
                length avg = if flank =? 0 then 0%nat
                             else Z.to_nat (Z.of_nat n - 2 * flank).
Proof.
  intros Hb Hf Hall. unfold get_averages, floordiv.
  destruct (Z.eqb_spec bin_size 0); [lia |]. cbn [bind].
  pose proof (Z.div_pos (Z.of_nat (length events)) bin_size
                ltac:(lia) Hb) as Hbins.
  set (bins := Z.of_nat (length events) / bin_size) in *.
  destruct (@for_each_xrange _
              (fun k (averages : list (list Q)) =>
                 length averages = k /\
                 forall avg, In avg averages ->
                             length avg
                             = if flank =? 0 then 0%nat
                               else Z.to_nat (Z.of_nat n - 2 * flank))
              (average_step events bin_size flank reverse) 0
              (Z.to_nat bins) [])
    as (averages & E & L & V).
  - split; [reflexivity | intros avg []].
  - intros k averages Hk [L V]. unfold average_step. cbn [Z.add].
    destruct (@bin_slice events bin_size k Hb ltac:(lia)) as [Hne Hin].
    destruct (@get_consensus_columns
                (slice events (Z.of_nat k * bin_size)
                       ((Z.of_nat k + 1) * bin_size)) n Hne)
      as (c & Ec & Lc & _).
    { intros e He. apply Hall, Hin, He. }
    rewrite Ec. cbn [bind]. eexists. split; [reflexivity |].
    split; [rewrite length_app; simpl; lia |].
    intros avg Havg. apply in_app_or in Havg.
    destruct Havg as [Havg | [<- | []]]; [now apply V |].
    rewrite flank_length by exact Hf.
    destruct reverse; [rewrite length_rev |]; now rewrite Lc.
  - replace (0 + Z.of_nat (Z.to_nat bins)) with bins in E by lia.
    exists averages. split; [exact E |]. split; [lia | exact V].
Qed.

Lemma get_averages_shape_witness :
  exists averages,
    get_averages [Event.mk_Struct 1 1 1 [1; 2; 3; 4];
                  Event.mk_Struct 1 1 1 [3; 4; 5; 6];
                  Event.mk_Struct 1 1 1 [7; 7; 7; 7]]%Q 2 1 true
    = Ok averages /\
    Z.of_nat (length averages) = Z.of_nat 3 / 2 /\
    forall avg, In avg averages ->
                length avg = if 1 =? 0 then 0%nat
                             else Z.to_nat (Z.of_nat 4 - 2 * 1).
Proof.
  apply (@get_averages_shape
           [Event.mk_Struct 1 1 1 [1; 2; 3; 4];
            Event.mk_Struct 1 1 1 [3; 4; 5; 6];
            Event.mk_Struct 1 1 1 [7; 7; 7; 7]]%Q 2 1 true 4).
  - lia.
  - lia.
  - intros e [<- | [<- | [<- | []]]]; reflexivity.
Defined.

(** X27.  [get_averages] divides [len(events)] by [bin_size] first: a
    [bin_size] of zero is a [ZeroDivisionError], and a [bin_size] larger
    than the number of events, or a negative one, gives no average. *)
Theorem get_averages_no_bin (events : list Event.Struct)
        (bin_size flank : Z) (reverse : bool) :
  (bin_size = 0 ->
   get_averages events bin_size flank reverse = Raise ZeroDivisionError) /\
  (bin_size < 0 \/ Z.of_nat (length events) < bin_size ->
   get_averages events bin_size flank reverse = Ok []).
Proof.
  split.
  - intros ->. reflexivity.
  - intros H. unfold get_averages, floordiv.
    destruct (Z.eqb_spec bin_size 0); [lia |]. cbn [bind].
    assert (D : Z.of_nat (length events) / bin_size <= 0).
    { destruct H as [H | H].
      - destruct (Z.eq_dec (Z.of_nat (length events)) 0) as [-> | Hl].
        + now rewrite Z.div_0_l by lia.
        + pose proof (Z.div_mod (Z.of_nat (length events)) bin_size
                        ltac:(lia)).
          pose proof (Z.mod_neg_bound (Z.of_nat (length events)) bin_size H).
          nia.
      - rewrite Z.div_small by lia. lia. }
    unfold xrange.
    replace (Z.to_nat (Z.of_nat (length events) / bin_size - 0))
      with 0%nat by lia.
    reflexivity.
Qed.

Lemma get_averages_no_bin_witness :
  get_averages [Event.mk_Struct 1 1 1 [1; 2]%Q] 0 1 false
  = Raise ZeroDivisionError /\
  get_averages [Event.mk_Struct 1 1 1 [1; 2]%Q] 2 1 false = Ok [].
Proof.
  split.
  - apply (@get_averages_no_bin [Event.mk_Struct 1 1 1 [1; 2]%Q] 0 1 false).
    reflexivity.
  - apply (@get_averages_no_bin [Event.mk_Struct 1 1 1 [1; 2]%Q] 2 1 false).
    right. simpl. lia.
Defined.

(* ------------------------------------------------------------------ *)
(** ** [aa_to_weights], [_kmer_features], [_peptide_to_features] *)
(* ------------------------------------------------------------------ *)

Lemma count_app (a b : list ascii) (c : ascii) :
  count (a ++ b) c = (count a c + count b c)%nat.
Proof. unfold count. now rewrite filter_app, length_app. Qed.

Lemma count_absent (s : list ascii) (c : ascii) :
  (forall x, In x s -> x <> c) -> count s c = 0%nat.
Proof.
  unfold count. induction s as [|x s IH]; intros H; [reflexivity |].
  simpl. destruct (Ascii.eqb_spec c x) as [-> | _].
  - exfalso. now apply (H x (or_introl eq_refl)).
  - apply IH. intros y Hy. apply H. now right.
Qed.

Lemma In_firstn (X : Type) (l : list X) (k : nat) (x : X) :
  In x (firstn k l) -> In x l.
Proof.
  intros H. rewrite <- (firstn_skipn k l). apply in_or_app. now left.
Qed.

Lemma In_dashes (k : Z) (x : ascii) : In x (dashes k) -> x = "-"%char.
Proof. unfold dashes. intros H. now apply repeat_spec in H. Qed.

Lemma firstn_add (X : Type) (l : list X) (i w : nat) :
  firstn (i + w) l = firstn i l ++ firstn w (skipn i l).
Proof.
  revert l. induction i as [|i IH]; intros l; [reflexivity |].
  destruct l as [|x l]; simpl.
  - now rewrite firstn_nil.
  - now rewrite IH.
Qed.

Lemma map_seq_offset (Y : Type) (f : nat -> Y) (a b : nat) :
  forall s, map f (seq (a + s) b) = map (fun i => f (a + i)%nat) (seq s b).
Proof.
  induction b as [|b IH]; intros s; [reflexivity |].
  cbn [seq map]. f_equal.
  replace (S (a + s)) with (a + S s)%nat by lia. apply IH.
Qed.

Lemma list_sum_seq_split (f : nat -> nat) (a b : nat) :
  list_sum (map f (seq 0 (a + b)))
  = (list_sum (map f (seq 0 a))
     + list_sum (map (fun i => f (a + i)%nat) (seq 0 b)))%nat.
Proof.
  rewrite seq_app, map_app, list_sum_app. f_equal.
  rewrite <- map_seq_offset. now rewrite Nat.add_0_r.
Qed.

Lemma list_sum_map_add (X : Type) (f g : X -> nat) (l : list X) :
  list_sum (map (fun x => (f x + g x)%nat) l)
  = (list_sum (map f l) + list_sum (map g l))%nat.
Proof.
  induction l as [|x l IH]; [reflexivity |]. simpl. rewrite IH. lia.
Qed.

Lemma list_sum_map_const (X : Type) (f : X -> nat) (l : list X) (v : nat) :
  (forall x, In x l -> f x = v) ->
  list_sum (map f l) = (length l * v)%nat.
Proof.
  induction l as [|x l IH]; intros H; [reflexivity |].
  simpl. rewrite (H x (or_introl eq_refl)), IH; [lia |].
  intros y Hy. apply H. now right.
Qed.

(** Every window of a list counted once: a character is counted [w]
    times for each position that lies in [w] windows. *)
Lemma window_counts (l : list ascii) (c : ascii) (w m : nat) :
  (list_sum (map (fun i => count (firstn w (skipn i l)) c) (seq 0 m))
   + list_sum (map (fun k => count (firstn k l) c) (seq 0 w)))%nat
  = list_sum (map (fun j => count (firstn (m + j) l) c) (seq 0 w)).
Proof.
  assert (A : list_sum (map (fun k => count (firstn k l) c)
                            (seq 0 (w + m)))
              = (list_sum (map (fun k => count (firstn k l) c) (seq 0 w))
                 + list_sum (map (fun i => count (firstn (w + i) l) c)
                                 (seq 0 m)))%nat)
    by apply list_sum_seq_split.
  assert (B : list_sum (map (fun k => count (firstn k l) c)
                            (seq 0 (m + w)))
              = (list_sum (map (fun k => count (firstn k l) c) (seq 0 m))
                 + list_sum (map (fun j => count (firstn (m + j) l) c)
                                 (seq 0 w)))%nat)
    by apply list_sum_seq_split.
  assert (C : list_sum (map (fun i => count (firstn (w + i) l) c)
                            (seq 0 m))
              = (list_sum (map (fun i => count (firstn i l) c) (seq 0 m))
                 + list_sum (map (fun i => count (firstn w (skipn i l)) c)
                                 (seq 0 m)))%nat).
  { rewrite <- list_sum_map_add. f_equal. apply map_ext. intros i.
    rewrite (Nat.add_comm w i), firstn_add. apply count_app. }
  rewrite (Nat.add_comm w m) in A. lia.
Qed.

(** The windows of line 39 as prefixes and suffixes. *)
Lemma peptide_to_features_map (peptide : list ascii) (window : Z) :
  1 <= window ->
  _peptide_to_features peptide window
  = Ok (map (fun i =>
               _kmer_features
                 (firstn (Z.to_nat window)
                         (skipn i (dashes (window - 1) ++ peptide
                                   ++ dashes (window - 1)))))
            (seq 0 (length peptide + Z.to_nat window - 1))).
Proof.
  intros Hw. unfold _peptide_to_features. rewrite for_each_map.
  cbn [app]. f_equal. unfold xrange. rewrite map_map.
  replace (Z.to_nat (Z.of_nat (length peptide) + window - 1 - 0))
    with (length peptide + Z.to_nat window - 1)%nat by lia.
  apply map_ext_in. intros i Hi. apply in_seq in Hi. f_equal.
  cbn [Z.add].
  replace (Z.of_nat i + window) with (Z.of_nat (i + Z.to_nat window))
    by lia.
  assert (L : length (dashes (window - 1) ++ peptide
                      ++ dashes (window - 1))
              = (length peptide + 2 * (Z.to_nat window - 1))%nat).
  { unfold dashes. rewrite !length_app, !repeat_length. lia. }
  rewrite slice_nat by lia. f_equal. lia.
Qed.

Lemma kmer_features_bound (kmer : list ascii) :
  length (_kmer_features kmer) = 4%nat /\
  (list_sum (_kmer_features kmer) <= length kmer)%nat.
Proof.
  split; [reflexivity |].
  unfold _kmer_features, count, list_sum. cbn [fold_right].
  induction kmer as [|x kmer IH]; [simpl; lia |].
  cbn [filter length].
  destruct (Ascii.eqb_spec "L"%char x) as [<- | _];
    [simpl; lia |].
  destruct (Ascii.eqb_spec "I"%char x) as [<- | _];
    [simpl; lia |].
  destruct (Ascii.eqb_spec "S"%char x) as [<- | _];
    [simpl; lia |].
  destruct (Ascii.eqb_spec "M"%char x) as [<- | _];
    cbn [length]; lia.
Qed.

(** X28.  [_peptide_to_features] with a window of one or more returns
    [len(peptide) + window - 1] features; each has four counts, which
    add up to [window] at most. *)
Theorem peptide_to_features_shape (peptide : list ascii) (window : Z) :
  1 <= window ->
  exists features,
    _peptide_to_features peptide window = Ok features /\
    Z.of_nat (length features) = Z.of_nat (length peptide) + window - 1 /\
    forall feature, In feature features ->
                    length feature = 4%nat /\
                    Z.of_nat (list_sum feature) <= window.
Proof.
  intros Hw. rewrite peptide_to_features_map by exact Hw.
  eexists. split; [reflexivity |]. split.
  - rewrite length_map, length_seq. lia.
  - intros feature Hf. apply in_map_iff in Hf. destruct Hf as (i & <- & _).
    destruct (kmer_features_bound
                (firstn (Z.to_nat window)
                        (skipn i (dashes (window - 1) ++ peptide
                                  ++ dashes (window - 1)))))
      as [L4 B].
    split; [exact L4 |]. rewrite length_firstn in B. lia.
Qed.

Lemma peptide_to_features_shape_witness :
  exists features,
    _peptide_to_features ["M"; "S"; "I"]%char 2 = Ok features /\
    Z.of_nat (length features)
    = Z.of_nat (length ["M"; "S"; "I"]%char) + 2 - 1 /\
    forall feature, In feature features ->
                    length feature = 4%nat /\
                    Z.of_nat (list_sum feature) <= 2.
Proof.
  apply (@peptide_to_features_shape ["M"; "S"; "I"]%char 2). lia.
Defined.

Lemma flanked_prefix_low (peptide : list ascii) (window : Z) (c : ascii)
      (k : nat) :
  c <> "-"%char -> (k < Z.to_nat window)%nat ->
  count (firstn k (dashes (window - 1) ++ peptide ++ dashes (window - 1))) c
  = 0%nat.
Proof.
  intros Hc Hk. rewrite firstn_app.
  replace (k - length (dashes (window - 1)))%nat with 0%nat
    by (unfold dashes; rewrite repeat_length; lia).
  cbn [firstn]. rewrite app_nil_r.
  apply count_absent. intros x Hx.
  apply In_firstn, In_dashes in Hx. congruence.
Qed.

Lemma flanked_prefix_high (peptide : list ascii) (window : Z) (c : ascii)
      (k : nat) :
  c <> "-"%char -> 1 <= window ->
  (length peptide + Z.to_nat window - 1 <= k)%nat ->
  count (firstn k (dashes (window - 1) ++ peptide ++ dashes (window - 1))) c
  = count peptide c.
Proof.
  intros Hc Hw Hk.
  assert (Ld : length (dashes (window - 1)) = (Z.to_nat window - 1)%nat)
    by (unfold dashes; rewrite repeat_length; lia).
  rewrite firstn_app, firstn_all2 by lia.
  rewrite firstn_app, firstn_all2 by lia.
  rewrite !count_app.
  rewrite (@count_absent (dashes (window - 1)) c)
    by (intros x Hx; apply In_dashes in Hx; congruence).
  rewrite (@count_absent (firstn _ (dashes (window - 1))) c)
    by (intros x Hx; apply In_firstn, In_dashes in Hx; congruence).
  lia.
Qed.

(** Over all windows of the flanked peptide, a character other than the
    flank is counted [window] times for each occurrence. *)
Lemma flanked_window_counts (peptide : list ascii) (window : Z) (c : ascii) :
  c <> "-"%char -> 1 <= window ->
  list_sum
    (map (fun i =>
            count (firstn (Z.to_nat window)
                          (skipn i (dashes (window - 1) ++ peptide
                                    ++ dashes (window - 1)))) c)
         (seq 0 (length peptide + Z.to_nat window - 1)))
  = (Z.to_nat window * count peptide c)%nat.
Proof.
  intros Hc Hw.
  pose proof (window_counts
                (dashes (window - 1) ++ peptide ++ dashes (window - 1)) c
                (Z.to_nat window)
                (length peptide + Z.to_nat window - 1)) as W.
  rewrite (@list_sum_map_const _
             (fun k => count (firstn k (dashes (window - 1) ++ peptide
                                        ++ dashes (window - 1))) c)
             (seq 0 (Z.to_nat window)) 0%nat) in W.
  2:{ intros k Hk. apply in_seq in Hk.
      apply flanked_prefix_low; [exact Hc | lia]. }
  rewrite (@list_sum_map_const _
             (fun j => count (firstn (length peptide + Z.to_nat window - 1
                                      + j)
                                     (dashes (window - 1) ++ peptide
                                      ++ dashes (window - 1))) c)
             (seq 0 (Z.to_nat window)) (count peptide c)) in W.
  2:{ intros j Hj. apply flanked_prefix_high; [exact Hc | exact Hw | lia]. }
  rewrite length_seq in W. lia.
Qed.

(** X29.  Each residue of the peptide is in exactly [window] windows: summed
    over the features, the count of a size class is [window] times the
    number of residues of that class. *)
Theorem peptide_to_features_counts (peptide : list ascii) (window : Z) :
  1 <= window ->
  exists features,
    _peptide_to_features peptide window = Ok features /\
    list_sum (map (fun feature => nth 0 feature 0%nat) features)
    = (Z.to_nat window * count peptide "L")%nat /\
    list_sum (map (fun feature => nth 1 feature 0%nat) features)
    = (Z.to_nat window * count peptide "I")%nat /\
    list_sum (map (fun feature => nth 2 feature 0%nat) features)
    = (Z.to_nat window * count peptide "S")%nat /\
    list_sum (map (fun feature => nth 3 feature 0%nat) features)
    = (Z.to_nat window * count peptide "M")%nat.
Proof.
  intros Hw. rewrite peptide_to_features_map by exact Hw.
  eexists. split; [reflexivity |].
  rewrite !map_map. unfold _kmer_features. cbn [nth].
  repeat split; apply flanked_window_counts; try exact Hw; discriminate.
Qed.

Lemma peptide_to_features_counts_witness :
  exists features,
    _peptide_to_features ["M"; "S"; "I"; "S"]%char 3 = Ok features /\
    list_sum (map (fun feature => nth 0 feature 0%nat) features)
    = (Z.to_nat 3 * count ["M"; "S"; "I"; "S"]%char "L")%nat /\
    list_sum (map (fun feature => nth 1 feature 0%nat) features)
    = (Z.to_nat 3 * count ["M"; "S"; "I"; "S"]%char "I")%nat /\
    list_sum (map (fun feature => nth 2 feature 0%nat) features)
    = (Z.to_nat 3 * count ["M"; "S"; "I"; "S"]%char "S")%nat /\
    list_sum (map (fun feature => nth 3 feature 0%nat) features)
    = (Z.to_nat 3 * count ["M"; "S"; "I"; "S"]%char "M")%nat.
Proof.
  apply (@peptide_to_features_counts ["M"; "S"; "I"; "S"]%char 3). lia.
Defined.

Lemma count_cons (x : ascii) (s : list ascii) (c : ascii) :
  count (x :: s) c
  = ((if Ascii.eqb c x then 1 else 0) + count s c)%nat.
Proof. unfold count. simpl. now destruct (Ascii.eqb c x). Qed.

(** [AA_SIZE_TRANS] sends each of the 24 residue letters to one of the
    four size classes. *)
Lemma size_class_one (c : ascii) :
  In c ["G"; "A"; "S"; "C"; "U"; "T"; "D"; "P"; "N"; "V"; "B"; "E"; "Q";
        "Z"; "H"; "L"; "I"; "M"; "K"; "X"; "R"; "F"; "Y"; "W"]%char ->
  ((if Ascii.eqb "L" (AA_SIZE_TRANS c) then 1 else 0)
   + (if Ascii.eqb "I" (AA_SIZE_TRANS c) then 1 else 0)
   + (if Ascii.eqb "S" (AA_SIZE_TRANS c) then 1 else 0)
   + (if Ascii.eqb "M" (AA_SIZE_TRANS c) then 1 else 0))%nat = 1%nat.
Proof.
  intros H. simpl in H.
  repeat (destruct H as [<- | H]; [reflexivity |]). destruct H.
Qed.

Lemma weights_classes (peptide : list ascii) :
  (forall c, In c peptide ->
             In c ["G"; "A"; "S"; "C"; "U"; "T"; "D"; "P"; "N"; "V"; "B";
                   "E"; "Q"; "Z"; "H"; "L"; "I"; "M"; "K"; "X"; "R"; "F";
                   "Y"; "W"]%char) ->
  (count (aa_to_weights peptide) "L" + count (aa_to_weights peptide) "I"
   + count (aa_to_weights peptide) "S" + count (aa_to_weights peptide) "M")%nat
  = length peptide.
Proof.
  induction peptide as [|c peptide IH]; intros H; [reflexivity |].
  unfold aa_to_weights in *. cbn [map length]. rewrite !count_cons.
  pose proof (@size_class_one c (H c (or_introl eq_refl))) as One.
  specialize (IH (fun x Hx => H x (or_intror Hx))). lia.
Qed.

(** X30.  For a peptide written with the 24 residue letters, the features of
    its size classes hold [window] counts for each residue: all counts of
    all features add up to [window * len(peptide)]. *)
Theorem aa_to_weights_features (peptide : list ascii) (window : Z) :
  1 <= window ->
  (forall c, In c peptide ->
             In c ["G"; "A"; "S"; "C"; "U"; "T"; "D"; "P"; "N"; "V"; "B";
                   "E"; "Q"; "Z"; "H"; "L"; "I"; "M"; "K"; "X"; "R"; "F";
                   "Y"; "W"]%char) ->
  exists features,
    _peptide_to_features (aa_to_weights peptide) window = Ok features /\
    list_sum (map (@list_sum) features)
    = (Z.to_nat window * length peptide)%nat.
Proof.
  intros Hw Hall. rewrite peptide_to_features_map by exact Hw.
  eexists. split; [reflexivity |].
  rewrite map_map. unfold _kmer_features, list_sum at 2.
  cbn [fold_right].
  pose proof (@flanked_window_counts (aa_to_weights peptide) window "L"
                ltac:(discriminate) Hw) as CL.
  pose proof (@flanked_window_counts (aa_to_weights peptide) window "I"
                ltac:(discriminate) Hw) as CI.
  pose proof (@flanked_window_counts (aa_to_weights peptide) window "S"
                ltac:(discriminate) Hw) as CS.
  pose proof (@flanked_window_counts (aa_to_weights peptide) window "M"
                ltac:(discriminate) Hw) as CM.
  pose proof (@weights_classes peptide Hall) as W.
  rewrite (list_sum_map_add
             (fun i => count (firstn (Z.to_nat window)
                                     (skipn i (dashes (window - 1)
                                               ++ aa_to_weights peptide
                                               ++ dashes (window - 1))))
                             "L")).
  rewrite (list_sum_map_add
             (fun i => count (firstn (Z.to_nat window)
                                     (skipn i (dashes (window - 1)
                                               ++ aa_to_weights peptide
                                               ++ dashes (window - 1))))
                             "I")).
  rewrite (list_sum_map_add
             (fun i => count (firstn (Z.to_nat window)
                                     (skipn i (dashes (window - 1)
                                               ++ aa_to_weights peptide
                                               ++ dashes (window - 1))))
                             "S")).
  rewrite (list_sum_map_add
             (fun i => count (firstn (Z.to_nat window)
                                     (skipn i (dashes (window - 1)
                                               ++ aa_to_weights peptide
                                               ++ dashes (window - 1))))
                             "M")
             (fun _ => 0%nat)).
  rewrite (@list_sum_map_const _ (fun _ : nat => 0%nat) _ 0%nat)
    by reflexivity.
  unfold aa_to_weights in *. rewrite length_map in *.
  rewrite CL, CI, CS, CM. nia.
Qed.

Lemma aa_to_weights_features_witness :
  exists features,
    _peptide_to_features (aa_to_weights ["G"; "W"; "K"]%char) 2
    = Ok features /\
    list_sum (map (@list_sum) features)
    = (Z.to_nat 2 * length ["G"; "W"; "K"]%char)%nat.
Proof.
  apply (@aa_to_weights_features ["G"; "W"; "K"]%char 2).
  - lia.
  - intros c [<- | [<- | [<- | []]]]; simpl; tauto.
Defined.
